(** * Skyline guest-thread scheduler: a shallow embedding of
      [skyline/kernel/scheduler.cpp] and the properties of its operations.

    Threads are shared handles ([std::shared_ptr<type::KThread>]): the model
    keeps one heap of thread objects indexed by handle, and the queues hold
    handles, so that a write through one alias is seen through all of them.
    Every operation is a computation in a small state-and-error monad whose
    outcomes are: normal return, a C++ exception (with the state reached when
    it is thrown), undefined behaviour, or blocking in a condition wait. *)

From Stdlib Require Import ZArith List Bool Lia.
From stdpp Require Import base decidable option list functions sorting.

(** ** Data model *)

(** A thread handle: the identity of a [std::shared_ptr<type::KThread>]. *)
Definition tid := nat.

(** Unsigned 64-bit wrap-around ([u64], [size_t]). *)
Definition u64 (z : Z) : Z := (z mod 2 ^ 64)%Z.

(** Modelled from the spec: the fields of [type::KThread] (types/KThread.h)
    that the scheduler reads and writes; section 3 of the specification gives
    their types.  [affinityMask] is the integer value of the
    [std::bitset<CoreCount>]. *)
Record KThread := mkKThread {
  priority : Z;            (* std::atomic<i8>, lower value = higher priority *)
  affinityMask : Z;        (* std::bitset<CoreCount> *)
  coreId : nat;            (* u8 *)
  averageTimeslice : Z;    (* u64, ticks *)
  timesliceStart : Z;      (* u64, ticks *)
  isPreempted : bool;
  forceYield : bool
}.

Definition with_coreId (c : nat) (t : KThread) : KThread :=
  mkKThread (priority t) (affinityMask t) c (averageTimeslice t)
            (timesliceStart t) (isPreempted t) (forceYield t).

Definition with_averageTimeslice (a : Z) (t : KThread) : KThread :=
  mkKThread (priority t) (affinityMask t) (coreId t) a
            (timesliceStart t) (isPreempted t) (forceYield t).

Definition with_timesliceStart (a : Z) (t : KThread) : KThread :=
  mkKThread (priority t) (affinityMask t) (coreId t) (averageTimeslice t)
            a (isPreempted t) (forceYield t).

Definition with_isPreempted (b : bool) (t : KThread) : KThread :=
  mkKThread (priority t) (affinityMask t) (coreId t) (averageTimeslice t)
            (timesliceStart t) b (forceYield t).

Definition with_forceYield (b : bool) (t : KThread) : KThread :=
  mkKThread (priority t) (affinityMask t) (coreId t) (averageTimeslice t)
            (timesliceStart t) (isPreempted t) b.

(** [std::bitset::test] and [std::bitset::count] on the mask's value. *)
Definition mask_test (m : Z) (i : nat) : bool := Z.testbit m (Z.of_nat i).

Fixpoint popcount (p : positive) : nat :=
  match p with
  | xH => 1
  | xO p' => popcount p'
  | xI p' => S (popcount p')
  end.

Definition mask_count (m : Z) : nat :=
  match m with
  | Zpos p => popcount p
  | _ => 0
  end.

(** [Scheduler::CoreContext]: the mutex is not modelled, an operation runs
    atomically with respect to the queues it locks. *)
Record CoreContext := mkCore {
  id : nat;                  (* u8 *)
  preemptionPriority : Z;    (* i8 in the specification, u8 in the constructor *)
  queue : list tid           (* std::list<std::shared_ptr<type::KThread>> *)
}.

Definition with_queue (q : list tid) (c : CoreContext) : CoreContext :=
  mkCore (id c) (preemptionPriority c) q.

(** What an operation does to the outside world, in program order. *)
Inductive Event :=
| SendSignal (t : tid)        (* t->SendSignal(YieldSignal) *)
| notify_one (t : tid)        (* t->wakeCondition.notify_one() *)
| timer_arm (t : tid)         (* timer_settime(t->preemptionTimer, PreemptiveTimeslice) *)
| timer_disarm (t : tid)      (* timer_settime(t->preemptionTimer, {}) *)
| LogEarly (t : tid) (c : nat)
| LogLate (t : tid) (c : nat)
| LogMigrate (t : tid) (c c' : nat).

Record SchedulerState := mkState {
  cores : list CoreContext;       (* std::array<CoreContext, CoreCount> *)
  parkedQueue : list tid;
  threads : tid -> KThread;       (* the thread objects behind the handles *)
  YieldPending : tid -> bool;     (* thread_local flag of the host thread backing a guest thread *)
  tickReads : nat;                (* how many times util::GetTimeTicks() was read *)
  trace : list Event              (* latest event last *)
}.

Inductive exception :=
| out_of_range                   (* std::array::at *)
| RotateNotInQueueForced         (* "... after being forcefully yielded" *)
| RotateNotInQueue               (* "... called Rotate while not being in C{}'s queue" *)
| ExternalMigration.             (* "Migrating an external thread ... isn't supported" *)

Inductive undefined :=
| NullDeref                      (* operator-> on an empty shared_ptr or a null pointer *)
| EmptyFront.                    (* std::list::front() on an empty list *)

Inductive Outcome (A : Type) :=
| Ret (a : A) (s : SchedulerState)
| Throw (e : exception) (s : SchedulerState)
| Undef (u : undefined)
| Wait (s : SchedulerState).     (* blocked in wakeCondition.wait *)

Arguments Ret {A} a s.
Arguments Throw {A} e s.
Arguments Undef {A} u.
Arguments Wait {A} s.

Definition M (A : Type) : Type := SchedulerState -> Outcome A.

Definition ret {A} (a : A) : M A := fun s => Ret a s.

Definition bind {A B} (m : M A) (k : A -> M B) : M B :=
  fun s =>
    match m s with
    | Ret a s' => k a s'
    | Throw e s' => Throw e s'
    | Undef u => Undef u
    | Wait s' => Wait s'
    end.

Declare Scope sched_scope.
Delimit Scope sched_scope with sched.
Notation "x <- m ; k" := (bind m (fun x => k))
  (at level 20, m at level 100, k at level 200, only parsing) : sched_scope.
Notation "m ;; k" := (bind m (fun _ => k))
  (at level 100, k at level 200, right associativity, only parsing) : sched_scope.
Local Open Scope sched_scope.

Definition throw {A} (e : exception) : M A := fun s => Throw e s.
Definition undef {A} (u : undefined) : M A := fun _ => Undef u.
Definition gets {A} (f : SchedulerState -> A) : M A := fun s => Ret (f s) s.
Definition when (b : bool) (m : M unit) : M unit := if b then m else ret tt.

(** [wakeCondition.wait(lock, pred)]: returns at once when the predicate
    holds, blocks otherwise. *)
Definition wait (pred : SchedulerState -> bool) : M unit :=
  fun s => if pred s then Ret tt s else Wait s.

Definition set_cores (cs : list CoreContext) (s : SchedulerState) : SchedulerState :=
  mkState cs (parkedQueue s) (threads s) (YieldPending s) (tickReads s) (trace s).

Definition set_parkedQueue (q : list tid) (s : SchedulerState) : SchedulerState :=
  mkState (cores s) q (threads s) (YieldPending s) (tickReads s) (trace s).

Definition set_threads (ths : tid -> KThread) (s : SchedulerState) : SchedulerState :=
  mkState (cores s) (parkedQueue s) ths (YieldPending s) (tickReads s) (trace s).

Definition set_YieldPending (y : tid -> bool) (s : SchedulerState) : SchedulerState :=
  mkState (cores s) (parkedQueue s) (threads s) y (tickReads s) (trace s).

Definition set_tickReads (n : nat) (s : SchedulerState) : SchedulerState :=
  mkState (cores s) (parkedQueue s) (threads s) (YieldPending s) n (trace s).

Definition set_trace (tr : list Event) (s : SchedulerState) : SchedulerState :=
  mkState (cores s) (parkedQueue s) (threads s) (YieldPending s) (tickReads s) tr.

(** [*ptr] / [ptr->] on [state.thread], which is empty on a host thread
    that runs no guest thread. *)
Definition deref (p : option tid) : M tid :=
  match p with
  | Some t => ret t
  | None => undef NullDeref
  end.

(** Reading the object behind a handle. *)
Definition thread_obj (t : tid) : M KThread := gets (fun s => threads s t).

(** Writing one field of the object behind a handle. *)
Definition update_thread (t : tid) (f : KThread -> KThread) : M unit :=
  fun s => Ret tt (set_threads (alter f t (threads s)) s).

(** [cores.at(i)], which throws [std::out_of_range]. *)
Definition cores_at (i : nat) : M CoreContext :=
  fun s =>
    match cores s !! i with
    | Some c => Ret c s
    | None => Throw out_of_range s
    end.

(** Assignment to the queue of the core at index [i]. *)
Definition put_queue (i : nat) (q : list tid) : M unit :=
  fun s => Ret tt (set_cores (alter (with_queue q) i (cores s)) s).

Definition emit (e : Event) : M unit :=
  fun s => Ret tt (set_trace (trace s ++ [e]) s).

Definition put_YieldPending (t : tid) (b : bool) : M unit :=
  fun s => Ret tt (set_YieldPending (<[t := b]> (YieldPending s)) s).

(** ** The queue primitives of the standard library

    Iterators into a [std::list] are positions: index [0] is [begin()],
    index [length q] is [end()]. *)

(** Modelled from the spec: [type::KThread::IsHigherPriority(priority, it)]
    of types/KThread.h, by section 6 the comparison [priority < it->priority];
    the first overload of [ThreadComparision] in [Rotate] is the same. *)
Definition IsHigherPriority (ths : tid -> KThread) (p : Z) (it : tid) : bool :=
  bool_decide (p < priority (ths it))%Z.

(** The second overload of [ThreadComparision]: [it->priority < priority]. *)
Definition IsLowerThan (ths : tid -> KThread) (it : tid) (p : Z) : bool :=
  bool_decide (priority (ths it) < p)%Z.

(** [std::upper_bound(q.begin(), q.end(), p, IsHigherPriority)]: the
    furthermost position such that no element before it compares above [p],
    that is the position of the first element with [p < it->priority].  On a
    queue partitioned with respect to [p] (every sorted queue is) this is
    what any implementation returns. *)
Fixpoint upper_bound (ths : tid -> KThread) (q : list tid) (p : Z) : nat :=
  match q with
  | [] => 0
  | it :: q' => if IsHigherPriority ths p it then 0 else S (upper_bound ths q' p)
  end.

(** [std::lower_bound]: the position of the first element that does not
    compare below [p]. *)
Fixpoint lower_bound (ths : tid -> KThread) (q : list tid) (p : Z) : nat :=
  match q with
  | [] => 0
  | it :: q' => if IsLowerThan ths it p then S (lower_bound ths q' p) else 0
  end.

(** [std::equal_range] is the pair of both bounds. *)
Definition equal_range (ths : tid -> KThread) (q : list tid) (p : Z) : nat * nat :=
  (lower_bound ths q p, upper_bound ths q p).

(** [std::find(first, last, t)] over positions [first .. last) of [q]: the
    position of the first occurrence, [last] when there is none. *)
Fixpoint find_from (t : tid) (q : list tid) (first last : nat) : nat :=
  match q with
  | [] => last
  | x :: q' =>
      match first with
      | S first' =>
          match last with
          | S last' => S (find_from t q' first' last')
          | O => last
          end
      | O =>
          match last with
          | S last' => if decide (x = t) then 0 else S (find_from t q' 0 last')
          | O => 0
          end
      end
  end.

(** [std::find(q.begin(), q.end(), t)]. *)
Definition find (t : tid) (q : list tid) : nat := find_from t q 0 (length q).

(** [q.insert(pos, t)]. *)
Definition insert_at (pos : nat) (t : tid) (q : list tid) : list tid :=
  take pos q ++ t :: drop pos q.

(** [q.erase(pos)]. *)
Definition erase (pos : nat) (q : list tid) : list tid := delete pos q.

(** [q.splice(pos, q, q.begin())]: the first element is moved in front of
    position [pos]; nothing happens when [pos] is the first element or the
    one after it. *)
Definition splice_front (pos : nat) (q : list tid) : list tid :=
  match q, pos with
  | [], _ => []
  | _, O => q
  | h :: q', S pos' => take pos' q' ++ h :: drop pos' q'
  end.

(** The exponentially weighted average as the source computes it:
    [(avg / 4) + (3 * (now - start / 4))], in [u64] arithmetic. *)
Definition ewma (avg now start : Z) : Z :=
  u64 (avg / 4 + u64 (3 * u64 (now - start / 4))).

(** ** The operations of [Scheduler] *)

Section Scheduler.

(** [util::GetTimeTicks()]: [tickSource n] is what the [n]-th read of the
    monotonic tick counter returns. *)
Variable tickSource : nat -> Z.

(** Modelled from the spec: [constant::ParkedCoreId], the sentinel core id
    of a parked thread (section 6). *)
Variable ParkedCoreId : nat.

Definition GetTimeTicks : M Z :=
  fun s => Ret (u64 (tickSource (tickReads s))) (set_tickReads (S (tickReads s)) s).

(** The queue of the core at index [i], read again. *)
Definition queue_of (i : nat) : M (list tid) :=
  c <- cores_at i ; ret (queue c).

(** [thread->averageTimeslice = (thread->averageTimeslice / 4) +
    (3 * (util::GetTimeTicks() - thread->timesliceStart / 4))]. *)
Definition update_averageTimeslice (thread : tid) : M unit :=
  th <- thread_obj thread ;
  now <- GetTimeTicks ;
  update_thread thread
    (with_averageTimeslice (ewma (averageTimeslice th) now (timesliceStart th))).

(** Disarm the preemption timer: [timer_settime] with a zeroed spec. *)
Definition disarm (thread : tid) : M unit := emit (timer_disarm thread).

(** [Scheduler::InsertThread(thread)], run by the host thread whose
    [state.thread] is [caller]. *)
Definition InsertThread (caller : option tid) (thread : tid) : M unit :=
  th <- thread_obj thread ;
  let c := coreId th in
  core <- cores_at c ;
  ths <- gets threads ;
  let nextThread := upper_bound ths (queue core) (priority th) in
  if decide (nextThread = 0) then
    (if decide (nextThread <> length (queue core)) then
       (if decide (caller = Some thread) then
          match queue core with
          | [] => undef EmptyFront
          | front :: _ =>
              update_thread front (with_forceYield true) ;;
              ths' <- gets threads ;
              put_queue c (thread ::
                splice_front (upper_bound ths' (queue core) (priority th)) (queue core))
          end
        else
          put_queue c (insert_at 1 thread (queue core))) ;;
       q <- queue_of c ;
       match q with
       | [] => undef EmptyFront
       | front :: _ =>
           if decide (caller <> Some front)
           then emit (SendSignal front)
           else put_YieldPending front true
       end
     else
       put_queue c (thread :: queue core)) ;;
    when (bool_decide (Some thread <> caller)) (emit (notify_one thread))
  else
    put_queue c (insert_at nextThread thread (queue core)).

(** [Scheduler::RemoveThread()]. *)
Definition RemoveThread (caller : option tid) : M unit :=
  thread <- deref caller ;
  th <- thread_obj thread ;
  let c := coreId th in
  core <- cores_at c ;
  let it := find thread (queue core) in
  when (bool_decide (it <> length (queue core)))
    (put_queue c (erase it (queue core)) ;;
     when (bool_decide (it = 0))
       (when (bool_decide (timesliceStart th <> 0%Z)) (update_averageTimeslice thread) ;;
        match erase it (queue core) with
        | front :: _ => emit (notify_one front)
        | [] => ret tt
        end)) ;;
  th' <- thread_obj thread ;
  when (isPreempted th')
    (disarm thread ;; update_thread thread (with_isPreempted false)) ;;
  put_YieldPending thread false.

(** [Scheduler::Rotate(cooperative)]. *)
Definition Rotate (caller : option tid) (cooperative : bool) : M unit :=
  thread <- deref caller ;
  th <- thread_obj thread ;
  let c := coreId th in
  core <- cores_at c ;
  match queue core with
  | [] => undef EmptyFront
  | front :: _ =>
      if decide (front = thread) then
        update_averageTimeslice thread ;;
        ths <- gets threads ;
        let q := splice_front (upper_bound ths (queue core) (priority th)) (queue core) in
        put_queue c q ;;
        match q with
        | [] => undef EmptyFront
        | front' :: _ => when (bool_decide (front' <> thread)) (emit (notify_one front'))
        end ;;
        when (cooperative && isPreempted th) (disarm thread) ;;
        update_thread thread (with_isPreempted false)
      else if forceYield th then
        ths <- gets threads ;
        let bounds := equal_range ths (queue core) (priority th) in
        let iterator := find_from thread (queue core) (fst bounds) (snd bounds) in
        if decide (iterator <> snd bounds) then
          update_averageTimeslice thread ;;
          when (cooperative && isPreempted th) (disarm thread) ;;
          update_thread thread (with_isPreempted false)
        else
          throw RotateNotInQueueForced
      else
        throw RotateNotInQueue
  end ;;
  update_thread thread (with_forceYield false).

(** Arm the preemption timer and record it:
    [timer_settime(thread->preemptionTimer, 0, &spec, nullptr);
     thread->isPreempted = true]. *)
Definition arm (thread : tid) : M unit :=
  emit (timer_arm thread) ;; update_thread thread (with_isPreempted true).

(** [Scheduler::UpdatePriority(thread)].  The second test of
    [currentIt == core->queue.begin()] is kept where the source has it,
    behind the early return on the same condition. *)
Definition UpdatePriority (thread : tid) : M unit :=
  th <- thread_obj thread ;
  let c := coreId th in
  core <- cores_at c ;
  let currentIt := find thread (queue core) in
  if decide (currentIt = length (queue core) \/ currentIt = 0) then
    ret tt
  else if decide (currentIt = 0) then
    match drop 1 (queue core) with
    | nextIt :: _ =>
        nx <- thread_obj nextIt ;
        if decide (priority nx < priority th)%Z then emit (SendSignal thread)
        else when (negb (isPreempted th) && bool_decide (priority th = preemptionPriority core))
               (arm thread)
    | [] =>
        when (negb (isPreempted th) && bool_decide (priority th = preemptionPriority core))
          (arm thread)
    end
  else
    ths <- gets threads ;
    let targetIt := upper_bound ths (queue core) (priority th) in
    if decide (currentIt = targetIt) then
      ret tt
    else
      let q := erase currentIt (queue core) in
      put_queue c q ;;
      when (isPreempted th && bool_decide (priority th <> preemptionPriority core))
        (disarm thread ;; update_thread thread (with_isPreempted false)) ;;
      ths' <- gets threads ;
      let targetIt' := upper_bound ths' q (priority th) in
      if decide (targetIt' = 0 /\ targetIt' <> length q) then
        put_queue c (insert_at 1 thread q) ;;
        match insert_at 1 thread q with
        | front :: _ => emit (SendSignal front)
        | [] => undef EmptyFront
        end
      else
        put_queue c (insert_at targetIt' thread q).

(** The share of the running thread in a projected wait:
    [averageTimeslice ? std::min(averageTimeslice - (now - timesliceStart), 1UL)
     : timesliceStart ? now - timesliceStart : 1UL]. *)
Definition running_share (runningThread : tid) : M Z :=
  rt <- thread_obj runningThread ;
  if decide (averageTimeslice rt <> 0%Z) then
    now <- GetTimeTicks ;
    ret (Z.min (u64 (averageTimeslice rt - u64 (now - timesliceStart rt))) 1)
  else if decide (timesliceStart rt <> 0%Z) then
    now <- GetTimeTicks ;
    ret (u64 (now - timesliceStart rt))
  else
    ret 1%Z.

(** The [while (++threadIterator != cend())] loop over the resident
    threads behind the running one. *)
Fixpoint resident_share (ths : tid -> KThread) (p : Z) (residents : list tid)
    (timeslice : Z) : Z :=
  match residents with
  | [] => timeslice
  | residentThread :: rest =>
      let rt := ths residentThread in
      resident_share ths p rest
        (if decide (priority rt <= p)%Z
         then u64 (timeslice + (if decide (averageTimeslice rt <> 0%Z)
                                then averageTimeslice rt else 1))
         else timeslice)
  end.

(** The body of the candidate loop up to the comparison: the [timeslice]
    after which [thread] would run on [candidateCore]. *)
Definition projected_wait (thread : tid) (candidateCore : CoreContext) : M Z :=
  match queue candidateCore with
  | [] => ret 0%Z
  | runningThread :: residents =>
      share <- running_share runningThread ;
      ths <- gets threads ;
      ret (resident_share ths (priority (ths thread)) residents (u64 (0 + share)))
  end.

(** [for (auto &candidateCore : cores)] with its two locals; a core is
    named by its position in [cores], as the source names it by address. *)
Fixpoint select_core (thread : tid) (currentCore : nat) (candidates : list CoreContext)
    (index : nat) (optimalCore : option nat) (minTimeslice : Z) : M (option nat) :=
  match candidates with
  | [] => ret optimalCore
  | candidateCore :: rest =>
      th <- thread_obj thread ;
      if mask_test (affinityMask th) (id candidateCore) then
        timeslice <- projected_wait thread candidateCore ;
        if decide (optimalCore = None \/ (timeslice < minTimeslice)%Z \/
                   (timeslice = minTimeslice /\ index = currentCore))
        then select_core thread currentCore rest (S index) (Some index) timeslice
        else select_core thread currentCore rest (S index) optimalCore minTimeslice
      else
        select_core thread currentCore rest (S index) optimalCore minTimeslice
  end.

(** [Scheduler::LoadBalance(thread, alwaysInsert)]; the result is the
    position of the returned core. *)
Definition LoadBalance (caller : option tid) (thread : tid) (alwaysInsert : bool) : M nat :=
  th <- thread_obj thread ;
  let currentCore := coreId th in
  cc <- cores_at currentCore ;
  if bool_decide (queue cc <> []) && bool_decide (mask_count (affinityMask th) <> 1) then
    cs <- gets cores ;
    optimalCore <- select_core thread currentCore cs 0 None 0%Z ;
    if decide (optimalCore <> Some currentCore) then
      (if negb alwaysInsert && bool_decide (Some thread = caller) then
         RemoveThread caller
       else if negb alwaysInsert && bool_decide (Some thread <> caller) then
         throw ExternalMigration
       else ret tt) ;;
      match optimalCore with
      | None => undef NullDeref
      | Some o =>
          oc <- cores_at o ;
          update_thread thread (with_coreId (id oc)) ;;
          InsertThread caller thread ;;
          emit (LogMigrate thread (id cc) (id oc)) ;;
          ret o
      end
    else
      when alwaysInsert (InsertThread caller thread) ;;
      emit (LogLate thread (id cc)) ;;
      ret currentCore
  else
    when alwaysInsert (InsertThread caller thread) ;;
    emit (LogEarly thread (id cc)) ;;
    ret currentCore.

(** The condition of the loop of [ParkThread] for one core. *)
Definition park_candidate (ths : tid -> KThread) (thread : tid) (originalCoreId : nat)
    (core : CoreContext) : bool :=
  bool_decide (originalCoreId <> id core)
  && mask_test (affinityMask (ths thread)) (id core)
  && match queue core with
     | [] => true
     | front :: _ => bool_decide (priority (ths front) > priority (ths thread))%Z
     end.

(** [for (auto &core : cores) if (...) thread->coreId = core.id;]. *)
Fixpoint scan_cores (thread : tid) (originalCoreId : nat) (cs : list CoreContext) : M unit :=
  match cs with
  | [] => ret tt
  | core :: rest =>
      ths <- gets threads ;
      when (park_candidate ths thread originalCoreId core)
        (update_thread thread (with_coreId (id core))) ;;
      scan_cores thread originalCoreId rest
  end.

Definition put_parkedQueue (q : list tid) : M unit :=
  fun s => Ret tt (set_parkedQueue q s).

(** [Scheduler::ParkThread()].  When the thread parks, the outcome is
    [Wait]: it resumes at [InsertThread(thread)] once woken. *)
Definition ParkThread (caller : option tid) : M unit :=
  thread <- deref caller ;
  RemoveThread caller ;;
  th <- thread_obj thread ;
  let originalCoreId := coreId th in
  update_thread thread (with_coreId ParkedCoreId) ;;
  cs <- gets cores ;
  scan_cores thread originalCoreId cs ;;
  th' <- thread_obj thread ;
  when (bool_decide (coreId th' = ParkedCoreId))
    (pq <- gets parkedQueue ;
     ths <- gets threads ;
     put_parkedQueue (insert_at (upper_bound ths pq (priority th')) thread pq) ;;
     wait (fun s =>
             match parkedQueue s with
             | front :: _ =>
                 bool_decide (front = thread)
                 && bool_decide (coreId (threads s thread) <> ParkedCoreId)
             | [] => false
             end)) ;;
  InsertThread caller thread.

(** [Scheduler::WakeParkedThread()]. *)
Definition WakeParkedThread (caller : option tid) : M unit :=
  pq <- gets parkedQueue ;
  match pq with
  | [] => ret tt
  | parkedThread :: _ =>
      thread <- deref caller ;
      th <- thread_obj thread ;
      core <- cores_at (coreId th) ;
      let nextThread := if decide (1 < length (queue core)) then queue core !! 1 else None in
      nx <- deref nextThread ;
      nxo <- thread_obj nx ;
      let nextThread' := if decide (priority nxo = priority th) then Some nx else None in
      pt <- thread_obj parkedThread ;
      ths <- gets threads ;
      when (bool_decide (priority pt < priority th)%Z
            || (bool_decide (priority pt = priority th)
                && match nextThread' with
                   | None => true
                   | Some n => bool_decide (timesliceStart pt < timesliceStart (ths n))%Z
                   end))
        (update_thread parkedThread (with_coreId (coreId th)) ;;
         emit (notify_one thread))
  end.

(** [wakeCondition.wait_for(lock, timeout, pred)]: the call gives the mutex
    up while it waits; [others] is what the other threads did to the
    scheduler in the meantime, and the result is the predicate's value on
    return. *)
Definition wait_for (others : SchedulerState -> SchedulerState)
    (pred : SchedulerState -> bool) : M bool :=
  fun s => Ret (pred (others s)) (others s).

(** [!core->queue.empty() && core->queue.front() == thread]. *)
Definition is_front (c : nat) (thread : tid) (s : SchedulerState) : bool :=
  match cores s !! c with
  | Some core =>
      match queue core with
      | front :: _ => bool_decide (front = thread)
      | [] => false
      end
  | None => false
  end.

(** [Scheduler::TimedWaitSchedule(timeout)]. *)
Definition TimedWaitSchedule (caller : option tid)
    (others : SchedulerState -> SchedulerState) : M bool :=
  thread <- deref caller ;
  th <- thread_obj thread ;
  let c := coreId th in
  core <- cores_at c ;
  scheduled <- wait_for others (is_front c thread) ;
  if scheduled then
    th' <- thread_obj thread ;
    when (bool_decide (priority th' = preemptionPriority core)) (arm thread) ;;
    now <- GetTimeTicks ;
    update_thread thread (with_timesliceStart now) ;;
    ret true
  else
    ret false.

End Scheduler.

(** ** Notions used to state the properties *)

Section Notions.

Variable tickSource : nat -> Z.
Variable ParkedCoreId : nat.

(** The halving search by which the implementations of the standard
    library compute [std::upper_bound] over the [len] elements from position
    [first]; [fuel] bounds the number of rounds.  It is here to compare
    [upper_bound] with: the operations use [upper_bound]. *)
Fixpoint upper_bound_halving (fuel : nat) (ths : tid -> KThread) (q : list tid) (p : Z)
    (first len : nat) : nat :=
  match fuel with
  | O => first
  | S fuel' =>
      match len with
      | O => first
      | S _ =>
          let half := Nat.div2 len in
          match q !! (first + half) with
          | Some middle =>
              if IsHigherPriority ths p middle
              then upper_bound_halving fuel' ths q p first half
              else upper_bound_halving fuel' ths q p (S (first + half)) (len - half - 1)
          | None => first
          end
      end
  end.

(** What no operation of the scheduler writes: priority, affinity mask. *)
Definition same_static (ths ths' : tid -> KThread) : Prop :=
  forall u, priority (ths' u) = priority (ths u)
            /\ affinityMask (ths' u) = affinityMask (ths u).

(** The queue [InsertThread] leaves on the destination core: the thread
    goes to its upper bound, except that a thread other than the caller
    which would land in front of a running thread is put right behind it. *)
Definition inserted (ths : tid -> KThread) (caller : option tid) (t : tid)
    (q : list tid) : list tid :=
  let k := upper_bound ths q (priority (ths t)) in
  if decide (k = 0 /\ q <> [] /\ caller <> Some t)
  then insert_at 1 t q
  else insert_at k t q.

(** The queue [RemoveThread] leaves on the caller's core. *)
Definition removed (t : tid) (q : list tid) : list tid :=
  if decide (find t q <> length q) then erase (find t q) q else q.

(** The thread is found between the bounds of its priority band. *)
Definition found_in_band (ths : tid -> KThread) (t : tid) (q : list tid) : bool :=
  let bounds := equal_range ths q (priority (ths t)) in
  bool_decide (find_from t q (fst bounds) (snd bounds) <> snd bounds).

(** The core id the loop of [ParkThread] ends with: that of the last core
    that passes the test, [init] when none does. *)
Fixpoint last_candidate (ths : tid -> KThread) (t : tid) (orig : nat)
    (cs : list CoreContext) (init : nat) : nat :=
  match cs with
  | [] => init
  | c :: rest =>
      last_candidate ths t orig rest (if park_candidate ths t orig c then id c else init)
  end.

(** Modelled from the spec: the initial value of [cores] in scheduler.h;
    by section 3 there is one core context per core, with ids [0..N-1], so
    that the id of a core is its position in [cores]. *)
Definition cores_wf (s : SchedulerState) : Prop :=
  forall i c, cores s !! i = Some c -> id c = i.

(** The projected waits as the candidate loop computes them, in core
    order, [None] for a core the affinity mask does not admit: the loop of
    [select_core] without its selection. *)
Fixpoint projected_waits (thread : tid) (candidates : list CoreContext)
    : M (list (option Z)) :=
  match candidates with
  | [] => ret []
  | candidateCore :: rest =>
      th <- thread_obj thread ;
      if mask_test (affinityMask th) (id candidateCore) then
        timeslice <- projected_wait tickSource thread candidateCore ;
        ws <- projected_waits thread rest ;
        ret (Some timeslice :: ws)
      else
        ws <- projected_waits thread rest ;
        ret (None :: ws)
  end.

(** The only thing the loop writes is the count of tick reads. *)
Definition ticks_only (s s' : SchedulerState) : Prop :=
  exists n, s' = set_tickReads n s.

(** What the two locals of the loop hold once the cores with the waits
    [ws] have been visited: nothing while no core was admitted; afterwards
    a core with the least wait, which is the current core whenever the
    current core has the least wait. *)
Definition selected (cur : nat) (ws : list (option Z)) (optimalCore : option nat)
    (minTimeslice : Z) : Prop :=
  match optimalCore with
  | None => forall j w, ws !! j <> Some (Some w)
  | Some o =>
      ws !! o = Some (Some minTimeslice)
      /\ (forall j w, ws !! j = Some (Some w) -> (minTimeslice <= w)%Z)
      /\ (ws !! cur = Some (Some minTimeslice) -> o = cur)
  end.

(** A queue in ascending order of the numeric priority. *)
Definition prio_le (ths : tid -> KThread) (a b : tid) : Prop :=
  (priority (ths a) <= priority (ths b))%Z.

Definition queue_sorted (ths : tid -> KThread) (q : list tid) : Prop :=
  StronglySorted (prio_le ths) q.

(** Every core queue is in ascending order of priority. *)
Definition queues_sorted (s : SchedulerState) : Prop :=
  forall i c, cores s !! i = Some c -> queue_sorted (threads s) (queue c).

(** A deferred dethrone: [t] sits right behind a running thread of
    strictly lower priority. *)
Definition dethroned (ths : tid -> KThread) (t : tid) (q : list tid) : Prop :=
  exists front rest,
    q = front :: t :: rest /\ (priority (ths t) < priority (ths front))%Z.

(** The six operations that touch the core queues. *)
Inductive operation :=
| OpInsertThread (caller : option tid) (thread : tid)
| OpRotate (caller : option tid) (cooperative : bool)
| OpUpdatePriority (thread : tid)
| OpRemoveThread (caller : option tid)
| OpLoadBalance (caller : option tid) (thread : tid) (alwaysInsert : bool)
| OpParkThread (caller : option tid).

Definition run (op : operation) : M unit :=
  match op with
  | OpInsertThread caller thread => InsertThread caller thread
  | OpRotate caller cooperative => Rotate tickSource caller cooperative
  | OpUpdatePriority thread => UpdatePriority thread
  | OpRemoveThread caller => RemoveThread tickSource caller
  | OpLoadBalance caller thread alwaysInsert =>
      (LoadBalance tickSource caller thread alwaysInsert ;; ret tt)
  | OpParkThread caller => ParkThread tickSource ParkedCoreId caller
  end.

(** The operation inserts [t] on behalf of another thread. *)
Definition inserts_foreign (op : operation) (t : tid) : Prop :=
  match op with
  | OpInsertThread caller thread | OpLoadBalance caller thread _ =>
      t = thread /\ caller <> Some thread
  | _ => False
  end.

(** Every queue is sorted behind its first entry, and sorted as a whole
    unless the operation has deferred a dethrone on it. *)
Definition sorted_but_deferred (op : operation) (s : SchedulerState) : Prop :=
  forall i c, cores s !! i = Some c ->
    queue_sorted (threads s) (tail (queue c))
    /\ (queue_sorted (threads s) (queue c)
        \/ exists t, inserts_foreign op t /\ dethroned (threads s) t (queue c)).

(** The state an operation leaves, however it ends, satisfies [P]; nothing
    is said of undefined behaviour. *)
Definition leaves {A} (m : M A) (s : SchedulerState) (P : SchedulerState -> Prop) : Prop :=
  match m s with
  | Ret _ s' | Throw _ s' | Wait s' => P s'
  | Undef _ => True
  end.

(** Weakest preconditions: [Q] on return, [E] when the operation throws or
    blocks. *)
Definition wp {A} (m : M A) (s : SchedulerState)
    (Q : A -> SchedulerState -> Prop) (E : SchedulerState -> Prop) : Prop :=
  match m s with
  | Ret a s' => Q a s'
  | Throw _ s' | Wait s' => E s'
  | Undef _ => True
  end.

End Notions.

(** ** Waiting for the core and the signal handler *)

Section Waiting.

Variable tickSource : nat -> Z.

(** The default arguments of [LoadBalance(thread, alwaysInsert)] and of
    [WaitSchedule(loadBalance)] are declared in scheduler.h, which is not
    among the sources: they are parameters here. *)
Variable defaultAlwaysInsert : bool.
Variable defaultLoadBalance : bool.

(** Blocked in a wait whose predicate does not hold. *)
Definition block {A} : M A := fun s => Wait s.

(** [thread->wakeCondition.wait(lock, pred)] with the wake-ups of the
    waiting thread made explicit: each entry of [rounds] is what the other
    threads did to the scheduler until the next wake-up, at which the
    predicate is evaluated again; when the entries are used up the thread is
    still waiting. *)
Fixpoint wait_rounds (pred : SchedulerState -> bool)
    (rounds : list (SchedulerState -> SchedulerState)) : M unit :=
  match rounds with
  | [] => block
  | others :: later =>
      scheduled <- wait_for others pred ;
      if scheduled then ret tt else wait_rounds pred later
  end.

(** The [while (!thread->wakeCondition.wait_for(lock, loadBalanceThreshold,
    ...))] loop of [WaitSchedule]; here each entry of [rounds] ends with a
    return of [wait_for].  [core] is the pointer of the source, an index
    into [cores] together with the fields read through it, which never
    change.  The doubling of the threshold only moves the returns of
    [wait_for] in time. *)
Fixpoint wait_balancing (thread : tid) (c : nat) (core : CoreContext)
    (rounds : list (SchedulerState -> SchedulerState)) : M (nat * CoreContext) :=
  match rounds with
  | [] => block
  | others :: later =>
      scheduled <- wait_for others (is_front c thread) ;
      if scheduled then ret (c, core)
      else
        LoadBalance tickSource (Some thread) thread defaultAlwaysInsert ;;
        th <- thread_obj thread ;
        if decide (coreId th = id core) then
          wait_balancing thread c core later
        else
          core' <- cores_at (coreId th) ;
          wait_balancing thread (coreId th) core' later
  end.

(** [Scheduler::WaitSchedule(loadBalance)]. *)
Definition WaitSchedule (caller : option tid) (loadBalance : bool)
    (rounds : list (SchedulerState -> SchedulerState)) : M unit :=
  thread <- deref caller ;
  th <- thread_obj thread ;
  core <- cores_at (coreId th) ;
  final <- (if loadBalance && bool_decide (1 < mask_count (affinityMask th)) then
              wait_balancing thread (coreId th) core rounds
            else
              wait_rounds (is_front (coreId th) thread) rounds ;;
              ret (coreId th, core)) ;
  th' <- thread_obj thread ;
  when (bool_decide (priority th' = preemptionPriority (snd final))) (arm thread) ;;
  now <- GetTimeTicks tickSource ;
  update_thread thread (with_timesliceStart now).

(** [Scheduler::SignalHandler(signal, info, ctx, tls)], run on the host
    thread that backs the guest thread [host] ([YieldSignal] is raised on
    such threads only: by [SendSignal] and by the preemption timer).  [tls]
    tells whether [*tls] is set; the context it points to is that of the
    host thread, whose [state.thread] is [host]. *)
Definition SignalHandler (host : tid) (tls : bool)
    (rounds : list (SchedulerState -> SchedulerState)) : M unit :=
  if tls then
    Rotate tickSource (Some host) false ;;
    put_YieldPending host false ;;
    WaitSchedule (Some host) defaultLoadBalance rounds
  else
    put_YieldPending host true.

End Waiting.

(** ** What no operation writes *)

(** The identity of a core: the fields the constructor of [CoreContext]
    sets. *)
Definition same_core (c c' : CoreContext) : Prop :=
  id c' = id c /\ preemptionPriority c' = preemptionPriority c.

(** From [s] to [s'] no thread has changed priority or affinity mask, the
    cores are the same in number and identity, and every parked thread is
    still parked, in the same order. *)
Definition static_frame (s s' : SchedulerState) : Prop :=
  same_static (threads s) (threads s')
  /\ Forall2 same_core (cores s) (cores s')
  /\ sublist (parkedQueue s) (parkedQueue s').

(** ** Concrete schedulers used to run the model *)

(** A thread that never ran: no average, no timeslice start, no flags. *)
Definition fresh_thread (prio mask : Z) (core : nat) : KThread :=
  mkKThread prio mask core 0 0 false false.

(** A scheduler with the given cores and thread objects, nothing parked,
    nothing pending, the tick counter never read. *)
Definition scheduler_of (cs : list CoreContext) (ths : tid -> KThread) : SchedulerState :=
  mkState cs [] ths (fun _ => false) 0 [].

(** The tick counter stands at [n] whenever it is read. *)
Definition ticks_at (n : Z) : nat -> Z := fun _ => n.

(** One core with one running thread, whose average timeslice is 100 ticks
    and whose current timeslice started at tick 1000. *)
Definition steady_scheduler : SchedulerState :=
  scheduler_of [mkCore 0 59 [0]] (fun _ => mkKThread 40 1 0 100 1000 false false).

(** Threads 0, 1, 2, ... on core 0 with the priorities of the list, all
    others at priority 63; every thread may run on cores 0 to 3. *)
Definition threads_with (prios : list Z) : tid -> KThread :=
  fun t => fresh_thread (default 63%Z (prios !! t)) 15 0.

(** Thread 0 (priority 40) runs alone on core 0 while thread 1 (priority
    30, strictly higher) is parked. *)
Definition lone_runner_with_parked : SchedulerState :=
  set_parkedQueue [1] (scheduler_of [mkCore 0 59 [0]] (threads_with [40; 30]%Z)).

(** Thread 0 runs on core 0 in front of thread 1 and has just been given
    priority 50, below the 40 of thread 1. *)
Definition lowered_runner : SchedulerState :=
  scheduler_of [mkCore 0 59 [0; 1]] (threads_with [50; 40]%Z).

(** Thread 0 runs alone on core 0 and has just been given the preemption
    priority of the core, 59; its timer is not armed. *)
Definition runner_at_preemption_priority : SchedulerState :=
  scheduler_of [mkCore 0 59 [0]] (threads_with [59]%Z).

(** Thread 0 (priority 40) has [forceYield] set but is not in the queue of
    its core, which holds thread 1 (priority 30) only. *)
Definition forced_but_absent : SchedulerState :=
  scheduler_of [mkCore 0 59 [1]]
    (alter (with_forceYield true) 0 (threads_with [40; 30]%Z)).

(** Threads 0 and 1 (priority 40) queued on core 0, thread 2 (priority 40)
    not queued. *)
Definition two_queued : SchedulerState :=
  scheduler_of [mkCore 0 59 [0; 1]] (threads_with [40; 40; 40]%Z).

(** As [two_queued], with thread 0 moved behind thread 1 by a peer that set
    its [forceYield]. *)
Definition forced_and_moved : SchedulerState :=
  scheduler_of [mkCore 0 59 [1; 0]]
    (alter (with_forceYield true) 0 (threads_with [40; 40]%Z)).

(** As [two_queued], with the preemption timer of thread 2 armed. *)
Definition two_queued_preempted : SchedulerState :=
  scheduler_of [mkCore 0 59 [0; 1]]
    (alter (with_isPreempted true) 2 (threads_with [40; 40; 40]%Z)).

(** Three cores.  Threads 0 and 3 (both of priority 40) are queued on core
    0, cores 1 and 2 are empty, and thread 0 may run on all three. *)
Definition three_cores : SchedulerState :=
  scheduler_of [mkCore 0 59 [0; 3]; mkCore 1 59 []; mkCore 2 59 []]
    (fun t => fresh_thread (default 63%Z ([40; 63; 63; 40]%Z !! t)) 7 0).

(** Thread 0 (priority 40) runs on core 0; thread 1 (priority 30, strictly
    higher) is not queued. *)
Definition running_40 : SchedulerState :=
  scheduler_of [mkCore 0 59 [0]] (threads_with [40; 30]%Z).

(** Two cores with equal projected waits for thread 1 (priority 50), which
    waits on core 0 behind thread 0: on each core a running thread that never
    ran (share 1) and one thread of priority at most 50 with an average of 99
    ticks. *)
Definition balanced_tie : SchedulerState :=
  scheduler_of [mkCore 0 59 [0; 1]; mkCore 1 59 [2; 3]]
    (fun t =>
       match t with
       | 1 => mkKThread 50 3 0 99 0 false false
       | 2 => fresh_thread 40 3 1
       | 3 => mkKThread 40 3 1 99 0 false false
       | _ => fresh_thread 40 3 0
       end).

(** Core 0 with nobody queued and three threads of priority 40. *)
Definition idle_core : SchedulerState :=
  scheduler_of [mkCore 0 59 []] (threads_with [40; 40; 40]%Z).

(** Thread 0 names core 5 of a scheduler with one core. *)
Definition stray_thread : SchedulerState :=
  scheduler_of [mkCore 0 59 [0]] (fun _ => fresh_thread 40 1 5).


(** Thread 0 (priority 40) runs on core 0 in front of threads 1 and 2;
    thread 1 has just been given priority 30, above the running thread, and
    thread 2 has priority 45. *)
Definition raised_waiter : SchedulerState :=
  scheduler_of [mkCore 0 59 [0; 1; 2]] (threads_with [40; 30; 45]%Z).

(** As [two_queued], with thread 2 parked. *)
Definition two_queued_one_parked : SchedulerState :=
  set_parkedQueue [2] two_queued.

(** Thread 0 runs on core 0 with an empty affinity mask. *)
Definition no_affinity : SchedulerState :=
  scheduler_of [mkCore 0 59 [0]] (fun _ => fresh_thread 40 0 0).

Section Properties.

Variable tickSource : nat -> Z.
Variable ParkedCoreId : nat.

(** *** Positions in a queue *)

Lemma find_from_0_notin (t : tid) (q : list tid) :
  t ∉ q -> find_from t q 0 (length q) = length q.
Proof.
  induction q as [|x q IH]; intros Hnot; simpl; [done|].
  apply not_elem_of_cons in Hnot as [Hne Hq].
  destruct (decide (x = t)); [congruence|].
  by rewrite IH.
Qed.

Lemma find_notin (t : tid) (q : list tid) : t ∉ q -> find t q = length q.
Proof. apply find_from_0_notin. Qed.

Lemma find_from_0_bound (t : tid) (q : list tid) :
  find_from t q 0 (length q) <= length q.
Proof.
  induction q as [|x q IH]; simpl; [lia|].
  destruct (decide (x = t)); lia.
Qed.

Lemma find_le_length (t : tid) (q : list tid) : find t q <= length q.
Proof. apply find_from_0_bound. Qed.

Lemma find_lt_elem_of (t : tid) (q : list tid) :
  find t q <> length q -> t ∈ q.
Proof.
  intros Hne. destruct (decide (t ∈ q)) as [|Hnot]; [done|].
  by apply find_notin in Hnot.
Qed.

Lemma find_insert_at (t : tid) (q : list tid) (k : nat) :
  t ∉ q -> k <= length q -> find t (insert_at k t q) = k.
Proof.
  unfold find, insert_at. revert k.
  induction q as [|x q IH]; intros k Hnot Hk; simpl in *.
  - assert (k = 0) as -> by lia. simpl. by rewrite decide_True.
  - apply not_elem_of_cons in Hnot as [Hne Hq].
    destruct k as [|k]; simpl.
    + by rewrite decide_True.
    + rewrite decide_False by congruence. f_equal. apply IH; [done|lia].
Qed.

Lemma erase_insert_at (t : tid) (q : list tid) (k : nat) :
  k <= length q -> erase k (insert_at k t q) = q.
Proof.
  intros Hk. unfold erase, insert_at.
  pose proof (delete_middle (take k q) (drop k q) t) as Hd.
  rewrite length_take_le in Hd by done.
  by rewrite Hd, take_drop.
Qed.

Lemma length_insert_at (t : tid) (q : list tid) (k : nat) :
  length (insert_at k t q) = S (length q).
Proof.
  unfold insert_at. rewrite length_app; simpl.
  rewrite length_take, length_drop. lia.
Qed.

Lemma upper_bound_le_length (ths : tid -> KThread) (q : list tid) (p : Z) :
  upper_bound ths q p <= length q.
Proof.
  induction q as [|x q IH]; simpl; [lia|].
  destruct (IsHigherPriority ths p x); lia.
Qed.

(** The bounds look at priorities only. *)
Lemma upper_bound_ext (ths ths' : tid -> KThread) (q : list tid) (p : Z) :
  (forall u, priority (ths' u) = priority (ths u)) ->
  upper_bound ths' q p = upper_bound ths q p.
Proof.
  intros Hp. induction q as [|x q IH]; simpl; [done|].
  unfold IsHigherPriority. by rewrite Hp, IH.
Qed.

Lemma upper_bound_0 (ths : tid -> KThread) (q : list tid) (p : Z) :
  upper_bound ths q p = 0 ->
  q = [] \/ exists front rest, q = front :: rest /\ (p < priority (ths front))%Z.
Proof.
  destruct q as [|x q]; simpl; [by left|].
  unfold IsHigherPriority. case_bool_decide; [|done].
  intros _. right. by exists x, q.
Qed.

Local Arguments upper_bound : simpl never.
Local Arguments lower_bound : simpl never.
Local Arguments find_from : simpl never.
Local Arguments insert_at : simpl never.
Local Arguments erase : simpl never.
Local Arguments splice_front : simpl never.
Local Arguments ewma : simpl never.
Local Arguments u64 : simpl never.

(** *** Writes to the thread heap and to the cores *)

Lemma same_static_refl (ths : tid -> KThread) : same_static ths ths.
Proof. by intros u. Qed.

Lemma same_static_trans (a b c : tid -> KThread) :
  same_static a b -> same_static b c -> same_static a c.
Proof.
  intros Hab Hbc u. destruct (Hab u) as [Hp Hm]. rewrite <- Hp, <- Hm. apply Hbc.
Qed.

Lemma same_static_alter (ths : tid -> KThread) (t : tid) (f : KThread -> KThread) :
  (forall x, priority (f x) = priority x /\ affinityMask (f x) = affinityMask x) ->
  same_static ths (alter f t ths).
Proof.
  intros Hf u. unfold alter, fn_alter.
  destruct (decide (t = u)) as [->|]; [apply Hf|done].
Qed.

Lemma alter_same (ths : tid -> KThread) (t : tid) (f : KThread -> KThread) :
  alter f t ths t = f (ths t).
Proof. apply fn_lookup_alter. Qed.

Lemma alter_other (ths : tid -> KThread) (t u : tid) (f : KThread -> KThread) :
  t <> u -> alter f t ths u = ths u.
Proof. apply fn_lookup_alter_ne. Qed.

Lemma coreId_alter (ths : tid -> KThread) (t u : tid) (f : KThread -> KThread) :
  (forall x, coreId (f x) = coreId x) -> coreId (alter f t ths u) = coreId (ths u).
Proof.
  intros Hf. unfold alter, fn_alter. destruct (decide (t = u)) as [->|]; [apply Hf|done].
Qed.

Lemma alter_queue_twice (cs : list CoreContext) (i : nat) (q q' : list tid) :
  alter (with_queue q') i (alter (with_queue q) i cs) = alter (with_queue q') i cs.
Proof.
  rewrite list_alter_alter_eq. by apply list_alter_ext.
Qed.

Lemma alter_queue_same (cs : list CoreContext) (i : nat) (c : CoreContext) :
  cs !! i = Some c -> alter (with_queue (queue c)) i cs = cs.
Proof.
  intros Hc. apply list_eq. intros j.
  destruct (decide (i = j)) as [<-|Hne].
  - rewrite list_lookup_alter_eq, Hc. simpl. by destruct c.
  - by rewrite list_lookup_alter_ne.
Qed.

(** *** RemoveThread *)

(** C10: when the caller is not in the queue of its current core,
    [RemoveThread] changes no queue and notifies nobody; it still disarms
    the preemption timer if [isPreempted] was set, clears [isPreempted] and
    clears [YieldPending]. *)
Theorem RemoveThread_absent (s : SchedulerState) (thread : tid) (core : CoreContext) :
  cores s !! coreId (threads s thread) = Some core ->
  thread ∉ queue core ->
  exists s',
    RemoveThread tickSource (Some thread) s = Ret tt s'
    /\ cores s' = cores s
    /\ parkedQueue s' = parkedQueue s
    /\ trace s' = trace s ++ (if isPreempted (threads s thread)
                              then [timer_disarm thread] else [])
    /\ isPreempted (threads s' thread) = false
    /\ YieldPending s' thread = false.
Proof.
  intros Hcore Hnot.
  unfold RemoveThread, bind, deref, ret, thread_obj, gets, cores_at; simpl.
  rewrite Hcore; simpl.
  rewrite (find_notin _ _ Hnot).
  rewrite bool_decide_eq_false_2 by (intros H; apply H; reflexivity).
  simpl.
  destruct (isPreempted (threads s thread)) eqn:Hpre; simpl.
  - eexists; split; [reflexivity|]; simpl.
    repeat split; try reflexivity.
    + unfold alter, fn_alter. destruct (decide (thread = thread)); [done|congruence].
    + apply fn_lookup_insert.
  - eexists; split; [reflexivity|]; simpl.
    repeat split; try reflexivity.
    + by rewrite app_nil_r.
    + done.
    + apply fn_lookup_insert.
Qed.

(** Closes the side goals on the thread heap left by a run of updates. *)
Ltac solve_static :=
  first
    [ apply same_static_refl
    | eapply same_static_trans;
      [ | apply same_static_alter; by intros [] ]; solve_static ].

Ltac solve_frame :=
  try solve_static;
  try (intros ?; rewrite ?coreId_alter by (by intros []); done);
  try (rewrite ?alter_same; cbn; done).

(** *** InsertThread *)

Lemma InsertThread_effect (s : SchedulerState) (caller : option tid) (t : tid)
    (core : CoreContext) :
  cores s !! coreId (threads s t) = Some core ->
  exists s',
    InsertThread caller t s = Ret tt s'
    /\ cores s' = alter (with_queue (inserted (threads s) caller t (queue core)))
                        (coreId (threads s t)) (cores s)
    /\ parkedQueue s' = parkedQueue s
    /\ tickReads s' = tickReads s
    /\ same_static (threads s) (threads s')
    /\ (forall u, coreId (threads s' u) = coreId (threads s u)).
Proof.
  intros Hcore.
  unfold InsertThread, inserted, bind, thread_obj, gets, cores_at.
  rewrite Hcore.
  set (k := upper_bound (threads s) (queue core) (priority (threads s t))).
  destruct (decide (k = 0)) as [Hk|Hk].
  - destruct (decide (k <> length (queue core))) as [Hlen|Hlen].
    + destruct (queue core) as [|front rest] eqn:Hq; [simpl in Hlen; lia|].
      destruct (decide (caller = Some t)) as [->|Hcaller].
      * (* the caller dethrones the running thread itself *)
        destruct (decide (k = 0 /\ front :: rest <> [] /\ Some t <> Some t))
          as [[_ [_ ?]]|_]; [done|].
        unfold update_thread, put_queue, queue_of, cores_at, bind, ret.
        cbn [cores set_cores set_threads threads].
        rewrite list_lookup_alter_eq, Hcore.
        rewrite (upper_bound_ext (threads s)) by
          (intros u; apply same_static_alter; by intros []).
        fold k. rewrite Hk. cbn.
        destruct (decide (Some t <> Some t)) as [?|_]; [done|].
        unfold put_YieldPending, when.
        rewrite bool_decide_eq_false_2 by (intros H; by apply H).
        eexists; split; [reflexivity|]; cbn.
        split_and!; try done.
        -- apply same_static_alter. by intros [].
        -- intros u. apply coreId_alter. by intros [].
      * (* another thread is put behind the running thread *)
        destruct (decide (k = 0 /\ front :: rest <> [] /\ caller <> Some t))
          as [_|Hn]; [|by destruct Hn].
        unfold put_queue, queue_of, cores_at, bind, ret.
        cbn [cores set_cores].
        rewrite list_lookup_alter_eq, Hcore. cbn.
        change (insert_at 1 t (front :: rest)) with (front :: t :: rest).
        unfold when, emit.
        destruct (decide (caller <> Some front)); cbn;
          case_bool_decide; cbn; eexists; (split; [reflexivity|]); cbn;
          split_and!; try done.
    + (* empty queue: push_front *)
      assert (queue core = []) as Hq by (apply length_zero_iff_nil; lia).
      rewrite Hq.
      destruct (decide (k = 0 /\ @nil tid <> [] /\ caller <> Some t)) as [[_ [? _]]|_]; [done|].
      unfold put_queue, when, emit, ret.
      case_bool_decide; cbn; eexists; (split; [reflexivity|]); cbn;
        rewrite Hk; split_and!; try done.
  - destruct (decide (k = 0 /\ queue core <> [] /\ caller <> Some t)) as [[? _]|_]; [done|].
    unfold put_queue. eexists; split; [reflexivity|]; cbn.
    split_and!; try done.
Qed.

(** *** RemoveThread, in general *)

Lemma RemoveThread_effect (s : SchedulerState) (t : tid) (core : CoreContext) :
  cores s !! coreId (threads s t) = Some core ->
  exists s',
    RemoveThread tickSource (Some t) s = Ret tt s'
    /\ cores s' = alter (with_queue (removed t (queue core)))
                        (coreId (threads s t)) (cores s)
    /\ parkedQueue s' = parkedQueue s
    /\ same_static (threads s) (threads s')
    /\ (forall u, coreId (threads s' u) = coreId (threads s u))
    /\ isPreempted (threads s' t) = false.
Proof.
  intros Hcore.
  unfold RemoveThread, removed, bind, deref, ret, thread_obj, gets, cores_at.
  rewrite Hcore.
  unfold when, update_averageTimeslice, disarm, put_queue, update_thread, emit,
    put_YieldPending, GetTimeTicks, bind, ret, thread_obj, gets.
  destruct (decide (find t (queue core) <> length (queue core))) as [Hin|Hin].
  - rewrite bool_decide_eq_true_2 by done. cbn.
    destruct (bool_decide (find t (queue core) = 0)); cbn;
      [destruct (bool_decide (timesliceStart (threads s t) <> 0%Z)); cbn;
       destruct (erase (find t (queue core)) (queue core)) as [|front rest]; cbn|];
      rewrite ?alter_same; cbn;
      destruct (isPreempted (threads s t)) eqn:Hpre; cbn;
      (eexists; split; [reflexivity|]); cbn; split_and!; try done;
      solve_frame.
  - rewrite bool_decide_eq_false_2 by done. cbn.
    rewrite (alter_queue_same _ _ _ Hcore).
    destruct (isPreempted (threads s t)) eqn:Hpre; cbn;
      (eexists; split; [reflexivity|]); cbn; split_and!; try done;
      solve_frame.
Qed.

(** *** InsertThread then RemoveThread *)

Lemma inserted_insert_at (ths : tid -> KThread) (caller : option tid) (t : tid)
    (q : list tid) :
  exists k, k <= length q /\ inserted ths caller t q = insert_at k t q.
Proof.
  unfold inserted. case_decide as Hd.
  - exists 1. split; [|done]. destruct Hd as (_ & Hne & _).
    destruct q; [done|simpl; lia].
  - eexists. split; [apply upper_bound_le_length|done].
Qed.

Lemma removed_inserted (ths : tid -> KThread) (caller : option tid) (t : tid)
    (q : list tid) :
  t ∉ q -> removed t (inserted ths caller t q) = q.
Proof.
  intros Hnot. destruct (inserted_insert_at ths caller t q) as (k & Hk & ->).
  unfold removed. rewrite find_insert_at, length_insert_at by done.
  rewrite decide_True by lia. by apply erase_insert_at.
Qed.

(** C8: for a thread that is not in the queue of its core,
    [InsertThread(t)] (by any caller) followed by [RemoveThread()] called
    by [t] returns and leaves every core queue and the parked queue as
    they were. *)
Theorem InsertThread_RemoveThread (s : SchedulerState) (caller : option tid) (t : tid)
    (core : CoreContext) :
  cores s !! coreId (threads s t) = Some core ->
  t ∉ queue core ->
  exists s1 s2,
    InsertThread caller t s = Ret tt s1
    /\ RemoveThread tickSource (Some t) s1 = Ret tt s2
    /\ cores s2 = cores s
    /\ parkedQueue s2 = parkedQueue s.
Proof.
  intros Hcore Hnot.
  destruct (InsertThread_effect s caller t core Hcore)
    as (s1 & Hins & Hcores1 & Hparked1 & _ & _ & Hcid1).
  assert (Hcore1 : cores s1 !! coreId (threads s1 t)
                   = Some (with_queue (inserted (threads s) caller t (queue core)) core)).
  { rewrite Hcid1, Hcores1, list_lookup_alter_eq, Hcore. done. }
  destruct (RemoveThread_effect s1 t _ Hcore1)
    as (s2 & Hrem & Hcores2 & Hparked2 & _).
  exists s1, s2. split_and!; try done.
  - rewrite Hcores2, Hcid1, Hcores1. cbn.
    rewrite alter_queue_twice, removed_inserted by done.
    by apply alter_queue_same.
  - congruence.
Qed.

(** *** TimedWaitSchedule *)

(** C9: when the caller is not at the front of its core's queue as the
    wait ends, [TimedWaitSchedule] returns [false] and the scheduler is
    exactly as the other threads left it: the call wrote nothing, so the
    caller's [isPreempted], [timesliceStart] and [coreId], every queue and
    the trace (no load balancing, no timer, no tick read) are untouched. *)
Theorem TimedWaitSchedule_timeout (s : SchedulerState) (thread : tid)
    (core : CoreContext) (others : SchedulerState -> SchedulerState) :
  cores s !! coreId (threads s thread) = Some core ->
  is_front (coreId (threads s thread)) thread (others s) = false ->
  TimedWaitSchedule tickSource (Some thread) others s = Ret false (others s)
  /\ (others s = s ->
      exists s',
        TimedWaitSchedule tickSource (Some thread) others s = Ret false s'
        /\ isPreempted (threads s' thread) = isPreempted (threads s thread)
        /\ timesliceStart (threads s' thread) = timesliceStart (threads s thread)
        /\ coreId (threads s' thread) = coreId (threads s thread)
        /\ cores s' = cores s
        /\ parkedQueue s' = parkedQueue s
        /\ tickReads s' = tickReads s
        /\ trace s' = trace s).
Proof.
  intros Hcore Hfront.
  assert (Hrun : TimedWaitSchedule tickSource (Some thread) others s
                 = Ret false (others s)).
  { unfold TimedWaitSchedule, bind, deref, ret, thread_obj, gets, cores_at, wait_for.
    by rewrite Hcore, Hfront. }
  split; [exact Hrun|].
  intros Hsame. exists s. rewrite Hrun, Hsame. by split_and!.
Qed.

(** *** Rotate *)

Lemma length_splice_front (k : nat) (q : list tid) :
  length (splice_front k q) = length q.
Proof.
  unfold splice_front. destruct q as [|h q]; [done|]. destruct k as [|k]; [done|].
  rewrite length_app. simpl. rewrite length_take, length_drop. lia.
Qed.

(** The head path: the caller is the running thread of its core. *)
Lemma Rotate_head (s : SchedulerState) (t : tid) (cooperative : bool)
    (core : CoreContext) (rest : list tid) :
  cores s !! coreId (threads s t) = Some core ->
  queue core = t :: rest ->
  exists s',
    Rotate tickSource (Some t) cooperative s = Ret tt s'
    /\ cores s' = alter (with_queue
                          (splice_front
                             (upper_bound (threads s) (queue core) (priority (threads s t)))
                             (queue core)))
                        (coreId (threads s t)) (cores s)
    /\ parkedQueue s' = parkedQueue s
    /\ same_static (threads s) (threads s')
    /\ (forall u, coreId (threads s' u) = coreId (threads s u))
    /\ forceYield (threads s' t) = false
    /\ isPreempted (threads s' t) = false
    /\ averageTimeslice (threads s' t)
       = ewma (averageTimeslice (threads s t)) (u64 (tickSource (tickReads s)))
              (timesliceStart (threads s t)).
Proof.
  intros Hcore Hq.
  unfold Rotate, bind, deref, ret, thread_obj, gets, cores_at.
  rewrite Hcore, Hq. rewrite decide_True by done.
  unfold update_averageTimeslice, GetTimeTicks, update_thread, put_queue, bind,
    thread_obj, gets.
  cbn [threads set_threads set_tickReads set_cores cores].
  rewrite (upper_bound_ext (threads s)) by
    (intros u; apply same_static_alter; by intros []).
  set (k := upper_bound (threads s) (t :: rest) (priority (threads s t))).
  pose proof (length_splice_front k (t :: rest)) as Hlen.
  destruct (splice_front k (t :: rest)) as [|front' rest'] eqn:Hs; [done|].
  unfold when, disarm, emit.
  case_bool_decide; destruct (cooperative && isPreempted (threads s t)); cbn;
    (eexists; split; [reflexivity|]); cbn; split_and!; try done; solve_frame.
Qed.

(** The force-yield path: a peer moved the caller away from the front. *)
Lemma Rotate_forced (s : SchedulerState) (t : tid) (cooperative : bool)
    (core : CoreContext) (front : tid) (rest : list tid) :
  cores s !! coreId (threads s t) = Some core ->
  queue core = front :: rest ->
  front <> t ->
  forceYield (threads s t) = true ->
  found_in_band (threads s) t (queue core) = true ->
  exists s',
    Rotate tickSource (Some t) cooperative s = Ret tt s'
    /\ cores s' = cores s
    /\ parkedQueue s' = parkedQueue s
    /\ same_static (threads s) (threads s')
    /\ (forall u, coreId (threads s' u) = coreId (threads s u))
    /\ forceYield (threads s' t) = false
    /\ isPreempted (threads s' t) = false
    /\ averageTimeslice (threads s' t)
       = ewma (averageTimeslice (threads s t)) (u64 (tickSource (tickReads s)))
              (timesliceStart (threads s t)).
Proof.
  intros Hcore Hq Hne Hforce Hfound.
  unfold found_in_band in Hfound. apply bool_decide_eq_true_1 in Hfound.
  unfold Rotate, bind, deref, ret, thread_obj, gets, cores_at.
  rewrite Hcore. rewrite Hq in *. rewrite decide_False by done.
  rewrite Hforce. rewrite decide_True by done.
  unfold update_averageTimeslice, GetTimeTicks, update_thread, put_queue, bind,
    thread_obj, gets, when, disarm, emit.
  destruct (cooperative && isPreempted (threads s t)); cbn;
    (eexists; split; [reflexivity|]); cbn; split_and!; try done; solve_frame.
Qed.

(** The two failures: nothing is written before the exception. *)
Lemma Rotate_throws (s : SchedulerState) (t : tid) (cooperative : bool)
    (core : CoreContext) (front : tid) (rest : list tid) :
  cores s !! coreId (threads s t) = Some core ->
  queue core = front :: rest ->
  front <> t ->
  (forceYield (threads s t) = true /\ found_in_band (threads s) t (queue core) = false)
  \/ forceYield (threads s t) = false ->
  Rotate tickSource (Some t) cooperative s
  = Throw (if forceYield (threads s t) then RotateNotInQueueForced else RotateNotInQueue) s.
Proof.
  intros Hcore Hq Hne Hcase.
  unfold Rotate, bind, deref, ret, thread_obj, gets, cores_at.
  rewrite Hcore. rewrite Hq in *. rewrite decide_False by done.
  destruct Hcase as [[Hforce Hfound]|Hforce]; rewrite Hforce; [|done].
  unfold found_in_band in Hfound. apply bool_decide_eq_false_1 in Hfound.
  by rewrite decide_False.
Qed.

(** C6, as the code has it: a call to [Rotate] that returns, on the head
    path or on the force-yield path, leaves the caller's [forceYield]
    clear; a call that fails with the invalid-state exception has written
    nothing, so [forceYield] keeps its value, which is set after the
    failure "after being forcefully yielded" and clear after the other. *)
Theorem Rotate_forceYield (s : SchedulerState) (t : tid) (cooperative : bool)
    (core : CoreContext) (front : tid) (rest : list tid) :
  cores s !! coreId (threads s t) = Some core ->
  queue core = front :: rest ->
  (front = t \/ (forceYield (threads s t) = true
                 /\ found_in_band (threads s) t (queue core) = true) ->
   exists s', Rotate tickSource (Some t) cooperative s = Ret tt s'
              /\ forceYield (threads s' t) = false)
  /\ (front <> t -> forceYield (threads s t) = true ->
      found_in_band (threads s) t (queue core) = false ->
      Rotate tickSource (Some t) cooperative s = Throw RotateNotInQueueForced s)
  /\ (front <> t -> forceYield (threads s t) = false ->
      Rotate tickSource (Some t) cooperative s = Throw RotateNotInQueue s).
Proof.
  intros Hcore Hq. split_and!.
  - intros Hpath. destruct (decide (front = t)) as [->|Hne].
    + destruct (Rotate_head s t cooperative core rest Hcore Hq)
        as (s' & Hrun & _ & _ & _ & _ & Hfy & _).
      by exists s'.
    + destruct Hpath as [?|[Hforce Hfound]]; [done|].
      destruct (Rotate_forced s t cooperative core front rest Hcore Hq Hne Hforce Hfound)
        as (s' & Hrun & _ & _ & _ & _ & Hfy & _).
      by exists s'.
  - intros Hne Hforce Hfound.
    rewrite (Rotate_throws s t cooperative core front rest Hcore Hq Hne)
      by (left; done).
    by rewrite Hforce.
  - intros Hne Hforce.
    rewrite (Rotate_throws s t cooperative core front rest Hcore Hq Hne)
      by (right; done).
    by rewrite Hforce.
Qed.

(** *** UpdatePriority on the running thread *)

(** The early return on [currentIt == core->queue.begin()] makes the call
    a no-operation for the thread at the front, whatever follows it. *)
Lemma UpdatePriority_head_noop (s : SchedulerState) (t : tid) (core : CoreContext)
    (rest : list tid) :
  cores s !! coreId (threads s t) = Some core ->
  queue core = t :: rest ->
  UpdatePriority t s = Ret tt s.
Proof.
  intros Hcore Hq.
  unfold UpdatePriority, bind, ret, thread_obj, gets, cores_at.
  rewrite Hcore, Hq.
  assert (find t (t :: rest) = 0) as ->.
  { unfold find, find_from. simpl. by rewrite decide_True. }
  rewrite decide_True by (by right). done.
Qed.

(** *** WakeParkedThread *)

(** With at most one thread in the caller's queue, [nextThread] is null
    when [nextThread->priority] is evaluated. *)
Lemma WakeParkedThread_short_queue (s : SchedulerState) (t : tid) (core : CoreContext)
    (parkedThread : tid) (pq : list tid) :
  parkedQueue s = parkedThread :: pq ->
  cores s !! coreId (threads s t) = Some core ->
  length (queue core) <= 1 ->
  WakeParkedThread (Some t) s = Undef NullDeref.
Proof.
  intros Hpq Hcore Hlen.
  unfold WakeParkedThread, bind, deref, ret, thread_obj, gets, cores_at.
  rewrite Hpq, Hcore. rewrite decide_False by lia. done.
Qed.

(** With a next thread in the caller's queue the parked head is woken as
    the comment in the source describes. *)
Lemma WakeParkedThread_wakes (s : SchedulerState) (t : tid) (core : CoreContext)
    (parkedThread : tid) (pq : list tid) (front nx : tid) (rest : list tid) :
  parkedQueue s = parkedThread :: pq ->
  cores s !! coreId (threads s t) = Some core ->
  queue core = front :: nx :: rest ->
  (priority (threads s parkedThread) < priority (threads s t))%Z
  \/ (priority (threads s parkedThread) = priority (threads s t)
      /\ (priority (threads s nx) <> priority (threads s t)
          \/ (timesliceStart (threads s parkedThread) < timesliceStart (threads s nx))%Z)) ->
  exists s',
    WakeParkedThread (Some t) s = Ret tt s'
    /\ coreId (threads s' parkedThread) = coreId (threads s t)
    /\ trace s' = trace s ++ [notify_one t].
Proof.
  intros Hpq Hcore Hq Hcond.
  unfold WakeParkedThread, bind, deref, ret, thread_obj, gets, cores_at.
  rewrite Hpq, Hcore, Hq. cbn.
  destruct (decide (1 < S (S (length rest)))) as [_|?]; [|lia]. cbn.
  assert (Hwhen :
    bool_decide (priority (threads s parkedThread) < priority (threads s t))%Z
    || bool_decide (priority (threads s parkedThread) = priority (threads s t))
       && match (if decide (priority (threads s nx) = priority (threads s t))
                 then Some nx else None) with
          | Some n => bool_decide (timesliceStart (threads s parkedThread)
                                   < timesliceStart (threads s n))%Z
          | None => true
          end = true).
  { destruct Hcond as [Hlt|[Heq Hnext]].
    - by rewrite bool_decide_eq_true_2.
    - rewrite (bool_decide_eq_true_2 _ Heq). rewrite andb_true_l.
      apply orb_true_iff. right.
      case_decide; [|done]. destruct Hnext as [?|Hlt]; [done|].
      by rewrite bool_decide_eq_true_2. }
  rewrite Hwhen. cbn. eexists. split; [reflexivity|]. cbn.
  by rewrite alter_same.
Qed.

(** *** ParkThread *)

Lemma park_candidate_ext (ths ths' : tid -> KThread) (t : tid) (orig : nat)
    (c : CoreContext) :
  same_static ths ths' ->
  park_candidate ths' t orig c = park_candidate ths t orig c.
Proof.
  intros Hst. unfold park_candidate.
  destruct (Hst t) as [-> ->].
  destruct (queue c) as [|front rest]; [done|].
  by destruct (Hst front) as [-> _].
Qed.

Lemma last_candidate_ext (ths ths' : tid -> KThread) (t : tid) (orig : nat)
    (cs : list CoreContext) (init : nat) :
  same_static ths ths' ->
  last_candidate ths' t orig cs init = last_candidate ths t orig cs init.
Proof.
  intros Hst. revert init. induction cs as [|c cs IH]; intros init; [done|].
  cbn. by rewrite (park_candidate_ext ths ths'), IH.
Qed.

Lemma last_candidate_none (ths : tid -> KThread) (t : tid) (orig : nat)
    (cs : list CoreContext) (init : nat) :
  (forall j c, cs !! j = Some c -> park_candidate ths t orig c = false) ->
  last_candidate ths t orig cs init = init.
Proof.
  revert init. induction cs as [|c cs IH]; intros init Hnone; simpl; [done|].
  rewrite (Hnone 0 c) by done.
  apply IH. intros j c' Hj. by apply (Hnone (S j)).
Qed.

Lemma last_candidate_at (ths : tid -> KThread) (t : tid) (orig : nat)
    (cs : list CoreContext) (init i : nat) (cand : CoreContext) :
  cs !! i = Some cand ->
  park_candidate ths t orig cand = true ->
  (forall j c, i < j -> cs !! j = Some c -> park_candidate ths t orig c = false) ->
  last_candidate ths t orig cs init = id cand.
Proof.
  revert init i. induction cs as [|c cs IH]; intros init i Hi Hcand Hlater; [done|].
  destruct i as [|i]; simpl in *.
  - injection Hi as ->. rewrite Hcand.
    apply last_candidate_none. intros j c' Hj.
    apply (Hlater (S j)); [lia|done].
  - apply (IH _ i); [done|done|].
    intros j c' Hlt Hj. apply (Hlater (S j)); [lia|done].
Qed.

Lemma scan_cores_effect (cs : list CoreContext) (s : SchedulerState) (t : tid)
    (orig : nat) :
  exists s',
    scan_cores t orig cs s = Ret tt s'
    /\ cores s' = cores s
    /\ parkedQueue s' = parkedQueue s
    /\ same_static (threads s) (threads s')
    /\ (forall u, u <> t -> coreId (threads s' u) = coreId (threads s u))
    /\ coreId (threads s' t)
       = last_candidate (threads s) t orig cs (coreId (threads s t)).
Proof.
  revert s. induction cs as [|c cs IH]; intros s.
  - exists s. by split_and!; [done..|apply same_static_refl|done|done].
  - cbn [scan_cores last_candidate]. unfold bind, gets, when, update_thread, ret.
    destruct (park_candidate (threads s) t orig c) eqn:Hc.
    + destruct (IH (set_threads (alter (with_coreId (id c)) t (threads s)) s))
        as (s' & Hrun & Hcores & Hparked & Hst & Hother & Hself).
      exists s'. cbn in *. split_and!; try done.
      * eapply same_static_trans; [|exact Hst]. apply same_static_alter. by intros [].
      * intros u Hu. rewrite Hother by done. by rewrite alter_other.
      * rewrite Hself, alter_same. cbn.
        apply last_candidate_ext, same_static_alter. by intros [].
    + destruct (IH s) as (s' & Hrun & Hrest). by exists s'.
Qed.

Lemma park_candidate_front (ths : tid -> KThread) (t : tid) (orig : nat)
    (c : CoreContext) :
  park_candidate ths t orig c = true ->
  orig <> id c /\ upper_bound ths (queue c) (priority (ths t)) = 0.
Proof.
  unfold park_candidate. intros H.
  apply andb_true_iff in H as [H Hfront]. apply andb_true_iff in H as [Horig _].
  apply bool_decide_eq_true_1 in Horig. split; [done|].
  destruct (queue c) as [|front rest]; [done|].
  apply bool_decide_eq_true_1 in Hfront.
  unfold upper_bound, IsHigherPriority. rewrite bool_decide_eq_true_2; [done|lia].
Qed.

(** C4, as the code has it: when some core other than the caller's
    original one passes the test of the loop (admitted by the affinity
    mask, and empty or with a running thread of strictly lower priority),
    the last such core in core order becomes the caller's [coreId] and the
    caller is inserted there, at the front, without entering the parked
    queue.  The queue of that core is sorted, as [std::upper_bound]
    requires of it. *)
Theorem ParkThread_last_candidate (s : SchedulerState) (t : tid) (core0 : CoreContext)
    (i : nat) (cand : CoreContext) :
  cores_wf s ->
  length (cores s) <= ParkedCoreId ->
  cores s !! coreId (threads s t) = Some core0 ->
  cores s !! i = Some cand ->
  queue_sorted (threads s) (queue cand) ->
  park_candidate (threads s) t (coreId (threads s t)) cand = true ->
  (forall j c, i < j -> cores s !! j = Some c ->
               park_candidate (threads s) t (coreId (threads s t)) c = false) ->
  exists s',
    ParkThread tickSource ParkedCoreId (Some t) s = Ret tt s'
    /\ coreId (threads s' t) = i
    /\ parkedQueue s' = parkedQueue s
    /\ exists c', cores s' !! i = Some c' /\ queue c' = t :: queue cand.
Proof.
  intros Hwf Hparked Hcore0 Hi _ Hcand Hlater.
  pose proof (Hwf _ _ Hi) as Hid.
  destruct (park_candidate_front _ _ _ _ Hcand) as [Hne Hub].
  rewrite Hid in Hne.
  destruct (RemoveThread_effect s t core0 Hcore0)
    as (s1 & Hrem & Hcores1 & Hparked1 & Hst1 & Hcid1 & _).
  unfold ParkThread, bind, deref, ret. rewrite Hrem.
  unfold thread_obj, gets, update_thread. cbn [cores set_threads].
  rewrite Hcid1.
  set (s2 := set_threads (alter (with_coreId ParkedCoreId) t (threads s1)) s1).
  destruct (scan_cores_effect (cores s1) s2 t (coreId (threads s t)))
    as (s3 & Hscan & Hcores3 & Hparked3 & Hst3 & _ & Hself3).
  rewrite Hscan.
  assert (Hst2 : same_static (threads s) (threads s2)).
  { eapply same_static_trans; [exact Hst1|]. apply same_static_alter. by intros []. }
  assert (Hcid3 : coreId (threads s3 t) = i).
  { rewrite Hself3, <- Hid.
    rewrite (last_candidate_ext (threads s)) by done.
    apply (last_candidate_at _ _ _ _ _ i); [|done|].
    - rewrite Hcores1, list_lookup_alter_ne by done. done.
    - intros j c Hlt Hj. rewrite Hcores1 in Hj.
      destruct (decide (coreId (threads s t) = j)) as [<-|Hjne].
      + rewrite list_lookup_alter_eq, Hcore0 in Hj. injection Hj as <-.
        unfold park_candidate. cbn [id with_queue].
        rewrite (Hwf _ _ Hcore0). by rewrite bool_decide_eq_false_2 by (intros H; by apply H).
      + rewrite list_lookup_alter_ne in Hj by done. by apply (Hlater j). }
  rewrite Hcid3.
  apply lookup_lt_Some in Hi as Hlt.
  rewrite bool_decide_eq_false_2 by lia.
  unfold when, ret.
  assert (Hcore3 : cores s3 !! coreId (threads s3 t) = Some cand).
  { rewrite Hcid3, Hcores3. unfold s2. cbn [cores set_threads].
    rewrite Hcores1, list_lookup_alter_ne by done. done. }
  destruct (InsertThread_effect s3 (Some t) t cand Hcore3)
    as (s4 & Hins & Hcores4 & Hparked4 & _ & _ & Hcid4).
  exists s4. split_and!.
  - exact Hins.
  - by rewrite Hcid4.
  - rewrite Hparked4, Hparked3. unfold s2. cbn [parkedQueue set_threads]. done.
  - exists (with_queue (t :: queue cand) cand). split; [|done].
    rewrite Hcores4, Hcid3, list_lookup_alter_eq.
    rewrite Hcid3 in Hcore3. rewrite Hcore3. cbn. f_equal. f_equal.
    unfold inserted.
    rewrite decide_False by (intros (_ & _ & H); by apply H).
    rewrite (upper_bound_ext (threads s)).
    + destruct (same_static_trans _ _ _ Hst2 Hst3 t) as [-> _]. by rewrite Hub.
    + intros u. apply (same_static_trans _ _ _ Hst2 Hst3).
Qed.

(** *** LoadBalance: the candidate loop *)

Lemma ticks_only_refl (s : SchedulerState) : ticks_only s s.
Proof. exists (tickReads s). by destruct s. Qed.

Lemma ticks_only_trans (a b c : SchedulerState) :
  ticks_only a b -> ticks_only b c -> ticks_only a c.
Proof. intros [n ->] [m ->]. by exists m. Qed.

Lemma ticks_only_threads (s s' : SchedulerState) :
  ticks_only s s' -> threads s' = threads s.
Proof. by intros [n ->]. Qed.

Lemma running_share_returns (s : SchedulerState) (t : tid) :
  exists w s', running_share tickSource t s = Ret w s' /\ ticks_only s s'.
Proof.
  unfold running_share, bind, thread_obj, gets, GetTimeTicks, ret.
  repeat case_decide; eexists _, _; (split; [reflexivity|]);
    first [by eexists | apply ticks_only_refl].
Qed.

Lemma projected_wait_returns (s : SchedulerState) (t : tid) (c : CoreContext) :
  exists w s', projected_wait tickSource t c s = Ret w s' /\ ticks_only s s'.
Proof.
  unfold projected_wait. destruct (queue c) as [|running residents].
  - exists 0%Z, s. split; [done|apply ticks_only_refl].
  - unfold bind. destruct (running_share_returns s running) as (w & s' & -> & Hticks).
    eexists _, s'. by split.
Qed.

Lemma projected_waits_returns (cs : list CoreContext) (s : SchedulerState) (t : tid) :
  exists ws s',
    projected_waits tickSource t cs s = Ret ws s'
    /\ ticks_only s s'
    /\ length ws = length cs
    /\ forall j c, cs !! j = Some c ->
         (mask_test (affinityMask (threads s t)) (id c) = true
          <-> exists w, ws !! j = Some (Some w)).
Proof.
  revert s. induction cs as [|c cs IH]; intros s.
  - exists [], s. split_and!; [done|apply ticks_only_refl|done|done].
  - cbn [projected_waits]. unfold bind at 1. unfold thread_obj, gets.
    destruct (mask_test (affinityMask (threads s t)) (id c)) eqn:Hmask.
    + unfold bind at 1.
      destruct (projected_wait_returns s t c) as (w & s1 & -> & Hticks1).
      unfold bind at 1.
      destruct (IH s1) as (ws & s' & -> & Hticks & Hlen & Hlookup).
      exists (Some w :: ws), s'. split_and!; [done| |by simpl; rewrite Hlen|].
      * by eapply ticks_only_trans.
      * intros [|j] c' Hj; simpl in *.
        -- injection Hj as <-. split; [by eexists|done].
        -- rewrite <- (ticks_only_threads _ _ Hticks1). by apply Hlookup.
    + unfold bind at 1.
      destruct (IH s) as (ws & s' & -> & Hticks & Hlen & Hlookup).
      exists (None :: ws), s'. split_and!; [done|done|by simpl; rewrite Hlen|].
      intros [|j] c' Hj; simpl in *.
      * injection Hj as <-. rewrite Hmask. split; [done|]. by intros [w ?].
      * by apply Hlookup.
Qed.

Lemma selected_skip (cur : nat) (ws : list (option Z)) (opt : option nat) (min : Z) :
  selected cur ws opt min -> selected cur (ws ++ [None]) opt min.
Proof.
  unfold selected. destruct opt as [o|].
  - intros (Ho & Hmin & Htie). split_and!.
    + by apply lookup_app_l_Some.
    + intros j w Hj. apply lookup_snoc_Some in Hj as [[_ Hj]|[_ ?]]; [|done].
      by apply (Hmin j).
    + intros Hc. apply lookup_snoc_Some in Hc as [[_ Hc]|[_ ?]]; [|done].
      by apply Htie.
  - intros Hnone j w Hj. apply lookup_snoc_Some in Hj as [[_ Hj]|[_ ?]]; [|done].
    by apply (Hnone j w).
Qed.

Lemma selected_take (cur : nat) (ws : list (option Z)) (opt : option nat) (min w : Z) :
  selected cur ws opt min ->
  opt = None \/ (w < min)%Z \/ (w = min /\ length ws = cur) ->
  selected cur (ws ++ [Some w]) (Some (length ws)) w.
Proof.
  intros Hsel Htake. unfold selected. split_and!.
  - by apply list_lookup_middle.
  - intros j w' Hj. apply lookup_snoc_Some in Hj as [[_ Hj]|[_ Heq]].
    + destruct opt as [o|]; [|by destruct (Hsel j w')].
      destruct Hsel as (_ & Hmin & _). specialize (Hmin j w' Hj).
      destruct Htake as [?|[?|[? _]]]; [done|lia|lia].
    + injection Heq as ->. lia.
  - intros Hc. apply lookup_snoc_Some in Hc as [[_ Hc]|[? _]]; [|done].
    destruct opt as [o|]; [|by destruct (Hsel cur w)].
    destruct Hsel as (_ & Hmin & _). specialize (Hmin cur w Hc).
    destruct Htake as [?|[?|[_ ?]]]; [done|lia|done].
Qed.

Lemma selected_keep (cur : nat) (ws : list (option Z)) (opt : option nat) (min w : Z) :
  selected cur ws opt min ->
  ~ (opt = None \/ (w < min)%Z \/ (w = min /\ length ws = cur)) ->
  selected cur (ws ++ [Some w]) opt min.
Proof.
  intros Hsel Hkeep. unfold selected in *. destruct opt as [o|]; [|by destruct Hkeep; left].
  destruct Hsel as (Ho & Hmin & Htie). split_and!.
  - by apply lookup_app_l_Some.
  - intros j w' Hj. apply lookup_snoc_Some in Hj as [[_ Hj]|[_ Heq]].
    + by apply (Hmin j).
    + injection Heq as <-.
      destruct (decide (w < min)%Z); [|lia]. destruct Hkeep. by right; left.
  - intros Hc. apply lookup_snoc_Some in Hc as [[_ Hc]|[Hlen Heq]].
    + by apply Htie.
    + injection Heq as Heq. destruct Hkeep. by right; right.
Qed.

(** The loop computes the waits of [projected_waits] and selects among
    them. *)
Lemma select_core_selected (t : tid) (cur : nat) (cs : list CoreContext)
    (s : SchedulerState) (pre : list (option Z)) (opt : option nat) (min : Z) :
  selected cur pre opt min ->
  exists ws s' opt' min',
    projected_waits tickSource t cs s = Ret ws s'
    /\ select_core tickSource t cur cs (length pre) opt min s = Ret opt' s'
    /\ selected cur (pre ++ ws) opt' min'.
Proof.
  revert s pre opt min. induction cs as [|c cs IH]; intros s pre opt min Hsel.
  - exists [], s, opt, min. by rewrite app_nil_r.
  - cbn [projected_waits select_core]. unfold bind, thread_obj, gets, ret.
    destruct (mask_test (affinityMask (threads s t)) (id c)).
    + destruct (projected_wait_returns s t c) as (w & s1 & -> & _).
      destruct (decide (opt = None \/ (w < min)%Z \/ w = min /\ length pre = cur))
        as [Htake|Hkeep].
      * destruct (IH s1 (pre ++ [Some w]) (Some (length pre)) w)
          as (ws & s' & opt' & min' & Hws & Hsel' & Hfinal);
          [by eapply selected_take|].
        rewrite length_app, Nat.add_1_r in Hsel'. rewrite Hws.
        exists (Some w :: ws), s', opt', min'. split_and!; [done|done|].
        by rewrite cons_middle, app_assoc.
      * destruct (IH s1 (pre ++ [Some w]) opt min)
          as (ws & s' & opt' & min' & Hws & Hsel' & Hfinal);
          [by eapply selected_keep|].
        rewrite length_app, Nat.add_1_r in Hsel'. rewrite Hws.
        exists (Some w :: ws), s', opt', min'. split_and!; [done|done|].
        by rewrite cons_middle, app_assoc.
    + destruct (IH s (pre ++ [None]) opt min)
        as (ws & s' & opt' & min' & Hws & Hsel' & Hfinal);
        [by apply selected_skip|].
      rewrite length_app, Nat.add_1_r in Hsel'. rewrite Hws.
      exists (None :: ws), s', opt', min'. split_and!; [done|done|].
      by rewrite cons_middle, app_assoc.
Qed.

(** *** LoadBalance *)

Lemma popcount_pos (p : positive) : 0 < popcount p.
Proof. induction p; simpl; lia. Qed.

(** A mask of a [bitset<n>] with a bit set admits a core below [n]. *)
Lemma mask_count_admits (m : Z) (n : nat) :
  0 < mask_count m ->
  (m < 2 ^ Z.of_nat n)%Z ->
  exists i, i < n /\ mask_test m i = true.
Proof.
  intros Hcount Hbound.
  assert (0 < m)%Z as Hpos by (destruct m; simpl in Hcount; lia).
  exists (Z.to_nat (Z.log2 m)).
  pose proof (Z.log2_nonneg m) as Hnn.
  apply Z.log2_lt_pow2 in Hbound; [|done].
  split; [lia|].
  unfold mask_test. rewrite Z2Nat.id by done. by apply Z.bit_log2.
Qed.

(** What [LoadBalance] does once the loop has chosen the core [o]. *)
Lemma LoadBalance_runs (s s1 : SchedulerState) (caller : option tid) (thread : tid)
    (alwaysInsert : bool) (cc oc : CoreContext) (o : nat) :
  cores_wf s ->
  cores s !! coreId (threads s thread) = Some cc ->
  queue cc <> [] ->
  mask_count (affinityMask (threads s thread)) <> 1 ->
  select_core tickSource thread (coreId (threads s thread)) (cores s) 0 None 0 s
  = Ret (Some o) s1 ->
  ticks_only s s1 ->
  cores s !! o = Some oc ->
  (o = coreId (threads s thread) ->
   exists sf,
     LoadBalance tickSource caller thread alwaysInsert s = Ret o sf
     /\ coreId (threads sf thread) = o
     /\ (alwaysInsert = false -> cores sf = cores s)
     /\ parkedQueue sf = parkedQueue s)
  /\ (o <> coreId (threads s thread) ->
      (alwaysInsert = false /\ caller <> Some thread
       /\ LoadBalance tickSource caller thread alwaysInsert s = Throw ExternalMigration s1)
      \/ (exists sf,
            LoadBalance tickSource caller thread alwaysInsert s = Ret o sf
            /\ coreId (threads sf thread) = o)).
Proof.
  intros Hwf Hcc Hq Hcount Hsel [n ->] Hoc.
  unfold LoadBalance, bind, thread_obj, gets, cores_at.
  rewrite Hcc.
  rewrite (bool_decide_eq_true_2 _ Hq), (bool_decide_eq_true_2 _ Hcount).
  cbn [andb]. rewrite Hsel.
  set (s1 := set_tickReads n s).
  assert (Hcc1 : cores s1 !! coreId (threads s1 thread) = Some cc) by done.
  split.
  - intros ->. rewrite decide_False by (intros H; by apply H).
    destruct alwaysInsert; unfold when.
    + destruct (InsertThread_effect s1 caller thread cc Hcc1)
        as (s2 & -> & _ & Hparked & _ & _ & Hcid).
      unfold emit, ret. eexists. split; [reflexivity|]. cbn.
      split_and!; [by rewrite Hcid|done|by rewrite Hparked].
    + unfold emit, ret. eexists. split; [reflexivity|]. by cbn.
  - intros Hne. rewrite decide_True by congruence.
    pose proof (Hwf _ _ Hoc) as Hid.
    assert (Hmove : forall s2 : SchedulerState,
              cores s2 !! o = Some oc ->
              exists sf,
                (c <- cores_at o ;
                 update_thread thread (with_coreId (id c)) ;;
                 InsertThread caller thread ;;
                 emit (LogMigrate thread (id cc) (id c)) ;;
                 ret o) s2 = Ret o sf
                /\ coreId (threads sf thread) = o).
    { intros s2 Ho2. unfold bind at 1. unfold cores_at. rewrite Ho2.
      unfold bind at 1. unfold update_thread.
      set (s3 := set_threads _ s2).
      assert (Hcore3 : cores s3 !! coreId (threads s3 thread) = Some oc).
      { unfold s3. cbn. rewrite alter_same. cbn. by rewrite Hid. }
      unfold bind at 1.
      destruct (InsertThread_effect s3 caller thread oc Hcore3)
        as (s4 & -> & _ & _ & _ & _ & Hcid4).
      unfold bind, emit, ret. eexists. split; [reflexivity|]. cbn.
      rewrite Hcid4. unfold s3. cbn. rewrite alter_same. by cbn. }
    destruct alwaysInsert; cbn [negb andb].
    + right. by apply (Hmove s1).
    + destruct (decide (Some thread = caller)) as [<-|Hext].
      * right. rewrite bool_decide_eq_true_2 by done.
        destruct (RemoveThread_effect s1 thread cc Hcc1)
          as (s2 & -> & Hcores2 & _ & _ & Hcid2 & _).
        apply (Hmove s2).
        by rewrite Hcores2, list_lookup_alter_ne.
      * left. rewrite bool_decide_eq_false_2 by done.
        rewrite bool_decide_eq_true_2 by done. by split_and!.
Qed.

(** C7: for a multi-affine thread whose current core has a non-empty
    queue, the loop of [LoadBalance] computes a projected wait for exactly
    the cores the affinity mask admits and chooses a core [o] whose wait is
    the least of them; [LoadBalance] returns that core with the thread's
    [coreId] set to it, unless it refuses to migrate a thread other than the
    caller without [alwaysInsert].  Whenever the current core has the least
    wait, ties included, [o] is the current core: [LoadBalance] returns it,
    [coreId] is unchanged and, without [alwaysInsert], so is every queue. *)
Theorem LoadBalance_minimal_projection (s : SchedulerState) (caller : option tid)
    (thread : tid) (alwaysInsert : bool) (cc : CoreContext) :
  cores_wf s ->
  cores s !! coreId (threads s thread) = Some cc ->
  queue cc <> [] ->
  1 < mask_count (affinityMask (threads s thread)) ->
  (affinityMask (threads s thread) < 2 ^ Z.of_nat (length (cores s)))%Z ->
  exists ws s1 o w,
    projected_waits tickSource thread (cores s) s = Ret ws s1
    /\ select_core tickSource thread (coreId (threads s thread)) (cores s) 0 None 0 s
       = Ret (Some o) s1
    /\ (forall j c, cores s !! j = Some c ->
          (mask_test (affinityMask (threads s thread)) (id c) = true
           <-> exists w', ws !! j = Some (Some w')))
    /\ ws !! o = Some (Some w)
    /\ (forall j w', ws !! j = Some (Some w') -> (w <= w')%Z)
    /\ match LoadBalance tickSource caller thread alwaysInsert s with
       | Ret r sf => r = o /\ coreId (threads sf thread) = o
       | Throw e _ =>
           e = ExternalMigration /\ alwaysInsert = false /\ caller <> Some thread
           /\ o <> coreId (threads s thread)
       | Undef _ | Wait _ => False
       end
    /\ (forall wc,
          ws !! coreId (threads s thread) = Some (Some wc) ->
          (forall j w', ws !! j = Some (Some w') -> (wc <= w')%Z) ->
          o = coreId (threads s thread)
          /\ exists sf,
               LoadBalance tickSource caller thread alwaysInsert s
               = Ret (coreId (threads s thread)) sf
               /\ coreId (threads sf thread) = coreId (threads s thread)
               /\ (alwaysInsert = false -> cores sf = cores s)
               /\ parkedQueue sf = parkedQueue s).
Proof.
  intros Hwf Hcc Hq Hcount Hbound.
  destruct (projected_waits_returns (cores s) s thread)
    as (ws & s1 & Hws & Hticks & Hlen & Hadm).
  destruct (select_core_selected thread (coreId (threads s thread)) (cores s) s [] None 0)
    as (ws' & s1' & opt & min & Hws' & Hsel & Hfinal).
  { intros j w. by rewrite lookup_nil. }
  rewrite Hws in Hws'. injection Hws' as <- <-. cbn in Hsel, Hfinal.
  assert (0 < mask_count (affinityMask (threads s thread))) as Hsome by lia.
  assert (mask_count (affinityMask (threads s thread)) <> 1) as Hmulti by lia.
  destruct (mask_count_admits _ _ Hsome Hbound) as (i & Hi & Hmask).
  destruct (lookup_lt_is_Some_2 (cores s) i Hi) as [ci Hci].
  assert (exists wi, ws !! i = Some (Some wi)) as [wi Hwi].
  { apply (Hadm i ci Hci). by rewrite (Hwf _ _ Hci). }
  destruct opt as [o|]; [|by destruct (Hfinal i wi)].
  destruct Hfinal as (Ho & Hmin & Htie).
  assert (is_Some (cores s !! o)) as [oc Hoc].
  { apply lookup_lt_is_Some. rewrite <- Hlen. by apply lookup_lt_Some in Ho. }
  destruct (LoadBalance_runs s s1 caller thread alwaysInsert cc oc o
              Hwf Hcc Hq Hmulti Hsel Hticks Hoc) as [Hstay Hmove].
  exists ws, s1, o, min. split_and!; try done.
  - destruct (decide (o = coreId (threads s thread))) as [Heq|Hne].
    + destruct (Hstay Heq) as (sf & -> & Hcid & _). done.
    + destruct (Hmove Hne) as [(Hai & Hext & ->)|(sf & -> & Hcid)]; done.
  - intros wc Hc Hleast.
    assert (o = coreId (threads s thread)) as Heq.
    { apply Htie. rewrite Hc. do 2 f_equal.
      pose proof (Hmin _ _ Hc). pose proof (Hleast _ _ Ho). lia. }
    split; [done|].
    destruct (Hstay Heq) as (sf & Hrun & Hcid & Hcores & Hparked).
    exists sf. rewrite <- Heq. by split_and!.
Qed.

(** *** Ordered queues *)

Lemma upper_bound_cons (ths : tid -> KThread) (x : tid) (q : list tid) (p : Z) :
  upper_bound ths (x :: q) p
  = if IsHigherPriority ths p x then 0 else S (upper_bound ths q p).
Proof. reflexivity. Qed.

Lemma queue_sorted_ext (ths ths' : tid -> KThread) (q : list tid) :
  same_static ths ths' -> queue_sorted ths q -> queue_sorted ths' q.
Proof.
  intros Hst. unfold queue_sorted. induction 1 as [|x q Hq IH Hx]; constructor; [done|].
  eapply Forall_impl; [exact Hx|]. intros u. unfold prio_le.
  destruct (Hst x) as [-> _]. by destruct (Hst u) as [-> _].
Qed.

Lemma queue_sorted_tail (ths : tid -> KThread) (q : list tid) :
  queue_sorted ths q -> queue_sorted ths (tail q).
Proof.
  intros H. destruct q as [|x q]; [constructor|].
  apply StronglySorted_cons in H. by destruct H.
Qed.

Lemma queue_sorted_take_drop (ths : tid -> KThread) (q : list tid) (k : nat) :
  queue_sorted ths q ->
  queue_sorted ths (take k q) /\ queue_sorted ths (drop k q)
  /\ forall a b, a ∈ take k q -> b ∈ drop k q -> prio_le ths a b.
Proof.
  intros H. rewrite <- (take_drop k q) in H.
  apply StronglySorted_app in H as (Hab & Ht & Hd). done.
Qed.

Lemma queue_sorted_erase (ths : tid -> KThread) (q : list tid) (k : nat) :
  queue_sorted ths q -> queue_sorted ths (erase k q).
Proof.
  intros H. unfold erase. rewrite delete_take_drop.
  destruct (queue_sorted_take_drop ths q k H) as (Ht & Hd & Hab).
  apply StronglySorted_app_2; [|done|].
  - intros a b Ha Hb. apply Hab; [done|].
    rewrite <- (take_drop 1 (drop k q)), drop_drop, Nat.add_1_r.
    apply elem_of_app. by right.
  - destruct (queue_sorted_take_drop ths (drop k q) 1 Hd) as (_ & Hd1 & _).
    by rewrite drop_drop, Nat.add_1_r in Hd1.
Qed.

(** In front of the upper bound nothing compares above [p]. *)
Lemma upper_bound_take (ths : tid -> KThread) (q : list tid) (p : Z) :
  forall u, u ∈ take (upper_bound ths q p) q -> (priority (ths u) <= p)%Z.
Proof.
  induction q as [|x q IH]; intros u; [by rewrite take_nil, elem_of_nil|].
  rewrite upper_bound_cons.
  unfold IsHigherPriority. case_bool_decide as Hx; simpl; [by rewrite elem_of_nil|].
  rewrite elem_of_cons. intros [->|Hu]; [lia|by apply IH].
Qed.

(** In a sorted queue everything from the upper bound on compares above
    [p]. *)
Lemma upper_bound_drop (ths : tid -> KThread) (q : list tid) (p : Z) :
  queue_sorted ths q ->
  forall u, u ∈ drop (upper_bound ths q p) q -> (p < priority (ths u))%Z.
Proof.
  induction q as [|x q IH]; intros Hs u; [by rewrite drop_nil, elem_of_nil|].
  apply StronglySorted_cons in Hs as [Hx Hq]. rewrite upper_bound_cons.
  unfold IsHigherPriority. case_bool_decide as Hp; simpl.
  - rewrite elem_of_cons. intros [->|Hu]; [done|].
    rewrite Forall_forall in Hx. specialize (Hx u Hu). unfold prio_le in Hx. lia.
  - by apply IH.
Qed.

(** Inserting at the upper bound of its priority keeps a queue sorted. *)
Lemma queue_sorted_insert_at (ths : tid -> KThread) (q : list tid) (t : tid) :
  queue_sorted ths q ->
  queue_sorted ths (insert_at (upper_bound ths q (priority (ths t))) t q).
Proof.
  intros Hs. unfold insert_at.
  destruct (queue_sorted_take_drop ths q (upper_bound ths q (priority (ths t))) Hs)
    as (Ht & Hd & Hab).
  apply StronglySorted_app_2; [|done|].
  - intros a b Ha. rewrite elem_of_cons. intros [->|Hb]; [|by apply Hab].
    by apply upper_bound_take in Ha.
  - apply StronglySorted_cons. split; [|done].
    apply Forall_forall. intros u Hu.
    apply (upper_bound_drop ths q _ Hs) in Hu. unfold prio_le. lia.
Qed.

(** *** The order of the queues under the operations *)

Lemma wp_bind {A B} (m : M A) (k : A -> M B) (s : SchedulerState)
    (Q : B -> SchedulerState -> Prop) (E : SchedulerState -> Prop) :
  wp m s (fun a s1 => wp (k a) s1 Q E) E -> wp (bind m k) s Q E.
Proof. unfold wp, bind. by destruct (m s). Qed.

Lemma wp_mono {A} (m : M A) (s : SchedulerState)
    (Q Q' : A -> SchedulerState -> Prop) (E E' : SchedulerState -> Prop) :
  wp m s Q E ->
  (forall a s', Q a s' -> Q' a s') -> (forall s', E s' -> E' s') ->
  wp m s Q' E'.
Proof. unfold wp. destruct (m s); auto. Qed.

Lemma wp_when (b : bool) (m : M unit) (s : SchedulerState)
    (Q : unit -> SchedulerState -> Prop) (E : SchedulerState -> Prop) :
  (b = true -> wp m s Q E) -> (b = false -> Q tt s) -> wp (when b m) s Q E.
Proof.
  intros Ht Hf. destruct b; simpl.
  - by apply Ht.
  - by apply Hf.
Qed.

Lemma queues_sorted_frame (s s' : SchedulerState) :
  queues_sorted s -> cores s' = cores s -> same_static (threads s) (threads s') ->
  queues_sorted s'.
Proof.
  intros Hs Hcores Hst i c Hc. rewrite Hcores in Hc.
  eapply queue_sorted_ext; [exact Hst|]. by apply (Hs i).
Qed.

Lemma queues_sorted_alter (s s' : SchedulerState) (i : nat) (q : list tid) :
  queues_sorted s ->
  cores s' = alter (with_queue q) i (cores s) ->
  same_static (threads s) (threads s') ->
  queue_sorted (threads s) q ->
  queues_sorted s'.
Proof.
  intros Hs Hcores Hst Hq j c Hc. rewrite Hcores in Hc.
  eapply queue_sorted_ext; [exact Hst|].
  destruct (decide (i = j)) as [<-|Hne].
  - rewrite list_lookup_alter_eq in Hc.
    destruct (cores s !! i); simpl in Hc; [|done]. by injection Hc as <-.
  - rewrite list_lookup_alter_ne in Hc by done. by apply (Hs j).
Qed.

Lemma dethroned_ext (ths ths' : tid -> KThread) (t : tid) (q : list tid) :
  same_static ths ths' -> dethroned ths t q -> dethroned ths' t q.
Proof.
  intros Hst (front & rest & -> & Hlt). exists front, rest. split; [done|].
  destruct (Hst t) as [-> _]. by destruct (Hst front) as [-> _].
Qed.

Lemma sorted_but_deferred_sorted (op : operation) (s : SchedulerState) :
  queues_sorted s -> sorted_but_deferred op s.
Proof.
  intros Hs i c Hc. split; [apply queue_sorted_tail|left]; by apply (Hs i).
Qed.

Lemma sorted_but_deferred_alter (op : operation) (s s' : SchedulerState) (i : nat)
    (q : list tid) :
  queues_sorted s ->
  cores s' = alter (with_queue q) i (cores s) ->
  same_static (threads s) (threads s') ->
  queue_sorted (threads s) (tail q) ->
  queue_sorted (threads s) q
  \/ (exists t, inserts_foreign op t /\ dethroned (threads s) t q) ->
  sorted_but_deferred op s'.
Proof.
  intros Hs Hcores Hst Htail Hq j c Hc. rewrite Hcores in Hc.
  destruct (decide (i = j)) as [<-|Hne].
  - rewrite list_lookup_alter_eq in Hc.
    destruct (cores s !! i); simpl in Hc; [|done]. injection Hc as <-. cbn.
    split; [by eapply queue_sorted_ext|].
    destruct Hq as [Hq|(t & Hop & Hd)].
    + left. by eapply queue_sorted_ext.
    + right. exists t. split; [done|]. by eapply dethroned_ext.
  - rewrite list_lookup_alter_ne in Hc by done.
    split; [apply queue_sorted_tail|left]; eapply queue_sorted_ext; try exact Hst;
      by apply (Hs j).
Qed.

Lemma InsertThread_wp (s : SchedulerState) (caller : option tid) (t : tid) :
  wp (InsertThread caller t) s
    (fun _ s' =>
       exists core,
         cores s !! coreId (threads s t) = Some core
         /\ cores s' = alter (with_queue (inserted (threads s) caller t (queue core)))
                             (coreId (threads s t)) (cores s)
         /\ parkedQueue s' = parkedQueue s
         /\ same_static (threads s) (threads s')
         /\ (forall u, coreId (threads s' u) = coreId (threads s u)))
    (fun s' => s' = s).
Proof.
  destruct (cores s !! coreId (threads s t)) as [core|] eqn:Hcore.
  - destruct (InsertThread_effect s caller t core Hcore)
      as (s' & Hrun & Hcores & Hparked & _ & Hst & Hcid).
    unfold wp. rewrite Hrun. by exists core.
  - unfold wp, InsertThread, bind, thread_obj, gets, cores_at. by rewrite Hcore.
Qed.

Lemma RemoveThread_wp (s : SchedulerState) (caller : option tid) :
  wp (RemoveThread tickSource caller) s
    (fun _ s' =>
       exists t core,
         caller = Some t
         /\ cores s !! coreId (threads s t) = Some core
         /\ cores s' = alter (with_queue (removed t (queue core)))
                             (coreId (threads s t)) (cores s)
         /\ parkedQueue s' = parkedQueue s
         /\ same_static (threads s) (threads s')
         /\ (forall u, coreId (threads s' u) = coreId (threads s u)))
    (fun s' => s' = s).
Proof.
  destruct caller as [t|]; [|done].
  destruct (cores s !! coreId (threads s t)) as [core|] eqn:Hcore.
  - destruct (RemoveThread_effect s t core Hcore)
      as (s' & Hrun & Hcores & Hparked & Hst & Hcid & _).
    unfold wp. rewrite Hrun. by exists t, core.
  - unfold wp, RemoveThread, bind, deref, ret, thread_obj, gets, cores_at.
    by rewrite Hcore.
Qed.

Lemma removed_sorted (ths : tid -> KThread) (t : tid) (q : list tid) :
  queue_sorted ths q -> queue_sorted ths (removed t q).
Proof.
  intros Hq. unfold removed. case_decide; [|done]. by apply queue_sorted_erase.
Qed.

(** Where [InsertThread] puts a thread in a sorted queue. *)
Lemma inserted_sorted (ths : tid -> KThread) (caller : option tid) (t : tid)
    (q : list tid) :
  queue_sorted ths q ->
  queue_sorted ths (tail (inserted ths caller t q))
  /\ (queue_sorted ths (inserted ths caller t q)
      \/ (caller <> Some t /\ dethroned ths t (inserted ths caller t q))).
Proof.
  intros Hq. unfold inserted. case_decide as Hd.
  - destruct Hd as (Hub & Hne & Hcaller).
    apply upper_bound_0 in Hub as [?|(front & rest & -> & Hlt)]; [done|].
    change (insert_at 1 t (front :: rest)) with (front :: t :: rest).
    apply StronglySorted_cons in Hq as [Hfront Hrest].
    split.
    + cbn. apply StronglySorted_cons. split; [|done].
      eapply Forall_impl; [exact Hfront|]. unfold prio_le. intros u ?. lia.
    + right. split; [done|]. by exists front, rest.
  - pose proof (queue_sorted_insert_at ths q t Hq) as Hs.
    split; [by apply queue_sorted_tail|by left].
Qed.

Lemma RemoveThread_sorted (s : SchedulerState) (caller : option tid) :
  queues_sorted s ->
  wp (RemoveThread tickSource caller) s
    (fun _ s' => queues_sorted s'
                 /\ same_static (threads s) (threads s')
                 /\ length (cores s') = length (cores s)
                 /\ (forall u, coreId (threads s' u) = coreId (threads s u)))
    queues_sorted.
Proof.
  intros Hs. eapply wp_mono; [apply RemoveThread_wp| |by intros s' ->].
  intros _ s' (t & core & _ & Hcore & Hcores & _ & Hst & Hcid).
  split_and!; [|done|by rewrite Hcores, length_alter|done].
  eapply queues_sorted_alter; [exact Hs|exact Hcores|exact Hst|].
  apply removed_sorted. by apply (Hs _ _ Hcore).
Qed.

Lemma InsertThread_sorted (op : operation) (s : SchedulerState) (caller : option tid)
    (t : tid) :
  queues_sorted s ->
  (caller <> Some t -> inserts_foreign op t) ->
  wp (InsertThread caller t) s (fun _ => sorted_but_deferred op) (sorted_but_deferred op).
Proof.
  intros Hs Hop. eapply wp_mono; [apply InsertThread_wp| |].
  - intros _ s' (core & Hcore & Hcores & _ & Hst & _).
    destruct (inserted_sorted (threads s) caller t (queue core) (Hs _ _ Hcore))
      as [Htail Hq].
    eapply sorted_but_deferred_alter; [exact Hs|exact Hcores|exact Hst|exact Htail|].
    destruct Hq as [Hq|[Hcaller Hd]]; [by left|right].
    exists t. split; [by apply Hop|done].
  - intros s' ->. by apply sorted_but_deferred_sorted.
Qed.

Lemma sorted_but_deferred_frame (op : operation) (s s' : SchedulerState) :
  sorted_but_deferred op s -> cores s' = cores s ->
  same_static (threads s) (threads s') ->
  sorted_but_deferred op s'.
Proof.
  intros Hs Hcores Hst i c Hc. rewrite Hcores in Hc.
  destruct (Hs i c Hc) as [Htail Hq].
  split; [by eapply queue_sorted_ext|].
  destruct Hq as [Hq|(t & Hop & Hd)].
  - left. by eapply queue_sorted_ext.
  - right. exists t. split; [done|]. by eapply dethroned_ext.
Qed.

(** The running thread spliced to the upper bound of its own priority. *)
Lemma splice_front_sorted (ths : tid -> KThread) (t : tid) (rest : list tid) :
  queue_sorted ths (t :: rest) ->
  queue_sorted ths
    (splice_front (upper_bound ths (t :: rest) (priority (ths t))) (t :: rest)).
Proof.
  intros Hq. apply StronglySorted_cons in Hq as [_ Hrest].
  rewrite upper_bound_cons. unfold IsHigherPriority.
  rewrite bool_decide_eq_false_2 by lia.
  by apply (queue_sorted_insert_at ths rest t).
Qed.

Lemma Rotate_sorted (s : SchedulerState) (caller : option tid) (cooperative : bool) :
  queues_sorted s ->
  leaves (Rotate tickSource caller cooperative) s queues_sorted.
Proof.
  intros Hs. destruct caller as [t|]; [|done].
  destruct (cores s !! coreId (threads s t)) as [core|] eqn:Hcore.
  - destruct (queue core) as [|front rest] eqn:Hq.
    { unfold leaves, Rotate, bind, deref, ret, thread_obj, gets, cores_at.
      by rewrite Hcore, Hq. }
    destruct (decide (front = t)) as [->|Hne].
    + destruct (Rotate_head s t cooperative core rest Hcore Hq)
        as (s' & Hrun & Hcores & _ & Hst & _).
      unfold leaves. rewrite Hrun.
      eapply queues_sorted_alter; [exact Hs|exact Hcores|exact Hst|].
      rewrite Hq. apply splice_front_sorted. rewrite <- Hq. by apply (Hs _ _ Hcore).
    + destruct (forceYield (threads s t)) eqn:Hforce.
      * destruct (found_in_band (threads s) t (queue core)) eqn:Hfound.
        -- destruct (Rotate_forced s t cooperative core front rest Hcore Hq Hne Hforce Hfound)
             as (s' & Hrun & Hcores & _ & Hst & _).
           unfold leaves. rewrite Hrun. by eapply queues_sorted_frame.
        -- unfold leaves.
           rewrite (Rotate_throws s t cooperative core front rest Hcore Hq Hne)
             by (left; done).
           done.
      * unfold leaves.
        rewrite (Rotate_throws s t cooperative core front rest Hcore Hq Hne)
          by (right; done).
        done.
  - unfold leaves, Rotate, bind, deref, ret, thread_obj, gets, cores_at.
    by rewrite Hcore.
Qed.

Lemma find_from_0_lookup (t : tid) (q : list tid) :
  find_from t q 0 (length q) <> length q -> q !! find_from t q 0 (length q) = Some t.
Proof.
  induction q as [|x q IH]; [done|].
  change (find_from t (x :: q) 0 (length (x :: q)))
    with (if decide (x = t) then 0 else S (find_from t q 0 (length q))).
  destruct (decide (x = t)) as [->|Hne]; [done|].
  simpl. intros Hk. apply IH. lia.
Qed.

Lemma find_lookup (t : tid) (q : list tid) :
  find t q <> length q -> q !! find t q = Some t.
Proof. apply find_from_0_lookup. Qed.

(** A queued thread that is not the running one cannot dethrone the
    running thread of a sorted queue. *)
Lemma erase_keeps_front (ths : tid -> KThread) (t : tid) (q : list tid) (k : nat) :
  queue_sorted ths q ->
  k <> 0 ->
  q !! k = Some t ->
  upper_bound ths (erase k q) (priority (ths t)) = 0 ->
  erase k q = [].
Proof.
  intros Hq Hk Ht Hub. destruct q as [|front q]; [done|].
  destruct k as [|k]; [done|]. unfold erase in *. cbn in *.
  rewrite upper_bound_cons in Hub. unfold IsHigherPriority in Hub.
  case_bool_decide as Hlt; [|done].
  apply StronglySorted_cons in Hq as [Hfront _].
  rewrite Forall_forall in Hfront.
  assert (prio_le ths front t) as Hle.
  { apply Hfront. by eapply list_elem_of_lookup_2. }
  unfold prio_le in Hle. lia.
Qed.

Lemma UpdatePriority_sorted (s : SchedulerState) (thread : tid) :
  queues_sorted s ->
  leaves (UpdatePriority thread) s queues_sorted.
Proof.
  intros Hs.
  unfold leaves, UpdatePriority, bind, thread_obj, gets, cores_at.
  destruct (cores s !! coreId (threads s thread)) as [core|] eqn:Hcore; [|done].
  pose proof (Hs _ _ Hcore) as Hq.
  set (k := find thread (queue core)).
  destruct (decide (k = length (queue core) \/ k = 0)) as [|Hk]; [done|].
  destruct (decide (k = 0)) as [?|_]; [by destruct Hk; right|].
  unfold ret. case_decide; [done|].
  set (q1 := erase k (queue core)).
  assert (Hq1 : queue_sorted (threads s) q1) by (by apply queue_sorted_erase).
  assert (Hkt : queue core !! k = Some thread).
  { apply find_lookup. intros ?. destruct Hk. by left. }
  unfold put_queue, when, disarm, update_thread, emit, bind, ret.
  destruct (isPreempted (threads s thread)
            && bool_decide (priority (threads s thread) <> preemptionPriority core));
    cbn [threads set_threads set_trace set_cores cores].
  - rewrite (upper_bound_ext (threads s)) by
      (intros u; apply same_static_alter; by intros []).
    case_decide as Hd.
    + destruct Hd as [Hub Hne]. destruct Hne.
      rewrite Hub. symmetry. apply length_zero_iff_nil.
      apply (erase_keeps_front (threads s) thread (queue core) k); try done.
      intros ->. destruct Hk. by right.
    + cbn. eapply queues_sorted_alter; [exact Hs| |apply same_static_alter; by intros []|].
      * cbn. by rewrite alter_queue_twice.
      * by apply queue_sorted_insert_at.
  - case_decide as Hd.
    + destruct Hd as [Hub Hne]. destruct Hne.
      rewrite Hub. symmetry. apply length_zero_iff_nil.
      apply (erase_keeps_front (threads s) thread (queue core) k); try done.
      intros ->. destruct Hk. by right.
    + cbn. eapply queues_sorted_alter; [exact Hs| |apply same_static_refl|].
      * cbn. by rewrite alter_queue_twice.
      * by apply queue_sorted_insert_at.
Qed.

Lemma select_core_returns (t : tid) (cur : nat) (cs : list CoreContext)
    (s : SchedulerState) (index : nat) (opt : option nat) (min : Z) :
  exists opt' s', select_core tickSource t cur cs index opt min s = Ret opt' s'
                  /\ ticks_only s s'.
Proof.
  revert s index opt min. induction cs as [|c cs IH]; intros s index opt min.
  - exists opt, s. split; [done|apply ticks_only_refl].
  - cbn [select_core]. unfold bind, thread_obj, gets.
    destruct (mask_test (affinityMask (threads s t)) (id c)); [|apply IH].
    destruct (projected_wait_returns s t c) as (w & s1 & -> & Hticks).
    case_decide.
    + destruct (IH s1 (S index) (Some index) w) as (opt' & s' & -> & Hticks').
      exists opt', s'. split; [done|by eapply ticks_only_trans].
    + destruct (IH s1 (S index) opt min) as (opt' & s' & -> & Hticks').
      exists opt', s'. split; [done|by eapply ticks_only_trans].
Qed.

Lemma queues_sorted_ticks (s s' : SchedulerState) :
  ticks_only s s' -> queues_sorted s -> queues_sorted s'.
Proof. by intros [n ->]. Qed.

Lemma LoadBalance_sorted (op : operation) (s : SchedulerState) (caller : option tid)
    (thread : tid) (alwaysInsert : bool) :
  queues_sorted s ->
  (caller <> Some thread -> inserts_foreign op thread) ->
  leaves (LoadBalance tickSource caller thread alwaysInsert) s (sorted_but_deferred op).
Proof.
  intros Hs Hop.
  assert (Hinsert : forall (s0 : SchedulerState) (ev : Event) (r : nat),
            queues_sorted s0 ->
            wp (when alwaysInsert (InsertThread caller thread) ;; emit ev ;; ret r) s0
               (fun _ => sorted_but_deferred op) (sorted_but_deferred op)).
  { intros s0 ev r Hs0. apply wp_bind. apply wp_when.
    - intros _. eapply wp_mono; [by apply (InsertThread_sorted op)| |done].
      intros [] s' Hs'. by eapply sorted_but_deferred_frame.
    - intros _. cbn. eapply sorted_but_deferred_frame; [|done|apply same_static_refl].
      by apply sorted_but_deferred_sorted. }
  assert (Hmove : forall (s0 : SchedulerState) (cc : CoreContext) (o : nat),
            queues_sorted s0 ->
            wp (oc <- cores_at o ;
                update_thread thread (with_coreId (id oc)) ;;
                InsertThread caller thread ;;
                emit (LogMigrate thread (id cc) (id oc)) ;;
                ret o) s0
               (fun _ => sorted_but_deferred op) (sorted_but_deferred op)).
  { intros s0 cc o Hs0. apply wp_bind. unfold wp at 1, cores_at.
    destruct (cores s0 !! o) as [oc|]; [|by apply sorted_but_deferred_sorted].
    apply wp_bind. cbn. apply wp_bind.
    eapply wp_mono; [apply (InsertThread_sorted op)| |done].
    - eapply queues_sorted_frame; [exact Hs0|done|]. apply same_static_alter. by intros [].
    - done.
    - intros [] s' Hs'. by eapply sorted_but_deferred_frame. }
  change (wp (LoadBalance tickSource caller thread alwaysInsert) s
            (fun _ => sorted_but_deferred op) (sorted_but_deferred op)).
  unfold LoadBalance. apply wp_bind. cbn. apply wp_bind. unfold wp at 1, cores_at.
  destruct (cores s !! coreId (threads s thread)) as [cc|];
    [|by apply sorted_but_deferred_sorted].
  destruct (bool_decide (queue cc <> [])
            && bool_decide (mask_count (affinityMask (threads s thread)) <> 1));
    [|by apply Hinsert].
  apply wp_bind. cbn. apply wp_bind.
  destruct (select_core_returns thread (coreId (threads s thread)) (cores s) s 0 None 0)
    as (opt & s1 & Hsel & Hticks).
  unfold wp at 1. rewrite Hsel.
  pose proof (queues_sorted_ticks _ _ Hticks Hs) as Hs1.
  case_decide; [|by apply Hinsert].
  apply wp_bind.
  destruct opt as [o|].
  - destruct (negb alwaysInsert && bool_decide (Some thread = caller)).
    + eapply wp_mono; [by apply RemoveThread_sorted| |by apply sorted_but_deferred_sorted].
      intros [] s2 (Hs2 & _). by apply Hmove.
    + destruct (negb alwaysInsert && bool_decide (Some thread <> caller)); cbn.
      * by apply sorted_but_deferred_sorted.
      * by apply Hmove.
  - destruct (negb alwaysInsert && bool_decide (Some thread = caller)).
    + eapply wp_mono; [by apply RemoveThread_sorted| |by apply sorted_but_deferred_sorted].
      by intros [] s2 _.
    + destruct (negb alwaysInsert && bool_decide (Some thread <> caller)); cbn; [|done].
      by apply sorted_but_deferred_sorted.
Qed.

Lemma ParkThread_sorted (op : operation) (s : SchedulerState) (caller : option tid) :
  queues_sorted s ->
  leaves (ParkThread tickSource ParkedCoreId caller) s (sorted_but_deferred op).
Proof.
  intros Hs.
  change (wp (ParkThread tickSource ParkedCoreId caller) s
            (fun _ => sorted_but_deferred op) (sorted_but_deferred op)).
  destruct caller as [t|]; [|done].
  unfold ParkThread. apply wp_bind. cbn. apply wp_bind.
  eapply wp_mono; [by apply RemoveThread_sorted| |by apply sorted_but_deferred_sorted].
  intros [] s1 (Hs1 & _).
  apply wp_bind. cbn. apply wp_bind. cbn. apply wp_bind. cbn. apply wp_bind.
  set (s2 := set_threads _ s1).
  assert (Hs2 : queues_sorted s2).
  { eapply queues_sorted_frame; [exact Hs1|done|]. apply same_static_alter. by intros []. }
  destruct (scan_cores_effect (cores s1) s2 t (coreId (threads s1 t)))
    as (s3 & Hscan & Hcores3 & _ & Hst3 & _).
  unfold wp at 1. rewrite Hscan.
  assert (Hs3 : queues_sorted s3) by (by eapply queues_sorted_frame).
  apply wp_bind. cbn. apply wp_bind.
  assert (Hself : forall s0, queues_sorted s0 ->
            wp (InsertThread (Some t) t) s0
               (fun _ => sorted_but_deferred op) (sorted_but_deferred op)).
  { intros s0 Hs0. by apply InsertThread_sorted. }
  apply wp_when; [|by intros _; apply Hself].
  intros _. apply wp_bind. cbn. apply wp_bind. cbn. apply wp_bind. cbn.
  set (s4 := set_parkedQueue _ s3).
  assert (Hs4 : queues_sorted s4) by (by eapply queues_sorted_frame; [exact Hs3|..]).
  unfold wp at 1, wait.
  match goal with |- context [if ?b then _ else _] => destruct b end.
  - by apply Hself.
  - by apply sorted_but_deferred_sorted.
Qed.

(** [InsertThread] on a sorted queue puts the thread behind every queued
    thread of its own priority band: all that follow it compare above it. *)
Lemma InsertThread_behind_band (s : SchedulerState) (caller : option tid) (t : tid)
    (core : CoreContext) :
  cores s !! coreId (threads s t) = Some core ->
  queue_sorted (threads s) (queue core) ->
  exists s' k,
    InsertThread caller t s = Ret tt s'
    /\ k <= length (queue core)
    /\ cores s' = alter (with_queue (insert_at k t (queue core)))
                        (coreId (threads s t)) (cores s)
    /\ forall u, u ∈ drop k (queue core) ->
                 (priority (threads s t) < priority (threads s u))%Z.
Proof.
  intros Hcore Hq.
  destruct (InsertThread_effect s caller t core Hcore) as (s' & Hrun & Hcores & _).
  unfold inserted in Hcores. case_decide as Hd.
  - destruct Hd as (Hub & Hne & _).
    apply upper_bound_0 in Hub as [?|(front & rest & Hfr & Hlt)]; [done|].
    exists s', 1. rewrite Hfr in *. split_and!; [done|simpl; lia|done|].
    cbn. intros u Hu. apply StronglySorted_cons in Hq as [Hfront _].
    rewrite Forall_forall in Hfront. specialize (Hfront u Hu).
    unfold prio_le in Hfront. lia.
  - exists s', (upper_bound (threads s) (queue core) (priority (threads s t))).
    split_and!; [done|apply upper_bound_le_length|done|].
    by apply upper_bound_drop.
Qed.

Lemma leaves_discard {A} (m : M A) (s : SchedulerState) (P : SchedulerState -> Prop) :
  leaves m s P -> leaves (m ;; ret tt) s P.
Proof. unfold leaves, bind. by destruct (m s). Qed.

(** C2, as the code has it: if every core queue is sorted by ascending
    priority before [InsertThread], [Rotate], [UpdatePriority],
    [RemoveThread], [LoadBalance] or [ParkThread], then afterwards (the
    operation returned, threw or parked) every core queue is sorted from its
    second entry on, and sorted as a whole unless the operation inserted a
    thread other than its caller whose priority is strictly higher than that
    of the running thread: that thread sits at index 1, behind the running
    thread, which stays in front until it yields.  [InsertThread] keeps the
    order of the queued threads and places the new thread so that all that
    follow it have a strictly greater numeric priority: insertion order is
    kept within a priority band. *)
Theorem queues_sorted_but_deferred (op : operation) (s : SchedulerState) :
  queues_sorted s ->
  leaves (run tickSource ParkedCoreId op) s (sorted_but_deferred op)
  /\ forall caller t core,
       op = OpInsertThread caller t ->
       cores s !! coreId (threads s t) = Some core ->
       exists s' k,
         InsertThread caller t s = Ret tt s'
         /\ k <= length (queue core)
         /\ cores s' = alter (with_queue (insert_at k t (queue core)))
                             (coreId (threads s t)) (cores s)
         /\ forall u, u ∈ drop k (queue core) ->
                      (priority (threads s t) < priority (threads s u))%Z.
Proof.
  intros Hs. split.
  - destruct op as [caller t|caller coop|t|caller|caller t ai|caller]; cbn [run].
    + by apply (InsertThread_sorted (OpInsertThread caller t)).
    + pose proof (Rotate_sorted s caller coop Hs) as H. unfold leaves in *.
      destruct (Rotate tickSource caller coop s); try done;
        by apply sorted_but_deferred_sorted.
    + pose proof (UpdatePriority_sorted s t Hs) as H. unfold leaves in *.
      destruct (UpdatePriority t s); try done; by apply sorted_but_deferred_sorted.
    + pose proof (RemoveThread_sorted s caller Hs) as H. unfold leaves, wp in *.
      destruct (RemoveThread tickSource caller s); try done;
        apply sorted_but_deferred_sorted; [by destruct H|done..].
    + apply leaves_discard. by apply LoadBalance_sorted.
    + by apply ParkThread_sorted.
  - intros caller t core _ Hcore. apply InsertThread_behind_band; [done|].
    by apply (Hs _ _ Hcore).
Qed.

(** *** The upper bound of a sorted queue *)

Lemma queue_sorted_lookup (ths : tid -> KThread) (q : list tid) (i j : nat) (a b : tid) :
  queue_sorted ths q -> i < j -> q !! i = Some a -> q !! j = Some b -> prio_le ths a b.
Proof.
  intros Hq Hij Ha Hb.
  destruct (queue_sorted_take_drop ths q j Hq) as (_ & _ & Hab).
  apply Hab.
  - apply elem_of_take. by exists i.
  - apply list_elem_of_lookup. exists 0. by rewrite lookup_drop, Nat.add_0_r.
Qed.

(** The upper bound is the one position that splits the queue. *)
Lemma upper_bound_unique (ths : tid -> KThread) (q : list tid) (p : Z) (k : nat) :
  k <= length q ->
  (forall i u, i < k -> q !! i = Some u -> (priority (ths u) <= p)%Z) ->
  (forall i u, k <= i -> q !! i = Some u -> (p < priority (ths u))%Z) ->
  upper_bound ths q p = k.
Proof.
  revert k. induction q as [|x q IH]; intros k Hk Hlow Hhigh.
  - simpl in Hk. by assert (k = 0) as -> by lia.
  - rewrite upper_bound_cons. unfold IsHigherPriority.
    destruct k as [|k].
    + rewrite bool_decide_eq_true_2; [done|]. by apply (Hhigh 0).
    + rewrite bool_decide_eq_false_2.
      * f_equal. apply IH; [simpl in Hk; lia| |].
        -- intros i u Hi Hu. apply (Hlow (S i)); [lia|done].
        -- intros i u Hi Hu. apply (Hhigh (S i)); [lia|done].
      * specialize (Hlow 0 x). cbn in Hlow. specialize (Hlow ltac:(lia) eq_refl). lia.
Qed.

(** On a sorted queue the halving search returns the upper bound of the
    model. *)
Lemma upper_bound_halving_sorted (ths : tid -> KThread) (q : list tid) (p : Z)
    (fuel first len : nat) :
  queue_sorted ths q ->
  len <= fuel ->
  first + len <= length q ->
  (forall i u, i < first -> q !! i = Some u -> (priority (ths u) <= p)%Z) ->
  (forall i u, first + len <= i -> q !! i = Some u -> (p < priority (ths u))%Z) ->
  upper_bound_halving fuel ths q p first len = upper_bound ths q p.
Proof.
  intros Hq. revert first len.
  induction fuel as [|fuel IH]; intros first len Hfuel Hlen Hlow Hhigh.
  - assert (len = 0) as -> by lia. cbn. symmetry.
    apply upper_bound_unique; [lia|done|].
    intros i u Hi. apply Hhigh. lia.
  - cbn [upper_bound_halving]. destruct len as [|len'].
    + symmetry. apply upper_bound_unique; [lia|done|].
      intros i u Hi. apply Hhigh. lia.
    + set (len := S len') in *.
      assert (Nat.div2 len < len) as Hhalf by (apply Nat.lt_div2; lia).
      set (half := Nat.div2 len) in *. clearbody half.
      destruct (lookup_lt_is_Some_2 q (first + half)) as [middle Hmid]; [lia|].
      rewrite Hmid. unfold IsHigherPriority. case_bool_decide as Hcmp.
      * apply IH; [lia|lia|done|].
        intros i u Hi Hu.
        destruct (decide (i = first + half)) as [->|Hne]; [congruence|].
        assert (first + half < i) as Hlt by lia.
        pose proof (queue_sorted_lookup ths q _ _ _ _ Hq Hlt Hmid Hu) as Hle.
        unfold prio_le in Hle. lia.
      * apply IH; [lia|lia| |].
        -- intros i u Hi Hu.
           destruct (decide (i = first + half)) as [->|Hne]; [by simplify_eq; lia|].
           assert (i < first + half) as Hlt by lia.
           pose proof (queue_sorted_lookup ths q _ _ _ _ Hq Hlt Hu Hmid) as Hle.
           unfold prio_le in Hle. lia.
        -- intros i u Hi. apply Hhigh. lia.
Qed.

(** [std::upper_bound] by halving over a whole sorted queue. *)
Lemma upper_bound_halving_whole (ths : tid -> KThread) (q : list tid) (p : Z) :
  queue_sorted ths q ->
  upper_bound_halving (length q) ths q p 0 (length q) = upper_bound ths q p.
Proof.
  intros Hq. apply upper_bound_halving_sorted; [done|lia|lia| |].
  - intros i u Hi. lia.
  - intros i u Hi Hu. apply lookup_lt_Some in Hu. simpl in Hi. lia.
Qed.

(** ** Further properties of the operations *)

Variable defaultAlwaysInsert : bool.
Variable defaultLoadBalance : bool.

(** *** A core id that is no core *)

(** X1: an operation on a thread whose [coreId] is not the index of a
    core (the [coreId] of a parked thread, for one) fails in [cores.at]
    with [std::out_of_range] before it has written anything. *)
Theorem coreId_out_of_range (s : SchedulerState) (t : tid) (caller : option tid)
    (b : bool) (others : SchedulerState -> SchedulerState)
    (rounds : list (SchedulerState -> SchedulerState)) :
  cores s !! coreId (threads s t) = None ->
  InsertThread caller t s = Throw out_of_range s
  /\ RemoveThread tickSource (Some t) s = Throw out_of_range s
  /\ Rotate tickSource (Some t) b s = Throw out_of_range s
  /\ UpdatePriority t s = Throw out_of_range s
  /\ LoadBalance tickSource caller t b s = Throw out_of_range s
  /\ ParkThread tickSource ParkedCoreId (Some t) s = Throw out_of_range s
  /\ TimedWaitSchedule tickSource (Some t) others s = Throw out_of_range s
  /\ WaitSchedule tickSource defaultAlwaysInsert (Some t) b rounds s = Throw out_of_range s
  /\ (parkedQueue s <> [] -> WakeParkedThread (Some t) s = Throw out_of_range s).
Proof.
  intros Hnone.
  assert (Hrem : RemoveThread tickSource (Some t) s = Throw out_of_range s).
  { unfold RemoveThread, bind, deref, ret, thread_obj, gets, cores_at. by rewrite Hnone. }
  split_and!.
  - unfold InsertThread, bind, thread_obj, gets, cores_at. by rewrite Hnone.
  - exact Hrem.
  - unfold Rotate, bind, deref, ret, thread_obj, gets, cores_at. by rewrite Hnone.
  - unfold UpdatePriority, bind, thread_obj, gets, cores_at. by rewrite Hnone.
  - unfold LoadBalance, bind, thread_obj, gets, cores_at. by rewrite Hnone.
  - unfold ParkThread, bind, deref, ret. by rewrite Hrem.
  - unfold TimedWaitSchedule, bind, deref, ret, thread_obj, gets, cores_at.
    by rewrite Hnone.
  - unfold WaitSchedule, bind, deref, ret, thread_obj, gets, cores_at. by rewrite Hnone.
  - intros Hpq. unfold WakeParkedThread, bind, deref, ret, thread_obj, gets, cores_at.
    destruct (parkedQueue s); [done|]. by rewrite Hnone.
Qed.

(** *** Rotate on the running thread *)

(** The events of the head path, and what it writes to the caller. *)
Lemma Rotate_head_events (s : SchedulerState) (t : tid) (cooperative : bool)
    (core : CoreContext) (rest : list tid) :
  cores s !! coreId (threads s t) = Some core ->
  queue core = t :: rest ->
  let q' := splice_front (upper_bound (threads s) (t :: rest) (priority (threads s t)))
              (t :: rest) in
  exists s',
    Rotate tickSource (Some t) cooperative s = Ret tt s'
    /\ cores s' = alter (with_queue q') (coreId (threads s t)) (cores s)
    /\ trace s' = trace s
                  ++ match q' with
                     | front :: _ => if decide (front = t) then [] else [notify_one front]
                     | [] => []
                     end
                  ++ (if cooperative && isPreempted (threads s t)
                      then [timer_disarm t] else [])
    /\ timesliceStart (threads s' t) = timesliceStart (threads s t)
    /\ (forall u, u <> t -> threads s' u = threads s u)
    /\ YieldPending s' = YieldPending s.
Proof.
  intros Hcore Hq q'.
  unfold Rotate, bind, deref, ret, thread_obj, gets, cores_at.
  rewrite Hcore, Hq. rewrite decide_True by done.
  unfold update_averageTimeslice, GetTimeTicks, update_thread, put_queue, bind,
    thread_obj, gets.
  cbn [threads set_threads set_tickReads set_cores cores].
  rewrite (upper_bound_ext (threads s)) by
    (intros u; apply same_static_alter; by intros []).
  fold q'.
  pose proof (length_splice_front
                (upper_bound (threads s) (t :: rest) (priority (threads s t))) (t :: rest))
    as Hlen.
  fold q' in Hlen.
  destruct q' as [|front' rest'] eqn:Hs; [done|].
  unfold when, disarm, emit.
  destruct (decide (front' = t)) as [->|Hne].
  - rewrite bool_decide_eq_false_2 by (intros H; by apply H).
    destruct (cooperative && isPreempted (threads s t)); cbn;
      (eexists; split; [reflexivity|]); cbn; split_and!; try done;
      try (by rewrite !alter_same);
      try (intros u Hu; by rewrite !alter_other by done).
    by rewrite app_nil_r.
  - rewrite bool_decide_eq_true_2 by done.
    destruct (cooperative && isPreempted (threads s t)); cbn;
      (eexists; split; [reflexivity|]); cbn; split_and!; try done;
      try (by rewrite !alter_same);
      try (intros u Hu; by rewrite !alter_other by done);
      try (by rewrite <- app_assoc);
      try (by rewrite app_nil_r).
Qed.

(** The band of the running thread in a sorted queue: the threads behind
    it of its own priority, up to the upper bound. *)
Lemma band_of_running (ths : tid -> KThread) (t : tid) (rest : list tid) :
  queue_sorted ths (t :: rest) ->
  let k := upper_bound ths rest (priority (ths t)) in
  upper_bound ths (t :: rest) (priority (ths t)) = S k
  /\ (forall u, u ∈ take k rest -> priority (ths u) = priority (ths t))
  /\ (forall u, u ∈ drop k rest -> (priority (ths t) < priority (ths u))%Z).
Proof.
  intros Hq k. apply StronglySorted_cons in Hq as [Hfront Hrest].
  split_and!.
  - rewrite upper_bound_cons. unfold IsHigherPriority.
    by rewrite bool_decide_eq_false_2 by lia.
  - intros u Hu. pose proof (upper_bound_take ths rest _ u Hu) as Hle.
    rewrite Forall_forall in Hfront.
    assert (u ∈ rest) as Hin.
    { rewrite <- (take_drop k rest). apply elem_of_app. by left. }
    specialize (Hfront u Hin). unfold prio_le in Hfront. lia.
  - by apply upper_bound_drop.
Qed.

(** X2: [Rotate] by the running thread of a sorted queue is a round-robin
    step within its priority band: the thread is moved behind the queued
    threads of its own priority and stays in front of those of lower
    priority, whose order is kept; the thread that comes to the front, if
    any, is notified; the preemption timer is disarmed only on a cooperative
    yield of a preempted thread. *)
Theorem Rotate_round_robin (s : SchedulerState) (t : tid) (cooperative : bool)
    (core : CoreContext) (rest : list tid) :
  cores s !! coreId (threads s t) = Some core ->
  queue core = t :: rest ->
  queue_sorted (threads s) (t :: rest) ->
  t ∉ rest ->
  exists s' band lower,
    rest = band ++ lower
    /\ (forall u, u ∈ band -> priority (threads s u) = priority (threads s t))
    /\ (forall u, u ∈ lower -> (priority (threads s t) < priority (threads s u))%Z)
    /\ Rotate tickSource (Some t) cooperative s = Ret tt s'
    /\ cores s' = alter (with_queue (band ++ t :: lower)) (coreId (threads s t)) (cores s)
    /\ trace s' = trace s
                  ++ match band with
                     | front :: _ => [notify_one front]
                     | [] => []
                     end
                  ++ (if cooperative && isPreempted (threads s t)
                      then [timer_disarm t] else []).
Proof.
  intros Hcore Hq Hsorted Hnot.
  destruct (band_of_running (threads s) t rest Hsorted) as (Hub & Hband & Hlower).
  destruct (Rotate_head_events s t cooperative core rest Hcore Hq)
    as (s' & Hrun & Hcores & Htrace & _).
  rewrite Hub in Hcores, Htrace.
  set (k := upper_bound (threads s) rest (priority (threads s t))) in *.
  change (splice_front (S k) (t :: rest)) with (take k rest ++ t :: drop k rest)
    in Hcores, Htrace.
  exists s', (take k rest), (drop k rest).
  split_and!; [by rewrite take_drop|done|done|done|done|].
  rewrite Htrace. f_equal. f_equal.
  destruct (take k rest) as [|front band'] eqn:Htake; cbn.
  - by rewrite decide_True.
  - rewrite decide_False; [done|]. intros ->. apply Hnot.
    rewrite <- (take_drop k rest), Htake. apply elem_of_app. left. by left.
Qed.


(** *** InsertThread: who is disturbed *)

(** The events of [InsertThread], by the place the thread lands at. *)
Lemma InsertThread_events (s : SchedulerState) (caller : option tid) (t : tid)
    (core : CoreContext) :
  cores s !! coreId (threads s t) = Some core ->
  exists s',
    InsertThread caller t s = Ret tt s'
    /\ trace s' = trace s ++
         (if decide (upper_bound (threads s) (queue core) (priority (threads s t)) = 0)
          then match queue core with
               | [] => if decide (caller = Some t) then [] else [notify_one t]
               | front :: _ =>
                   if decide (caller = Some t) then []
                   else (if decide (caller = Some front) then [] else [SendSignal front])
                        ++ [notify_one t]
               end
          else []).
Proof.
  intros Hcore.
  unfold InsertThread, bind, thread_obj, gets, cores_at.
  rewrite Hcore.
  set (k := upper_bound (threads s) (queue core) (priority (threads s t))).
  destruct (decide (k = 0)) as [Hk|Hk].
  - destruct (decide (k <> length (queue core))) as [Hlen|Hlen].
    + destruct (queue core) as [|front rest] eqn:Hq; [simpl in Hlen; lia|].
      destruct (decide (caller = Some t)) as [->|Hcaller].
      * unfold update_thread, put_queue, queue_of, cores_at, bind, ret.
        cbn [cores set_cores set_threads threads].
        rewrite list_lookup_alter_eq, Hcore.
        rewrite (upper_bound_ext (threads s)) by
          (intros u; apply same_static_alter; by intros []).
        fold k. rewrite Hk. cbn.
        destruct (decide (Some t <> Some t)) as [?|_]; [done|].
        unfold put_YieldPending, when.
        rewrite bool_decide_eq_false_2 by (intros H; by apply H).
        eexists; split; [reflexivity|]; cbn. by rewrite app_nil_r.
      * unfold put_queue, queue_of, cores_at, bind, ret.
        cbn [cores set_cores].
        rewrite list_lookup_alter_eq, Hcore. cbn.
        change (insert_at 1 t (front :: rest)) with (front :: t :: rest).
        unfold when, emit, put_YieldPending.
        rewrite bool_decide_eq_true_2 by congruence.
        destruct (decide (caller <> Some front)) as [Hf|Hf]; cbn.
        -- rewrite decide_False by done.
           eexists; split; [reflexivity|]; cbn. by rewrite <- app_assoc.
        -- rewrite decide_True by (by destruct (decide (caller = Some front))).
           eexists; split; [reflexivity|]; by cbn.
    + assert (queue core = []) as Hq by (apply length_zero_iff_nil; lia).
      rewrite Hq. unfold put_queue, when, emit, ret, bind.
      destruct (decide (caller = Some t)) as [->|Hcaller].
      * rewrite bool_decide_eq_false_2 by (intros H; by apply H).
        eexists; split; [reflexivity|]; cbn. by rewrite app_nil_r.
      * rewrite bool_decide_eq_true_2 by congruence.
        eexists; split; [reflexivity|]; by cbn.
  - unfold put_queue. eexists; split; [reflexivity|]; cbn. by rewrite app_nil_r.
Qed.

(** X4: [InsertThread] sends [YieldSignal] to nobody but the running
    thread of the destination queue, and only when another thread inserts a
    thread of strictly higher priority than the running one; it never
    signals its caller, and the only thread it wakes is the inserted one,
    when that is not the caller.  A thread that inserts itself causes no
    event at all. *)
Theorem InsertThread_signals (s : SchedulerState) (caller : option tid) (t : tid)
    (core : CoreContext) :
  cores s !! coreId (threads s t) = Some core ->
  exists s' events,
    InsertThread caller t s = Ret tt s'
    /\ trace s' = trace s ++ events
    /\ (caller = Some t -> events = [])
    /\ forall e, e ∈ events ->
         (e = notify_one t /\ caller <> Some t)
         \/ exists front rest,
              e = SendSignal front
              /\ queue core = front :: rest
              /\ caller <> Some front
              /\ caller <> Some t
              /\ (priority (threads s t) < priority (threads s front))%Z.
Proof.
  intros Hcore.
  destruct (InsertThread_events s caller t core Hcore) as (s' & Hrun & Htrace).
  eexists s', _. split; [exact Hrun|]. split; [exact Htrace|].
  destruct (decide (upper_bound (threads s) (queue core) (priority (threads s t)) = 0))
    as [Hk|Hk]; [|split; [done|by intros e ?%elem_of_nil]].
  destruct (queue core) as [|front rest] eqn:Hq.
  - destruct (decide (caller = Some t)) as [Hc|Hc].
    + split; [done|by intros e ?%elem_of_nil].
    + split; [done|]. intros e He. apply list_elem_of_singleton in He as ->. by left.
  - apply upper_bound_0 in Hk as [?|(front' & rest' & Heq & Hlt)]; [done|].
    injection Heq as <- <-.
    destruct (decide (caller = Some t)) as [Hc|Hc].
    + split; [done|by intros e ?%elem_of_nil].
    + split; [done|]. intros e He. apply elem_of_app in He as [He|He].
      * destruct (decide (caller = Some front)) as [Hf|Hf];
          [by apply elem_of_nil in He|].
        apply list_elem_of_singleton in He as ->. right. by exists front, rest.
      * apply list_elem_of_singleton in He as ->. by left.
Qed.

Lemma insert_at_Permutation (k : nat) (t : tid) (q : list tid) :
  insert_at k t q ≡ₚ t :: q.
Proof.
  unfold insert_at. rewrite <- Permutation_middle. by rewrite take_drop.
Qed.

(** X5: [InsertThread] adds one entry for the thread to the queue of the
    thread's core and nothing else: the other entries stay, the other cores
    are untouched, and a queue without duplicates stays so when the thread
    was not queued. *)
Theorem InsertThread_adds_one_entry (s : SchedulerState) (caller : option tid) (t : tid)
    (core : CoreContext) :
  cores s !! coreId (threads s t) = Some core ->
  exists s' core',
    InsertThread caller t s = Ret tt s'
    /\ cores s' !! coreId (threads s t) = Some core'
    /\ id core' = id core
    /\ preemptionPriority core' = preemptionPriority core
    /\ queue core' ≡ₚ t :: queue core
    /\ (t ∉ queue core -> NoDup (queue core) -> NoDup (queue core'))
    /\ (forall j, j <> coreId (threads s t) -> cores s' !! j = cores s !! j)
    /\ parkedQueue s' = parkedQueue s.
Proof.
  intros Hcore.
  destruct (InsertThread_effect s caller t core Hcore)
    as (s' & Hrun & Hcores & Hparked & _).
  destruct (inserted_insert_at (threads s) caller t (queue core)) as (k & _ & Hins).
  exists s', (with_queue (inserted (threads s) caller t (queue core)) core).
  split_and!; try done.
  - by rewrite Hcores, list_lookup_alter_eq, Hcore.
  - cbn. rewrite Hins. apply insert_at_Permutation.
  - intros Hnot Hnd. cbn. rewrite Hins, insert_at_Permutation. by constructor.
  - intros j Hj. by rewrite Hcores, list_lookup_alter_ne.
Qed.

(** *** RemoveThread: what it does to the caller and to its successor *)

Lemma RemoveThread_events (s : SchedulerState) (t : tid) (core : CoreContext) :
  cores s !! coreId (threads s t) = Some core ->
  let k := find t (queue core) in
  let front := bool_decide (k <> length (queue core)) && bool_decide (k = 0) in
  let ran := front && bool_decide (timesliceStart (threads s t) <> 0%Z) in
  exists s',
    RemoveThread tickSource (Some t) s = Ret tt s'
    /\ trace s' = trace s
         ++ (if front
             then match erase k (queue core) with
                  | successor :: _ => [notify_one successor]
                  | [] => []
                  end
             else [])
         ++ (if isPreempted (threads s t) then [timer_disarm t] else [])
    /\ averageTimeslice (threads s' t)
       = (if ran
          then ewma (averageTimeslice (threads s t)) (u64 (tickSource (tickReads s)))
                 (timesliceStart (threads s t))
          else averageTimeslice (threads s t))
    /\ tickReads s' = (if ran then S (tickReads s) else tickReads s)
    /\ timesliceStart (threads s' t) = timesliceStart (threads s t)
    /\ forceYield (threads s' t) = forceYield (threads s t)
    /\ (forall u, u <> t -> threads s' u = threads s u)
    /\ YieldPending s' t = false
    /\ (forall u, u <> t -> YieldPending s' u = YieldPending s u).
Proof.
  intros Hcore k front ran. unfold ran, front, k. clear ran front k.
  unfold RemoveThread, bind, deref, ret, thread_obj, gets, cores_at.
  rewrite Hcore.
  unfold when, update_averageTimeslice, disarm, put_queue, update_thread, emit,
    put_YieldPending, GetTimeTicks, bind, ret, thread_obj, gets.
  destruct (bool_decide (find t (queue core) <> length (queue core))); cbn;
    [destruct (bool_decide (find t (queue core) = 0)); cbn;
     [destruct (bool_decide (timesliceStart (threads s t) <> 0%Z)); cbn;
      destruct (erase (find t (queue core)) (queue core)) as [|successor rest]; cbn|]|];
    rewrite ?alter_same; cbn;
    destruct (isPreempted (threads s t)) eqn:Hpre; cbn;
    (eexists; split; [reflexivity|]); cbn;
    rewrite ?alter_same; cbn; rewrite ?app_nil_r;
    (split_and!; try done;
     try (by rewrite <- ?app_assoc);
     try (intros u Hu; by rewrite ?alter_other by done);
     try apply fn_lookup_insert;
     try (intros u Hu; by apply fn_lookup_insert_ne)).
Qed.

Lemma find_elem_of (t : tid) (q : list tid) : t ∈ q -> find t q <> length q.
Proof.
  unfold find. induction q as [|x q IH]; intros Hin; [by apply elem_of_nil in Hin|].
  change (find_from t (x :: q) 0 (length (x :: q)))
    with (if decide (x = t) then 0 else S (find_from t q 0 (length q))).
  destruct (decide (x = t)) as [->|Hx]; [done|].
  apply elem_of_cons in Hin as [?|Hin]; [congruence|].
  specialize (IH Hin). simpl. lia.
Qed.

Lemma find_head (t : tid) (rest : list tid) : find t (t :: rest) = 0.
Proof. unfold find, find_from. simpl. by rewrite decide_True. Qed.

(** X6: when the running thread removes itself, its successor becomes the
    front of the queue and is the one thread notified; the average
    timeslice is updated only for a thread that has run ([timesliceStart]
    not zero); the timer is disarmed if it was armed. *)
Theorem RemoveThread_running (s : SchedulerState) (t : tid) (core : CoreContext)
    (rest : list tid) :
  cores s !! coreId (threads s t) = Some core ->
  queue core = t :: rest ->
  exists s',
    RemoveThread tickSource (Some t) s = Ret tt s'
    /\ cores s' = alter (with_queue rest) (coreId (threads s t)) (cores s)
    /\ trace s' = trace s
         ++ match rest with
            | successor :: _ => [notify_one successor]
            | [] => []
            end
         ++ (if isPreempted (threads s t) then [timer_disarm t] else [])
    /\ averageTimeslice (threads s' t)
       = (if decide (timesliceStart (threads s t) = 0%Z)
          then averageTimeslice (threads s t)
          else ewma (averageTimeslice (threads s t)) (u64 (tickSource (tickReads s)))
                 (timesliceStart (threads s t)))
    /\ isPreempted (threads s' t) = false
    /\ YieldPending s' t = false.
Proof.
  intros Hcore Hq.
  destruct (RemoveThread_effect s t core Hcore)
    as (s' & Hrun & Hcores & _ & _ & _ & Hpre).
  destruct (RemoveThread_events s t core Hcore)
    as (s'' & Hrun' & Htrace & Havg & _ & _ & _ & _ & Hyield & _).
  rewrite Hrun in Hrun'. injection Hrun' as <-.
  rewrite Hq, find_head in *.
  unfold removed in Hcores. rewrite find_head in Hcores.
  rewrite decide_True in Hcores by (simpl; lia).
  change (erase 0 (t :: rest)) with rest in *.
  rewrite (bool_decide_eq_true_2 (0 <> length (t :: rest))) in Htrace, Havg
    by (simpl; lia).
  rewrite (bool_decide_eq_true_2 (0 = 0)) in Htrace, Havg by done.
  cbn [andb] in Htrace, Havg.
  exists s'. split_and!; try done.
  rewrite Havg. destruct (decide (timesliceStart (threads s t) = 0%Z)) as [Hz|Hz].
  - by rewrite bool_decide_eq_false_2 by (intros H; by apply H).
  - by rewrite bool_decide_eq_true_2.
Qed.

(** X7: when a thread that waits behind the running thread removes itself,
    the running thread stays in front, nobody is notified, the tick counter
    is not read and the thread's average timeslice is left as it is. *)
Theorem RemoveThread_waiting (s : SchedulerState) (t : tid) (core : CoreContext)
    (front : tid) (rest : list tid) :
  cores s !! coreId (threads s t) = Some core ->
  queue core = front :: rest ->
  front <> t ->
  t ∈ rest ->
  exists s' rest',
    RemoveThread tickSource (Some t) s = Ret tt s'
    /\ cores s' = alter (with_queue (front :: rest')) (coreId (threads s t)) (cores s)
    /\ rest ≡ₚ t :: rest'
    /\ trace s' = trace s ++ (if isPreempted (threads s t) then [timer_disarm t] else [])
    /\ averageTimeslice (threads s' t) = averageTimeslice (threads s t)
    /\ tickReads s' = tickReads s.
Proof.
  intros Hcore Hq Hne Hin.
  destruct (RemoveThread_effect s t core Hcore) as (s' & Hrun & Hcores & _).
  destruct (RemoveThread_events s t core Hcore)
    as (s'' & Hrun' & Htrace & Havg & Hticks & _).
  rewrite Hrun in Hrun'. injection Hrun' as <-.
  rewrite Hq in *.
  assert (find t (front :: rest) = S (find t rest)) as Hfind.
  { unfold find, find_from. simpl. by rewrite decide_False. }
  pose proof (find_elem_of t rest Hin) as Hfound.
  rewrite Hfind in *.
  unfold removed in Hcores. rewrite Hfind in Hcores.
  rewrite decide_True in Hcores by (simpl; lia).
  rewrite (bool_decide_eq_false_2 (S (find t rest) = 0)) in Htrace, Havg, Hticks by done.
  rewrite andb_false_r in *. cbn [andb] in *.
  exists s', (erase (find t rest) rest). split_and!; try done.
  unfold erase. apply delete_Permutation. by apply find_lookup.
Qed.

Lemma not_elem_of_removed (t : tid) (q : list tid) :
  NoDup q -> t ∉ removed t q.
Proof.
  intros Hnd. unfold removed. case_decide as Hfound.
  - pose proof (find_lookup t q Hfound) as Hl.
    unfold erase. rewrite delete_take_drop.
    rewrite <- (take_drop_middle q _ t Hl) in Hnd.
    apply NoDup_app in Hnd as (_ & Htake & Hdrop).
    apply NoDup_cons in Hdrop as [Hdrop _].
    rewrite elem_of_app. intros [Hi|Hi]; [|done].
    apply (Htake t Hi). by left.
  - intros Hin. by apply (find_elem_of t q Hin).
Qed.

(** X8: on a queue without duplicates one [RemoveThread] takes the thread
    out of its queue, and a second one is without effect on the queues and
    causes no event. *)
Theorem RemoveThread_twice (s : SchedulerState) (t : tid) (core : CoreContext) :
  cores s !! coreId (threads s t) = Some core ->
  NoDup (queue core) ->
  exists s1 s2 core1,
    RemoveThread tickSource (Some t) s = Ret tt s1
    /\ cores s1 !! coreId (threads s t) = Some core1
    /\ (t ∉ queue core1)
    /\ RemoveThread tickSource (Some t) s1 = Ret tt s2
    /\ cores s2 = cores s1
    /\ parkedQueue s2 = parkedQueue s1
    /\ trace s2 = trace s1.
Proof.
  intros Hcore Hnd.
  destruct (RemoveThread_effect s t core Hcore)
    as (s1 & Hrun1 & Hcores1 & _ & _ & Hcid1 & Hpre1).
  set (core1 := with_queue (removed t (queue core)) core).
  assert (Hcore1 : cores s1 !! coreId (threads s1 t) = Some core1).
  { by rewrite Hcid1, Hcores1, list_lookup_alter_eq, Hcore. }
  assert (Hnot : t ∉ queue core1) by (by apply not_elem_of_removed).
  destruct (RemoveThread_effect s1 t core1 Hcore1)
    as (s2 & Hrun2 & Hcores2 & Hparked2 & _).
  destruct (RemoveThread_events s1 t core1 Hcore1)
    as (s2' & Hrun2' & Htrace2 & _).
  rewrite Hrun2 in Hrun2'. injection Hrun2' as <-.
  exists s1, s2, core1. split_and!; try done.
  - by rewrite <- Hcid1.
  - rewrite Hcores2. unfold removed.
    rewrite decide_False by (intros H; apply H; by apply find_notin).
    by apply alter_queue_same.
  - rewrite Htrace2, Hpre1.
    rewrite (bool_decide_eq_false_2 (find t (queue core1) <> length (queue core1)))
      by (intros H; apply H; by apply find_notin).
    cbn. by rewrite !app_nil_r.
Qed.

(** *** UpdatePriority on a waiting thread *)

(** The element at the upper bound compares above [p]. *)
Lemma upper_bound_lookup (ths : tid -> KThread) (q : list tid) (p : Z) (u : tid) :
  q !! upper_bound ths q p = Some u -> (p < priority (ths u))%Z.
Proof.
  induction q as [|x q IH]; [done|].
  rewrite upper_bound_cons. unfold IsHigherPriority.
  case_bool_decide as Hx; simpl; [by intros [= <-]|done].
Qed.

(** The position of a thread queued behind the front. *)
Lemma find_behind (t front : tid) (rest : list tid) :
  front <> t -> find t (front :: rest) = S (find t rest).
Proof. intros Hne. unfold find, find_from. simpl. by rewrite decide_False. Qed.

(** What [UpdatePriority] does for a thread that waits behind the running
    thread: it is taken out and put back at the upper bound of its new
    priority, or right behind the running thread when it now outranks it,
    and then the running thread is signalled. *)
Lemma UpdatePriority_moved (s : SchedulerState) (t : tid) (core : CoreContext)
    (front : tid) (rest : list tid) :
  cores s !! coreId (threads s t) = Some core ->
  queue core = front :: rest ->
  front <> t ->
  t ∈ rest ->
  let p := priority (threads s t) in
  let rest1 := erase (find t rest) rest in
  let leaves_band := isPreempted (threads s t)
                     && bool_decide (p <> preemptionPriority core) in
  let outranks := bool_decide (p < priority (threads s front))%Z in
  exists s',
    UpdatePriority t s = Ret tt s'
    /\ cores s' = alter (with_queue
                          (if outranks then front :: t :: rest1
                           else front :: insert_at (upper_bound (threads s) rest1 p) t rest1))
                        (coreId (threads s t)) (cores s)
    /\ trace s' = trace s
                  ++ (if leaves_band then [timer_disarm t] else [])
                  ++ (if outranks then [SendSignal front] else [])
    /\ isPreempted (threads s' t)
       = (if leaves_band then false else isPreempted (threads s t))
    /\ same_static (threads s) (threads s')
    /\ parkedQueue s' = parkedQueue s
    /\ tickReads s' = tickReads s.
Proof.
  intros Hcore Hq Hne Hin p rest1 leaves_band outranks.
  pose proof (find_elem_of t rest Hin) as Hfound.
  unfold UpdatePriority, bind, thread_obj, gets, cores_at.
  rewrite Hcore, Hq, (find_behind t front rest Hne).
  rewrite decide_False by (simpl; lia).
  rewrite decide_False by done.
  unfold ret. rewrite decide_False.
  2:{ intros Heq.
      assert ((front :: rest) !! S (find t rest) = Some t) as Hl
        by (simpl; by apply find_lookup).
      rewrite Heq in Hl. apply upper_bound_lookup in Hl. lia. }
  change (erase (S (find t rest)) (front :: rest)) with (front :: rest1).
  unfold put_queue, when, disarm, update_thread, emit, bind, ret.
  fold p. fold leaves_band.
  assert (Hub : forall ths : tid -> KThread,
            same_static (threads s) ths ->
            upper_bound ths (front :: rest1) p
            = if outranks then 0 else S (upper_bound (threads s) rest1 p)).
  { intros ths Hst. rewrite (upper_bound_ext (threads s)) by (intros u; apply Hst).
    rewrite upper_bound_cons. unfold IsHigherPriority, outranks. done. }
  destruct leaves_band; cbn [threads set_threads set_trace set_cores cores];
    [rewrite Hub by (apply same_static_alter; by intros [])
    |rewrite Hub by apply same_static_refl];
    destruct outranks;
    [rewrite decide_True by done;
     change (insert_at 1 t (front :: rest1)) with (front :: t :: rest1)
    |rewrite decide_False by (intros [? _]; done);
     change (insert_at (S (upper_bound (threads s) rest1 p)) t (front :: rest1))
       with (front :: insert_at (upper_bound (threads s) rest1 p) t rest1)
    |rewrite decide_True by done;
     change (insert_at 1 t (front :: rest1)) with (front :: t :: rest1)
    |rewrite decide_False by (intros [? _]; done);
     change (insert_at (S (upper_bound (threads s) rest1 p)) t (front :: rest1))
       with (front :: insert_at (upper_bound (threads s) rest1 p) t rest1)];
    (eexists; split; [reflexivity|]); cbn;
    rewrite alter_queue_twice, ?alter_same;
    (split_and!; try done;
     try (by rewrite <- ?app_assoc);
     try (by rewrite ?app_nil_r);
     try (apply same_static_alter; by intros [])).
Qed.

Lemma UpdatePriority_not_queued (s : SchedulerState) (t : tid) (core : CoreContext) :
  cores s !! coreId (threads s t) = Some core ->
  t ∉ queue core ->
  UpdatePriority t s = Ret tt s.
Proof.
  intros Hcore Hnot.
  unfold UpdatePriority, bind, ret, thread_obj, gets, cores_at.
  rewrite Hcore, (find_notin t (queue core) Hnot).
  by rewrite decide_True by (by left).
Qed.

(** X9: [UpdatePriority] only reorders the queue of the thread's core and
    never replaces the thread at its front: the queue afterwards is a
    permutation of the queue before with the same first entry, whether the
    thread is not queued, is the running thread, or waits behind it. *)
Theorem UpdatePriority_keeps_front (s : SchedulerState) (t : tid) (core : CoreContext) :
  cores s !! coreId (threads s t) = Some core ->
  exists s' q',
    UpdatePriority t s = Ret tt s'
    /\ cores s' = alter (with_queue q') (coreId (threads s t)) (cores s)
    /\ q' ≡ₚ queue core
    /\ head q' = head (queue core)
    /\ parkedQueue s' = parkedQueue s
    /\ same_static (threads s) (threads s').
Proof.
  intros Hcore.
  assert (Hsame : forall s', s' = s ->
            cores s' = alter (with_queue (queue core)) (coreId (threads s t)) (cores s)).
  { intros s' ->. symmetry. by apply alter_queue_same. }
  destruct (decide (t ∈ queue core)) as [Hin|Hnot].
  - destruct (queue core) as [|front rest] eqn:Hq; [by apply elem_of_nil in Hin|].
    destruct (decide (front = t)) as [->|Hne].
    + exists s, (t :: rest).
      split_and!; [|by apply Hsame|done..|apply same_static_refl].
      by apply (UpdatePriority_head_noop s t core rest).
    + apply elem_of_cons in Hin as [?|Hin]; [congruence|].
      destruct (UpdatePriority_moved s t core front rest Hcore Hq Hne Hin)
        as (s' & Hrun & Hcores & _ & _ & Hst & Hparked & _).
      eexists s', _. split; [exact Hrun|]. split; [exact Hcores|].
      assert (rest ≡ₚ t :: erase (find t rest) rest) as Hperm.
      { unfold erase. apply delete_Permutation. by apply find_lookup, find_elem_of. }
      split_and!; try done.
      * destruct (bool_decide _); apply perm_skip.
        -- by symmetry.
        -- rewrite insert_at_Permutation. by symmetry.
      * by destruct (bool_decide _).
  - exists s, (queue core).
    split_and!; [|by apply Hsame|done..|apply same_static_refl].
    by apply (UpdatePriority_not_queued s t core).
Qed.

(** X10: [UpdatePriority] puts a waiting thread where its new priority
    belongs.  When the queue is sorted apart from that thread, afterwards it
    is sorted from the second entry on; it is sorted as a whole and nobody is
    signalled when the thread does not outrank the running thread; when it
    does, it stands right behind the running thread, which is sent
    [YieldSignal].  The preemption timer of a thread that leaves the
    preemption priority of the core is disarmed. *)
Theorem UpdatePriority_resorts (s : SchedulerState) (t : tid) (core : CoreContext)
    (front : tid) (rest : list tid) :
  cores s !! coreId (threads s t) = Some core ->
  queue core = front :: rest ->
  front <> t ->
  t ∈ rest ->
  queue_sorted (threads s) (front :: erase (find t rest) rest) ->
  let p := priority (threads s t) in
  let disarmed := if isPreempted (threads s t)
                     && bool_decide (p <> preemptionPriority core)
                  then [timer_disarm t] else [] in
  exists s' q',
    UpdatePriority t s = Ret tt s'
    /\ cores s' = alter (with_queue q') (coreId (threads s t)) (cores s)
    /\ queue_sorted (threads s') (tail q')
    /\ (((priority (threads s front) <= p)%Z
         /\ queue_sorted (threads s') q'
         /\ trace s' = trace s ++ disarmed)
        \/ ((p < priority (threads s front))%Z
            /\ q' = front :: t :: erase (find t rest) rest
            /\ trace s' = trace s ++ disarmed ++ [SendSignal front]))
    /\ (isPreempted (threads s' t) = true ->
        isPreempted (threads s t) = true /\ p = preemptionPriority core).
Proof.
  intros Hcore Hq Hne Hin Hsorted p disarmed.
  destruct (UpdatePriority_moved s t core front rest Hcore Hq Hne Hin)
    as (s' & Hrun & Hcores & Htrace & Hpre & Hst & _).
  fold p in Hcores, Htrace, Hpre.
  set (rest1 := erase (find t rest) rest) in *.
  apply StronglySorted_cons in Hsorted as Hparts. destruct Hparts as [Hfront Hrest1].
  destruct (decide (p < priority (threads s front))%Z) as [Hout|Hout];
    [rewrite (bool_decide_eq_true_2 _ Hout) in Hcores, Htrace
    |rewrite (bool_decide_eq_false_2 _ Hout) in Hcores, Htrace];
    (eexists s', _; split; [exact Hrun|]; split; [exact Hcores|]); split_and!.
  - apply (queue_sorted_ext (threads s)); [done|]. cbn.
    apply StronglySorted_cons. split; [|done].
    eapply Forall_impl; [exact Hfront|]. unfold prio_le. intros u ?. fold p. lia.
  - right. split_and!; [done|done|]. by rewrite Htrace.
  - rewrite Hpre. intros Htrue.
    destruct (isPreempted (threads s t)); [|done].
    split; [done|].
    destruct (decide (p = preemptionPriority core)) as [Heq|Hneq]; [done|].
    by rewrite (bool_decide_eq_true_2 _ Hneq) in Htrue.
  - apply (queue_sorted_ext (threads s)); [done|]. cbn.
    by apply queue_sorted_insert_at.
  - left. split_and!; [lia| |by rewrite Htrace, app_nil_r].
    apply (queue_sorted_ext (threads s)); [done|].
    apply StronglySorted_cons. split.
    + apply Forall_forall. intros u Hu.
      rewrite insert_at_Permutation in Hu.
      apply elem_of_cons in Hu as [->|Hu]; [unfold prio_le; fold p; lia|].
      rewrite Forall_forall in Hfront. by apply Hfront.
    + by apply queue_sorted_insert_at.
  - rewrite Hpre. intros Htrue.
    destruct (isPreempted (threads s t)); [|done].
    split; [done|].
    destruct (decide (p = preemptionPriority core)) as [Heq|Hneq]; [done|].
    by rewrite (bool_decide_eq_true_2 _ Hneq) in Htrue.
Qed.

(** *** WakeParkedThread *)

(** X11: [WakeParkedThread] changes neither a core queue nor the parked
    queue.  When it returns it has either written nothing, or it has written
    the caller's [coreId] to the thread at the front of the parked queue and
    notified one wake condition, the caller's own; when it throws (the
    caller's [coreId] is no core) it has written nothing; it never blocks. *)
Theorem WakeParkedThread_frame (s : SchedulerState) (caller : option tid) :
  match WakeParkedThread caller s with
  | Ret _ s' =>
      cores s' = cores s
      /\ parkedQueue s' = parkedQueue s
      /\ (s' = s
          \/ exists t parked rest,
               caller = Some t
               /\ parkedQueue s = parked :: rest
               /\ threads s' = alter (with_coreId (coreId (threads s t))) parked (threads s)
               /\ trace s' = trace s ++ [notify_one t]
               /\ tickReads s' = tickReads s
               /\ YieldPending s' = YieldPending s)
  | Throw e s' => e = out_of_range /\ s' = s
  | Undef u => u = NullDeref
  | Wait _ => False
  end.
Proof.
  unfold WakeParkedThread, bind, deref, ret, thread_obj, gets, cores_at.
  destruct (parkedQueue s) as [|parked rest] eqn:Hpq; [by split_and!; [..|left]|].
  destruct caller as [t|]; [|done].
  destruct (cores s !! coreId (threads s t)) as [core|]; [|done].
  destruct (decide (1 < length (queue core))); [|done].
  destruct (queue core !! 1) as [nx|]; [|done].
  unfold when, update_thread, emit, bind.
  match goal with |- context [if ?b then _ else _] => destruct b end; cbn.
  - split_and!; [done|done|]. right. exists t, parked, rest. by split_and!.
  - split_and!; [done|done|by left].
Qed.

(** X12: with a next thread in the caller's queue, [WakeParkedThread]
    leaves the parked thread parked and writes nothing when that thread has
    a lower priority than the caller, and also when it has the caller's
    priority while the next thread has it too and its timeslice did not
    start after the parked thread's. *)
Theorem WakeParkedThread_declines (s : SchedulerState) (t : tid) (core : CoreContext)
    (parked : tid) (pq : list tid) (front nx : tid) (rest : list tid) :
  parkedQueue s = parked :: pq ->
  cores s !! coreId (threads s t) = Some core ->
  queue core = front :: nx :: rest ->
  (priority (threads s t) < priority (threads s parked))%Z
  \/ (priority (threads s parked) = priority (threads s t)
      /\ priority (threads s nx) = priority (threads s t)
      /\ (timesliceStart (threads s nx) <= timesliceStart (threads s parked))%Z) ->
  WakeParkedThread (Some t) s = Ret tt s.
Proof.
  intros Hpq Hcore Hq Hcond.
  unfold WakeParkedThread, bind, deref, ret, thread_obj, gets, cores_at.
  rewrite Hpq, Hcore, Hq. cbn.
  destruct (decide (1 < S (S (length rest)))) as [_|?]; [|lia]. cbn.
  destruct Hcond as [Hlow|(Heq & Hnx & Hstart)].
  - rewrite (bool_decide_eq_false_2 (priority (threads s parked) < priority (threads s t))%Z)
      by lia.
    rewrite (bool_decide_eq_false_2 (priority (threads s parked) = priority (threads s t)))
      by lia.
    done.
  - rewrite (bool_decide_eq_false_2 (priority (threads s parked) < priority (threads s t))%Z)
      by lia.
    rewrite decide_True by done.
    rewrite (bool_decide_eq_false_2
               (timesliceStart (threads s parked) < timesliceStart (threads s nx))%Z)
      by lia.
    by rewrite andb_false_r.
Qed.

(** *** ParkThread without a free core *)


(** *** LoadBalance: early exit, refusal, migration *)

(** X14: a thread pinned to one core, or one whose current core has an
    empty queue, is never migrated: [LoadBalance] returns the current core
    without reading the tick counter, the thread's [coreId] is unchanged and,
    without [alwaysInsert], the call only logs. *)
Theorem LoadBalance_early (s : SchedulerState) (caller : option tid) (t : tid)
    (alwaysInsert : bool) (cc : CoreContext) :
  cores s !! coreId (threads s t) = Some cc ->
  queue cc = [] \/ mask_count (affinityMask (threads s t)) = 1 ->
  exists sf,
    LoadBalance tickSource caller t alwaysInsert s = Ret (coreId (threads s t)) sf
    /\ coreId (threads sf t) = coreId (threads s t)
    /\ tickReads sf = tickReads s
    /\ parkedQueue sf = parkedQueue s
    /\ (alwaysInsert = false ->
        cores sf = cores s /\ threads sf = threads s
        /\ trace sf = trace s ++ [LogEarly t (id cc)]).
Proof.
  intros Hcc Hearly.
  unfold LoadBalance, bind, thread_obj, gets, cores_at. rewrite Hcc.
  assert (bool_decide (queue cc <> [])
          && bool_decide (mask_count (affinityMask (threads s t)) <> 1) = false) as ->.
  { destruct Hearly as [Hq|Hm].
    - by rewrite (bool_decide_eq_false_2 (queue cc <> [])) by (intros H; by apply H).
    - rewrite (bool_decide_eq_false_2 (mask_count _ <> 1)) by (intros H; by apply H).
      apply andb_false_r. }
  destruct alwaysInsert; unfold when.
  - destruct (InsertThread_effect s caller t cc Hcc)
      as (s2 & -> & _ & Hparked & Hticks & _ & Hcid).
    unfold emit, ret. eexists. split; [reflexivity|]. cbn.
    by split_and!.
  - unfold emit, ret. eexists. split; [reflexivity|]. cbn. by split_and!.
Qed.

(** The loop passes over cores the mask does not admit. *)
Lemma select_core_none (t : tid) (cur : nat) (cs : list CoreContext) (s : SchedulerState)
    (index : nat) (opt : option nat) (min : Z) :
  affinityMask (threads s t) = 0%Z ->
  select_core tickSource t cur cs index opt min s = Ret opt s.
Proof.
  intros Hmask. revert index. induction cs as [|c cs IH]; intros index; [done|].
  cbn [select_core]. unfold bind, thread_obj, gets. rewrite Hmask.
  unfold mask_test. rewrite Z.testbit_0_l. apply IH.
Qed.

(** X15: for a thread whose affinity mask is empty and whose current core
    has a non-empty queue, the loop selects no core and [LoadBalance] never
    returns one: it dereferences the null [optimalCore], or throws first
    when the thread is not the caller and [alwaysInsert] is not set. *)
Theorem LoadBalance_empty_mask (s : SchedulerState) (caller : option tid) (t : tid)
    (alwaysInsert : bool) (cc : CoreContext) :
  cores s !! coreId (threads s t) = Some cc ->
  queue cc <> [] ->
  affinityMask (threads s t) = 0%Z ->
  match LoadBalance tickSource caller t alwaysInsert s with
  | Ret _ _ | Wait _ => False
  | Undef u => u = NullDeref /\ (alwaysInsert = true \/ caller = Some t)
  | Throw e s' =>
      e = ExternalMigration /\ s' = s /\ alwaysInsert = false /\ caller <> Some t
  end.
Proof.
  intros Hcc Hq Hmask.
  unfold LoadBalance, bind, thread_obj, gets, cores_at. rewrite Hcc.
  rewrite (bool_decide_eq_true_2 _ Hq), Hmask.
  rewrite (bool_decide_eq_true_2 (mask_count 0 <> 1)) by done.
  cbn [andb]. rewrite select_core_none by done.
  rewrite decide_True by done.
  destruct alwaysInsert; cbn [negb andb].
  - split; [done|by left].
  - destruct (decide (Some t = caller)) as [<-|Hext].
    + rewrite bool_decide_eq_true_2 by done.
      destruct (RemoveThread_effect s t cc Hcc) as (s2 & -> & _).
      split; [done|by right].
    + rewrite bool_decide_eq_false_2 by done.
      rewrite bool_decide_eq_true_2 by done. by split_and!.
Qed.



(** X17: when the loop has chosen a core other than the current one for a
    thread that is not the caller, [LoadBalance] without [alwaysInsert]
    throws, having changed nothing but the count of tick reads: the thread
    stays queued where it was and keeps its [coreId]. *)
Theorem LoadBalance_refuses (s s1 : SchedulerState) (caller : option tid) (t : tid)
    (cc : CoreContext) (o : nat) :
  cores s !! coreId (threads s t) = Some cc ->
  queue cc <> [] ->
  mask_count (affinityMask (threads s t)) <> 1 ->
  select_core tickSource t (coreId (threads s t)) (cores s) 0 None 0 s = Ret (Some o) s1 ->
  o <> coreId (threads s t) ->
  caller <> Some t ->
  LoadBalance tickSource caller t false s = Throw ExternalMigration s1
  /\ cores s1 = cores s /\ threads s1 = threads s /\ parkedQueue s1 = parkedQueue s
  /\ trace s1 = trace s /\ YieldPending s1 = YieldPending s.
Proof.
  intros Hcc Hq Hcount Hsel Hne Hext.
  destruct (select_core_returns t (coreId (threads s t)) (cores s) s 0 None 0)
    as (opt' & s1' & Hsel' & [n ->]).
  rewrite Hsel in Hsel'. injection Hsel' as <- ->.
  unfold LoadBalance, bind, thread_obj, gets, cores_at.
  rewrite Hcc.
  rewrite (bool_decide_eq_true_2 _ Hq), (bool_decide_eq_true_2 _ Hcount).
  cbn [andb]. rewrite Hsel.
  rewrite decide_True by congruence.
  cbn [negb andb].
  rewrite bool_decide_eq_false_2 by congruence.
  rewrite bool_decide_eq_true_2 by congruence.
  by split_and!.
Qed.

(** *** Waiting for the core *)

(** A thread balancing itself is never refused: the call returns, or fails
    on a core id out of range or on the null [optimalCore]. *)
Lemma LoadBalance_self_outcome (s : SchedulerState) (t : tid) (alwaysInsert : bool) :
  match LoadBalance tickSource (Some t) t alwaysInsert s with
  | Ret _ _ => True
  | Throw e _ => e = out_of_range
  | Undef u => u = NullDeref
  | Wait _ => False
  end.
Proof.
  unfold LoadBalance. unfold bind at 1. unfold thread_obj, gets.
  unfold bind at 1. unfold cores_at.
  destruct (cores s !! coreId (threads s t)) as [cc|] eqn:Hcc; [|done].
  assert (Hins : forall (s0 : SchedulerState) (e : Event) (r : nat),
            match (when alwaysInsert (InsertThread (Some t) t) ;; emit e ;; ret r) s0 with
            | Ret _ _ => True
            | Throw e _ => e = out_of_range
            | Undef u => u = NullDeref
            | Wait _ => False
            end).
  { intros s0 e r. unfold bind at 1. destruct alwaysInsert; unfold when; [|done].
    destruct (cores s0 !! coreId (threads s0 t)) as [c0|] eqn:Hc0.
    - by destruct (InsertThread_effect s0 (Some t) t c0 Hc0) as (s2 & -> & _).
    - unfold InsertThread, bind, thread_obj, gets, cores_at. by rewrite Hc0. }
  destruct (bool_decide (queue cc <> [])
            && bool_decide (mask_count (affinityMask (threads s t)) <> 1)); [|apply Hins].
  unfold bind at 1. unfold gets. unfold bind at 1.
  destruct (select_core_returns t (coreId (threads s t)) (cores s) s 0 None 0)
    as (opt & s1 & -> & [n ->]).
  set (s1 := set_tickReads n s).
  destruct (decide (opt <> Some (coreId (threads s t)))) as [Hne|Heq]; [|apply Hins].
  unfold bind at 1.
  assert (Hmove : forall s2 : SchedulerState,
            match (match opt with
                   | None => undef NullDeref
                   | Some o =>
                       oc <- cores_at o ;
                       update_thread t (with_coreId (id oc)) ;;
                       InsertThread (Some t) t ;;
                       emit (LogMigrate t (id cc) (id oc)) ;;
                       ret o
                   end) s2 with
            | Ret _ _ => True
            | Throw e _ => e = out_of_range
            | Undef u => u = NullDeref
            | Wait _ => False
            end).
  { intros s2. destruct opt as [o|]; [|done].
    unfold bind at 1. unfold cores_at.
    destruct (cores s2 !! o) as [oc|]; [|done].
    unfold bind at 1. unfold update_thread.
    set (s3 := set_threads _ s2). unfold bind at 1.
    destruct (cores s3 !! coreId (threads s3 t)) as [c3|] eqn:Hc3.
    - by destruct (InsertThread_effect s3 (Some t) t c3 Hc3) as (s4 & -> & _).
    - unfold InsertThread, bind, thread_obj, gets, cores_at. by rewrite Hc3. }
  destruct alwaysInsert; cbn [negb andb].
  - apply Hmove.
  - rewrite bool_decide_eq_true_2 by done.
    destruct (RemoveThread_effect s1 t cc Hcc) as (s2 & -> & _).
    apply Hmove.
Qed.

Lemma wait_rounds_outcome (c : nat) (t : tid)
    (rounds : list (SchedulerState -> SchedulerState)) (s : SchedulerState) :
  match wait_rounds (is_front c t) rounds s with
  | Ret _ s' => is_front c t s' = true
  | Wait _ => True
  | Throw _ _ | Undef _ => False
  end.
Proof.
  revert s. induction rounds as [|others later IH]; intros s; [done|].
  cbn [wait_rounds]. unfold bind, wait_for.
  destruct (is_front c t (others s)) eqn:Hfront; [done|apply IH].
Qed.

Lemma wait_balancing_outcome (t : tid)
    (rounds : list (SchedulerState -> SchedulerState)) (c : nat) (core : CoreContext)
    (s : SchedulerState) :
  match wait_balancing tickSource defaultAlwaysInsert t c core rounds s with
  | Ret final s' => is_front (fst final) t s' = true
  | Throw e _ => e = out_of_range
  | Undef u => u = NullDeref
  | Wait _ => True
  end.
Proof.
  revert c core s. induction rounds as [|others later IH]; intros c core s; [done|].
  cbn [wait_balancing]. unfold bind at 1. unfold wait_for.
  destruct (is_front c t (others s)) eqn:Hfront; [done|].
  unfold bind at 1.
  pose proof (LoadBalance_self_outcome (others s) t defaultAlwaysInsert) as Hlb.
  destruct (LoadBalance tickSource (Some t) t defaultAlwaysInsert (others s))
    as [r s1|e s1|u|s1]; try done.
  unfold bind at 1. unfold thread_obj, gets.
  destruct (decide (coreId (threads s1 t) = id core)); [apply IH|].
  unfold bind at 1. unfold cores_at.
  destruct (cores s1 !! coreId (threads s1 t)) as [core'|]; [apply IH|done].
Qed.

(** X18: [WaitSchedule] returns only with the caller at the front of the
    queue of a core, the caller's own core when it does not balance, with
    the timeslice started at the tick it read last.  It is never refused a
    migration and never fails in [Rotate]'s ways: the only failures are a
    core id out of range and the null [optimalCore] of [LoadBalance]. *)
Theorem WaitSchedule_returns_scheduled (s : SchedulerState) (t : tid) (loadBalance : bool)
    (rounds : list (SchedulerState -> SchedulerState)) :
  match WaitSchedule tickSource defaultAlwaysInsert (Some t) loadBalance rounds s with
  | Ret _ s' =>
      exists c core front_rest,
        cores s' !! c = Some core
        /\ queue core = t :: front_rest
        /\ (loadBalance = false \/ mask_count (affinityMask (threads s t)) <= 1 ->
            c = coreId (threads s t))
        /\ tickReads s' <> 0
        /\ timesliceStart (threads s' t) = u64 (tickSource (pred (tickReads s')))
  | Throw e _ => e = out_of_range
  | Undef u => u = NullDeref
  | Wait _ => True
  end.
Proof.
  unfold WaitSchedule. unfold bind at 1. unfold deref, ret.
  unfold bind at 1. unfold thread_obj, gets.
  unfold bind at 1. unfold cores_at.
  destruct (cores s !! coreId (threads s t)) as [core|]; [|done].
  assert (Hrest : forall (final : nat * CoreContext) (s1 : SchedulerState),
            is_front (fst final) t s1 = true ->
            exists s' core' rest,
              (th' <- gets (fun s0 => threads s0 t) ;
               when (bool_decide (priority th' = preemptionPriority (snd final))) (arm t) ;;
               now <- GetTimeTicks tickSource ;
               update_thread t (with_timesliceStart now)) s1 = Ret tt s'
              /\ cores s' !! fst final = Some core'
              /\ queue core' = t :: rest
              /\ tickReads s' <> 0
              /\ timesliceStart (threads s' t) = u64 (tickSource (pred (tickReads s')))).
  { intros final s1 Hfront. unfold is_front in Hfront.
    destruct (cores s1 !! fst final) as [core'|] eqn:Hcore'; [|done].
    destruct (queue core') as [|front rest] eqn:Hq; [done|].
    apply bool_decide_eq_true_1 in Hfront. subst front.
    unfold bind, gets, when, arm, emit, update_thread, GetTimeTicks, bind, ret.
    destruct (bool_decide _); eexists _, core', rest;
      (split; [reflexivity|]); cbn; rewrite alter_same; by cbn. }
  destruct (loadBalance && bool_decide (1 < mask_count (affinityMask (threads s t))))
    eqn:Hlb.
  - unfold bind at 1.
    pose proof (wait_balancing_outcome t rounds (coreId (threads s t)) core s) as Hwait.
    destruct (wait_balancing _ _ _ _ _ _ _) as [final s1|e s1|u|s1]; try done.
    destruct (Hrest final s1 Hwait) as (s' & core' & rest & Hrun & ? & ? & ? & ?).
    unfold gets in Hrun. rewrite Hrun.
    exists (fst final), core', rest. split_and!; try done.
    apply andb_true_iff in Hlb as [-> Hcount%bool_decide_eq_true_1].
    intros [?|?]; [done|lia].
  - unfold bind at 1. unfold bind at 1.
    pose proof (wait_rounds_outcome (coreId (threads s t)) t rounds s) as Hwait.
    destruct (wait_rounds _ _ _) as [[] s1|e s1|u|s1]; try done.
    destruct (Hrest (coreId (threads s t), core) s1 Hwait)
      as (s' & core' & rest & Hrun & ? & ? & ? & ?).
    unfold gets in Hrun. rewrite Hrun.
    exists (coreId (threads s t)), core', rest. by split_and!.
Qed.

(** X19: when the caller is at the front of the queue of its core at the
    return of the wait, [TimedWaitSchedule] returns [true]: it starts the
    timeslice at the tick it reads, arms the preemption timer exactly when
    the caller's priority is the preemption priority of the core, and
    writes nothing else; [WaitSchedule], woken the first time in the same
    state, returns having done the same.  The other threads are taken to
    leave the preemption priority of the core as the constructor set it, as
    the operations of the scheduler do. *)
Theorem TimedWaitSchedule_scheduled (s : SchedulerState) (t : tid) (core : CoreContext)
    (others : SchedulerState -> SchedulerState) (loadBalance : bool)
    (later : list (SchedulerState -> SchedulerState)) :
  cores s !! coreId (threads s t) = Some core ->
  (forall core', cores (others s) !! coreId (threads s t) = Some core' ->
                 preemptionPriority core' = preemptionPriority core) ->
  is_front (coreId (threads s t)) t (others s) = true ->
  let s1 := others s in
  let preempted := bool_decide (priority (threads s1 t) = preemptionPriority core) in
  exists s',
    TimedWaitSchedule tickSource (Some t) others s = Ret true s'
    /\ WaitSchedule tickSource defaultAlwaysInsert (Some t) loadBalance (others :: later) s
       = Ret tt s'
    /\ cores s' = cores s1
    /\ parkedQueue s' = parkedQueue s1
    /\ YieldPending s' = YieldPending s1
    /\ tickReads s' = S (tickReads s1)
    /\ trace s' = trace s1 ++ (if preempted then [timer_arm t] else [])
    /\ timesliceStart (threads s' t) = u64 (tickSource (tickReads s1))
    /\ isPreempted (threads s' t) = preempted || isPreempted (threads s1 t)
    /\ averageTimeslice (threads s' t) = averageTimeslice (threads s1 t)
    /\ coreId (threads s' t) = coreId (threads s1 t)
    /\ same_static (threads s1) (threads s')
    /\ (forall u, u <> t -> threads s' u = threads s1 u).
Proof.
  intros Hcore _ Hfront s1 preempted.
  unfold TimedWaitSchedule, WaitSchedule, bind, deref, ret, thread_obj, gets, cores_at.
  rewrite Hcore.
  cbn [wait_balancing wait_rounds]. unfold bind, wait_for, ret.
  destruct (loadBalance && bool_decide (1 < mask_count (affinityMask (threads s t))));
    cbn beta; rewrite Hfront; cbn [snd]; fold s1; fold preempted;
    unfold when, arm, emit, update_thread, GetTimeTicks, bind.
  all:
  destruct preempted; eexists; (split; [reflexivity|]); (split; [reflexivity|]); cbn;
    rewrite ?alter_same; cbn; split_and!; try done;
    try (by rewrite app_nil_r);
    try (intros u Hu; by rewrite !alter_other by done).
  all: repeat (eapply same_static_trans; [|apply same_static_alter; by intros []]).
  all: apply same_static_refl.
Qed.

(** *** The signal handler *)


(** X21: the handler of the running thread with another thread of its
    priority next in the queue hands the core over: the thread goes back
    in the queue, the next thread comes to the front and is notified, the
    preemption timer is not disarmed although [isPreempted] is cleared,
    [YieldPending] is cleared, and the handler goes on in [WaitSchedule],
    where it blocks if it is never woken. *)
Theorem SignalHandler_hands_over (s : SchedulerState) (t u : tid) (core : CoreContext)
    (rest : list tid) (rounds : list (SchedulerState -> SchedulerState)) :
  cores s !! coreId (threads s t) = Some core ->
  queue core = t :: u :: rest ->
  u <> t ->
  priority (threads s u) = priority (threads s t) ->
  exists s2 k,
    SignalHandler tickSource defaultAlwaysInsert defaultLoadBalance t true rounds s
    = WaitSchedule tickSource defaultAlwaysInsert (Some t) defaultLoadBalance rounds s2
    /\ (rounds = [] ->
        SignalHandler tickSource defaultAlwaysInsert defaultLoadBalance t true rounds s
        = Wait s2)
    /\ cores s2 = alter (with_queue (u :: take k rest ++ t :: drop k rest))
                    (coreId (threads s t)) (cores s)
    /\ trace s2 = trace s ++ [notify_one u]
    /\ YieldPending s2 t = false
    /\ isPreempted (threads s2 t) = false
    /\ forceYield (threads s2 t) = false
    /\ coreId (threads s2 t) = coreId (threads s t)
    /\ parkedQueue s2 = parkedQueue s.
Proof.
  intros Hcore Hq Hne Hprio.
  destruct (Rotate_head s t false core (u :: rest) Hcore Hq)
    as (s1 & Hrun & _ & Hparked & _ & Hcid & Hforce & Hpre & _).
  destruct (Rotate_head_events s t false core (u :: rest) Hcore Hq)
    as (s1' & Hrun' & Hcores & Htrace & _ & _ & Hyield).
  rewrite Hrun in Hrun'. injection Hrun' as <-.
  rewrite !upper_bound_cons in Hcores, Htrace. unfold IsHigherPriority in Hcores, Htrace.
  rewrite Hprio in Hcores, Htrace.
  rewrite !bool_decide_eq_false_2 in Hcores, Htrace by lia.
  set (k := upper_bound (threads s) rest (priority (threads s t))) in *.
  change (splice_front (S (S k)) (t :: u :: rest))
    with (u :: take k rest ++ t :: drop k rest) in Hcores, Htrace.
  cbn iota in Htrace. destruct (decide (u = t)) as [?|_]; [done|]. cbn [andb] in Htrace.
  rewrite app_nil_r in Htrace.
  set (s2 := set_YieldPending (<[t := false]> (YieldPending s1)) s1).
  assert (Hwait : SignalHandler tickSource defaultAlwaysInsert defaultLoadBalance
                    t true rounds s
                  = WaitSchedule tickSource defaultAlwaysInsert (Some t)
                      defaultLoadBalance rounds s2).
  { unfold SignalHandler. unfold bind at 1. rewrite Hrun. by unfold bind at 1. }
  exists s2, k. split_and!; try done.
  - intros ->. rewrite Hwait.
    assert (cores s2 !! coreId (threads s2 t)
            = Some (with_queue (u :: take k rest ++ t :: drop k rest) core)) as Hcore2.
    { change (cores s2) with (cores s1). change (threads s2) with (threads s1).
      rewrite Hcores, Hcid, list_lookup_alter, Hcore. by rewrite decide_True. }
    unfold WaitSchedule, bind, deref, ret, thread_obj, gets, cores_at.
    rewrite Hcore2.
    by destruct (defaultLoadBalance && _).
  - unfold s2. cbn. apply fn_lookup_insert.
  - apply Hcid.
Qed.

(** *** A thread inserting itself in front of the running thread *)


(** *** What no operation writes *)

Lemma same_cores_refl (cs : list CoreContext) : Forall2 same_core cs cs.
Proof. apply Forall_Forall2_diag, Forall_forall. by intros c _. Qed.

Lemma same_cores_alter (cs : list CoreContext) (i : nat) (q : list tid) :
  Forall2 same_core cs (alter (with_queue q) i cs).
Proof.
  revert i. induction cs as [|c cs IH]; intros i; [constructor|].
  destruct i as [|i]; cbn.
  - constructor; [done|apply same_cores_refl].
  - constructor; [done|apply IH].
Qed.

Lemma same_cores_trans (a b c : list CoreContext) :
  Forall2 same_core a b -> Forall2 same_core b c -> Forall2 same_core a c.
Proof.
  intros Hab. revert c.
  induction Hab as [|x y a b [? ?] Hab IH]; intros c Hbc;
    inversion Hbc as [|? z ? c' [? ?] Hbc']; subst; constructor;
    [split; congruence|by apply IH].
Qed.

Lemma static_frame_refl (s : SchedulerState) : static_frame s s.
Proof. split_and!; [apply same_static_refl|apply same_cores_refl|done]. Qed.

Lemma static_frame_trans (a b c : SchedulerState) :
  static_frame a b -> static_frame b c -> static_frame a c.
Proof.
  intros (Hst & Hcs & Hpq) (Hst' & Hcs' & Hpq'). split_and!.
  - by eapply same_static_trans.
  - by eapply same_cores_trans.
  - by etrans.
Qed.

(** A step that assigns at most one queue and keeps the parked queue. *)
Lemma static_frame_step (s s' : SchedulerState) :
  same_static (threads s) (threads s') ->
  (cores s' = cores s \/ exists i q, cores s' = alter (with_queue q) i (cores s)) ->
  parkedQueue s' = parkedQueue s ->
  static_frame s s'.
Proof.
  intros Hst Hcores Hpq. split_and!; [done| |by rewrite Hpq].
  destruct Hcores as [->|(i & q & ->)]; [apply same_cores_refl|apply same_cores_alter].
Qed.

Lemma sublist_insert_at (k : nat) (t : tid) (q : list tid) : sublist q (insert_at k t q).
Proof.
  unfold insert_at. rewrite <- (take_drop k q) at 1.
  apply sublist_app; [done|]. by apply sublist_cons.
Qed.

Lemma InsertThread_static (s0 s : SchedulerState) (caller : option tid) (t : tid) :
  static_frame s0 s ->
  wp (InsertThread caller t) s (fun _ => static_frame s0) (static_frame s0).
Proof.
  intros Hs. eapply wp_mono; [apply InsertThread_wp| |by intros s' ->].
  intros _ s' (core & _ & Hcores & Hpq & Hst & _).
  eapply static_frame_trans; [exact Hs|].
  apply static_frame_step; [done|right; by eexists _, _|done].
Qed.

Lemma RemoveThread_static (s0 s : SchedulerState) (caller : option tid) :
  static_frame s0 s ->
  wp (RemoveThread tickSource caller) s (fun _ => static_frame s0) (static_frame s0).
Proof.
  intros Hs. eapply wp_mono; [apply RemoveThread_wp| |by intros s' ->].
  intros _ s' (t & core & _ & _ & Hcores & Hpq & Hst & _).
  eapply static_frame_trans; [exact Hs|].
  apply static_frame_step; [done|right; by eexists _, _|done].
Qed.

Lemma Rotate_static (s : SchedulerState) (caller : option tid) (cooperative : bool) :
  leaves (Rotate tickSource caller cooperative) s (static_frame s).
Proof.
  destruct caller as [t|]; [|done].
  destruct (cores s !! coreId (threads s t)) as [core|] eqn:Hcore.
  - destruct (queue core) as [|front rest] eqn:Hq.
    { unfold leaves, Rotate, bind, deref, ret, thread_obj, gets, cores_at.
      by rewrite Hcore, Hq. }
    destruct (decide (front = t)) as [->|Hne].
    + destruct (Rotate_head s t cooperative core rest Hcore Hq)
        as (s' & Hrun & Hcores & Hpq & Hst & _).
      unfold leaves. rewrite Hrun.
      apply static_frame_step; [done|right; by eexists _, _|done].
    + destruct (forceYield (threads s t)) eqn:Hforce.
      * destruct (found_in_band (threads s) t (queue core)) eqn:Hfound.
        -- destruct (Rotate_forced s t cooperative core front rest Hcore Hq Hne Hforce Hfound)
             as (s' & Hrun & Hcores & Hpq & Hst & _).
           unfold leaves. rewrite Hrun. apply static_frame_step; [done|by left|done].
        -- unfold leaves.
           rewrite (Rotate_throws s t cooperative core front rest Hcore Hq Hne)
             by (left; done).
           apply static_frame_refl.
      * unfold leaves.
        rewrite (Rotate_throws s t cooperative core front rest Hcore Hq Hne)
          by (right; done).
        apply static_frame_refl.
  - unfold leaves, Rotate, bind, deref, ret, thread_obj, gets, cores_at.
    rewrite Hcore. apply static_frame_refl.
Qed.

Lemma UpdatePriority_static (s : SchedulerState) (thread : tid) :
  leaves (UpdatePriority thread) s (static_frame s).
Proof.
  unfold leaves, UpdatePriority, bind, thread_obj, gets, cores_at.
  destruct (cores s !! coreId (threads s thread)) as [core|] eqn:Hcore;
    [|apply static_frame_refl].
  set (k := find thread (queue core)).
  destruct (decide (k = length (queue core) \/ k = 0)) as [|Hk];
    [apply static_frame_refl|].
  destruct (decide (k = 0)) as [?|_]; [by destruct Hk; right|].
  unfold ret. case_decide; [apply static_frame_refl|].
  unfold put_queue, when, disarm, update_thread, emit, bind, ret.
  destruct (isPreempted (threads s thread)
            && bool_decide (priority (threads s thread) <> preemptionPriority core));
    cbn [threads set_threads set_trace set_cores cores];
    (case_decide; [destruct (insert_at 1 thread (erase k (queue core))); [done|]|]); cbn;
    (apply static_frame_step; cbn;
     [first [apply same_static_refl|apply same_static_alter; by intros []]
     |rewrite ?alter_queue_twice; first [by left|right; by eexists _, _]
     |done]).
Qed.

Lemma LoadBalance_static (s : SchedulerState) (caller : option tid) (thread : tid)
    (alwaysInsert : bool) :
  leaves (LoadBalance tickSource caller thread alwaysInsert) s (static_frame s).
Proof.
  assert (Hinsert : forall (s0 : SchedulerState) (ev : Event) (r : nat),
            static_frame s s0 ->
            wp (when alwaysInsert (InsertThread caller thread) ;; emit ev ;; ret r) s0
               (fun _ => static_frame s) (static_frame s)).
  { intros s0 ev r Hs0. apply wp_bind. apply wp_when.
    - intros _. eapply wp_mono; [by apply (InsertThread_static s)| |done].
      by intros [] s' Hs'.
    - by intros _. }
  assert (Hmove : forall (s0 : SchedulerState) (cc : CoreContext) (o : nat),
            static_frame s s0 ->
            wp (oc <- cores_at o ;
                update_thread thread (with_coreId (id oc)) ;;
                InsertThread caller thread ;;
                emit (LogMigrate thread (id cc) (id oc)) ;;
                ret o) s0
               (fun _ => static_frame s) (static_frame s)).
  { intros s0 cc o Hs0. apply wp_bind. unfold wp at 1, cores_at.
    destruct (cores s0 !! o) as [oc|]; [|done].
    apply wp_bind. cbn. apply wp_bind.
    eapply wp_mono; [apply (InsertThread_static s)| |done].
    - eapply static_frame_trans; [exact Hs0|].
      apply static_frame_step; [apply same_static_alter; by intros []|by left|done].
    - by intros [] s' Hs'. }
  change (wp (LoadBalance tickSource caller thread alwaysInsert) s
            (fun _ => static_frame s) (static_frame s)).
  pose proof (static_frame_refl s) as Hs.
  unfold LoadBalance. apply wp_bind. cbn. apply wp_bind. unfold wp at 1, cores_at.
  destruct (cores s !! coreId (threads s thread)) as [cc|]; [|done].
  destruct (bool_decide (queue cc <> [])
            && bool_decide (mask_count (affinityMask (threads s thread)) <> 1));
    [|by apply Hinsert].
  apply wp_bind. cbn. apply wp_bind.
  destruct (select_core_returns thread (coreId (threads s thread)) (cores s) s 0 None 0)
    as (opt & s1 & Hsel & [n ->]).
  unfold wp at 1. rewrite Hsel.
  assert (Hs1 : static_frame s (set_tickReads n s)) by done.
  case_decide; [|by apply Hinsert].
  apply wp_bind.
  destruct opt as [o|].
  - destruct (negb alwaysInsert && bool_decide (Some thread = caller)).
    + eapply wp_mono; [by apply (RemoveThread_static s)| |done].
      intros [] s2 Hs2. by apply Hmove.
    + destruct (negb alwaysInsert && bool_decide (Some thread <> caller)); cbn.
      * done.
      * by apply Hmove.
  - destruct (negb alwaysInsert && bool_decide (Some thread = caller)).
    + eapply wp_mono; [by apply (RemoveThread_static s)| |done].
      by intros [] s2 _.
    + by destruct (negb alwaysInsert && bool_decide (Some thread <> caller)); cbn.
Qed.

Lemma ParkThread_static (s : SchedulerState) (caller : option tid) :
  leaves (ParkThread tickSource ParkedCoreId caller) s (static_frame s).
Proof.
  change (wp (ParkThread tickSource ParkedCoreId caller) s
            (fun _ => static_frame s) (static_frame s)).
  destruct caller as [t|]; [|done].
  unfold ParkThread. apply wp_bind. cbn. apply wp_bind.
  eapply wp_mono; [apply (RemoveThread_static s), static_frame_refl| |done].
  intros [] s1 Hs1.
  apply wp_bind. cbn. apply wp_bind. cbn. apply wp_bind. cbn. apply wp_bind.
  set (s2 := set_threads _ s1).
  assert (Hs2 : static_frame s s2).
  { eapply static_frame_trans; [exact Hs1|].
    apply static_frame_step; [apply same_static_alter; by intros []|by left|done]. }
  destruct (scan_cores_effect (cores s1) s2 t (coreId (threads s1 t)))
    as (s3 & Hscan & Hcores3 & Hpq3 & Hst3 & _).
  unfold wp at 1. rewrite Hscan.
  assert (Hs3 : static_frame s s3).
  { eapply static_frame_trans; [exact Hs2|]. apply static_frame_step; [done|by left|done]. }
  apply wp_bind. cbn. apply wp_bind.
  apply wp_when; [|by intros _; apply InsertThread_static].
  intros _. apply wp_bind. cbn. apply wp_bind. cbn. apply wp_bind. cbn.
  set (s4 := set_parkedQueue _ s3).
  assert (Hs4 : static_frame s s4).
  { eapply static_frame_trans; [exact Hs3|].
    split_and!; [apply same_static_refl|apply same_cores_refl|apply sublist_insert_at]. }
  unfold wp at 1, wait.
  match goal with |- context [if ?b then _ else _] => destruct b end.
  - by apply InsertThread_static.
  - done.
Qed.

(** X23: whatever [InsertThread], [Rotate], [UpdatePriority], [RemoveThread],
    [LoadBalance], [ParkThread] or [WakeParkedThread] does, and whether it
    returns, throws or blocks (nothing is said of undefined behaviour), it
    changes no thread's priority or affinity mask and no core's id or
    preemption priority, keeps the number of cores, and takes no thread out
    of the parked queue: the threads parked before are parked after, in the
    same order. *)
Theorem scheduler_static_frame (op : operation) (s : SchedulerState)
    (caller : option tid) :
  leaves (run tickSource ParkedCoreId op) s (static_frame s)
  /\ leaves (WakeParkedThread caller) s (static_frame s).
Proof.
  split.
  - destruct op as [c t|c coop|t|c|c t ai|c]; cbn [run].
    + apply (InsertThread_static s), static_frame_refl.
    + apply Rotate_static.
    + apply UpdatePriority_static.
    + apply (RemoveThread_static s), static_frame_refl.
    + apply leaves_discard, LoadBalance_static.
    + apply ParkThread_static.
  - unfold leaves, WakeParkedThread, bind, deref, ret, thread_obj, gets, cores_at.
    destruct (parkedQueue s) as [|parked pq]; [apply static_frame_refl|].
    destruct caller as [t|]; [|done].
    destruct (cores s !! coreId (threads s t)) as [core|]; [|apply static_frame_refl].
    destruct (if decide (1 < length (queue core)) then queue core !! 1 else None)
      as [nx|]; [|done].
    unfold when, update_thread, emit, bind.
    match goal with |- context [if ?b then _ else _] => destruct b end.
    + apply static_frame_step; cbn; [apply same_static_alter; by intros []|by left|done].
    + apply static_frame_refl.
Qed.

(** *** The projected wait of a candidate core *)

Lemma resident_share_skips (ths : tid -> KThread) (p : Z) (residents : list tid)
    (timeslice : Z) :
  (forall u, u ∈ residents -> (p < priority (ths u))%Z) ->
  resident_share ths p residents timeslice = timeslice.
Proof.
  revert timeslice. induction residents as [|r residents IH]; intros timeslice Hlow; [done|].
  cbn [resident_share].
  rewrite decide_False by (pose proof (Hlow r ltac:(left)); lia).
  apply IH. intros u Hu. apply Hlow. by right.
Qed.

(** X24: a running thread with a non-zero average timeslice adds at most one
    tick to the projected wait of its core, whatever is left of its
    timeslice ([std::min] with [1UL]); with no resident of the candidate's
    priority or above behind it, the whole projected wait of the core is 0 or
    1, from one read of the tick counter. *)
Theorem projected_wait_running_thread (s : SchedulerState) (t : tid) (c : CoreContext)
    (running : tid) (residents : list tid) :
  queue c = running :: residents ->
  averageTimeslice (threads s running) <> 0%Z ->
  (forall u, u ∈ residents -> (priority (threads s t) < priority (threads s u))%Z) ->
  exists w,
    projected_wait tickSource t c s = Ret w (set_tickReads (S (tickReads s)) s)
    /\ w = Z.min (u64 (averageTimeslice (threads s running)
                       - u64 (u64 (tickSource (tickReads s))
                              - timesliceStart (threads s running)))) 1
    /\ (0 <= w <= 1)%Z.
Proof.
  intros Hq Havg Hlow.
  unfold projected_wait, running_share, bind, thread_obj, gets, GetTimeTicks, ret.
  rewrite Hq. rewrite decide_True by done.
  cbn [threads set_tickReads].
  rewrite resident_share_skips by done.
  set (left := u64 (averageTimeslice (threads s running) - _)).
  assert (0 <= left)%Z as Hnn.
  { unfold left, u64. apply Z.mod_pos_bound. lia. }
  assert (u64 (0 + Z.min left 1) = Z.min left 1) as ->.
  { unfold u64. apply Z.mod_small. lia. }
  eexists. split_and!; [done|done|lia|lia].
Qed.

End Properties.

(** ** The operations run on concrete schedulers *)

(** C1: a thread whose average is 100 ticks, which became the running
    thread at tick 1000 and rotates at tick 1100 (a sample of 100 ticks),
    leaves [Rotate] with an average of [100/4 + 3 * (1100 - 1000/4) = 2575]
    ticks: neither [old/4 + 3*(now - start)/4] nor a value between the old
    average and the sample. *)
Theorem Rotate_averageTimeslice_at_steady_thread :
  exists s',
    Rotate (ticks_at 1100) (Some 0) true steady_scheduler = Ret tt s'
    /\ averageTimeslice (threads s' 0) = 2575%Z
    /\ (2575 <> 100 / 4 + 3 * (1100 - 1000) / 4)%Z
    /\ ~ (Z.min 100 (1100 - 1000) <= 2575 <= Z.max 100 (1100 - 1000))%Z.
Proof.
  eexists. split; [vm_compute; reflexivity|].
  split; [vm_compute; reflexivity|].
  split; [by vm_compute|].
  intros [_ Hle]. by vm_compute in Hle.
Qed.

(** C3: with a parked thread of strictly higher priority and the caller
    alone in the queue of its core, [WakeParkedThread] evaluates
    [nextThread->priority] on the null [nextThread]: the behaviour is
    undefined, the parked head is not given the core. *)
Theorem WakeParkedThread_lone_runner_undefined :
  parkedQueue lone_runner_with_parked = [1]
  /\ Z.lt (priority (threads lone_runner_with_parked 1))
          (priority (threads lone_runner_with_parked 0))
  /\ WakeParkedThread (Some 0) lone_runner_with_parked = Undef NullDeref.
Proof.
  split; [reflexivity|]. split; [by vm_compute|].
  apply (WakeParkedThread_short_queue lone_runner_with_parked 0 (mkCore 0 59 [0]) 1 []);
    [reflexivity|reflexivity|simpl; lia].
Qed.

(** C5: [UpdatePriority] on the running thread returns at once.  The thread
    behind it has strictly higher priority and no [YieldSignal] is sent; the
    new priority is the preemption priority of the core, the timer is not
    armed, and it stays so. *)
Theorem UpdatePriority_running_thread_ignored :
  Z.lt (priority (threads lowered_runner 1)) (priority (threads lowered_runner 0))
  /\ UpdatePriority 0 lowered_runner = Ret tt lowered_runner
  /\ trace lowered_runner = []
  /\ priority (threads runner_at_preemption_priority 0) = 59%Z
  /\ isPreempted (threads runner_at_preemption_priority 0) = false
  /\ UpdatePriority 0 runner_at_preemption_priority = Ret tt runner_at_preemption_priority
  /\ trace runner_at_preemption_priority = [].
Proof.
  split; [by vm_compute|].
  split; [by apply (UpdatePriority_head_noop _ 0 (mkCore 0 59 [0; 1]) [1])|].
  split; [reflexivity|]. split; [reflexivity|]. split; [reflexivity|].
  split; [by apply (UpdatePriority_head_noop _ 0 (mkCore 0 59 [0]) [])|].
  reflexivity.
Qed.

(** C6 fails as stated: [Rotate] called by a force-yielded thread that is
    not in its band of the queue throws, and [forceYield] is still set. *)
Lemma Rotate_throws_with_forceYield_set :
  exists s',
    Rotate (ticks_at 0) (Some 0) false forced_but_absent = Throw RotateNotInQueueForced s'
    /\ forceYield (threads s' 0) = true.
Proof.
  exists forced_but_absent. split; [|reflexivity].
  by vm_compute.
Qed.

Lemma Rotate_forceYield_witness :
  exists s', Rotate (ticks_at 0) (Some 0) true forced_and_moved = Ret tt s'
             /\ forceYield (threads s' 0) = false.
Proof.
  apply (Rotate_forceYield (ticks_at 0) forced_and_moved 0 true (mkCore 0 59 [1; 0]) 1 [0]).
  - reflexivity.
  - reflexivity.
  - right. split; reflexivity.
Defined.

Lemma InsertThread_RemoveThread_witness :
  exists s1 s2,
    InsertThread None 2 two_queued = Ret tt s1
    /\ RemoveThread (ticks_at 0) (Some 2) s1 = Ret tt s2
    /\ cores s2 = cores two_queued
    /\ parkedQueue s2 = parkedQueue two_queued.
Proof.
  apply (InsertThread_RemoveThread (ticks_at 0) two_queued None 2 (mkCore 0 59 [0; 1])).
  - reflexivity.
  - simpl. rewrite !not_elem_of_cons. split_and!; try lia. apply not_elem_of_nil.
Defined.

Lemma TimedWaitSchedule_timeout_witness :
  TimedWaitSchedule (ticks_at 0) (Some 1) (fun s => s) two_queued = Ret false two_queued
  /\ (two_queued = two_queued ->
      exists s',
        TimedWaitSchedule (ticks_at 0) (Some 1) (fun s => s) two_queued = Ret false s'
        /\ isPreempted (threads s' 1) = isPreempted (threads two_queued 1)
        /\ timesliceStart (threads s' 1) = timesliceStart (threads two_queued 1)
        /\ coreId (threads s' 1) = coreId (threads two_queued 1)
        /\ cores s' = cores two_queued
        /\ parkedQueue s' = parkedQueue two_queued
        /\ tickReads s' = tickReads two_queued
        /\ trace s' = trace two_queued).
Proof.
  apply (TimedWaitSchedule_timeout (ticks_at 0) two_queued 1 (mkCore 0 59 [0; 1]) (fun s => s));
    reflexivity.
Defined.

Lemma RemoveThread_absent_witness :
  exists s',
    RemoveThread (ticks_at 0) (Some 2) two_queued_preempted = Ret tt s'
    /\ cores s' = cores two_queued_preempted
    /\ parkedQueue s' = parkedQueue two_queued_preempted
    /\ trace s' = trace two_queued_preempted
                  ++ (if isPreempted (threads two_queued_preempted 2)
                      then [timer_disarm 2] else [])
    /\ isPreempted (threads s' 2) = false
    /\ YieldPending s' 2 = false.
Proof.
  apply (RemoveThread_absent (ticks_at 0) two_queued_preempted 2 (mkCore 0 59 [0; 1])).
  - reflexivity.
  - simpl. rewrite !not_elem_of_cons. split_and!; try lia. apply not_elem_of_nil.
Defined.

(** C4 fails as stated: cores 1 and 2 are both admitted and empty, core 0
    is left with a running thread of the caller's own priority, so core 1 is
    the first core that qualifies; [ParkThread] puts the caller on core 2. *)
Lemma ParkThread_takes_last_core :
  mask_test (affinityMask (threads three_cores 0)) 1 = true
  /\ cores three_cores !! 1 = Some (mkCore 1 59 [])
  /\ cores three_cores !! 0 = Some (mkCore 0 59 [0; 3])
  /\ priority (threads three_cores 3) = priority (threads three_cores 0)
  /\ exists s',
       ParkThread (ticks_at 0) 255 (Some 0) three_cores = Ret tt s'
       /\ coreId (threads s' 0) = 2
       /\ cores s' = [mkCore 0 59 [3]; mkCore 1 59 []; mkCore 2 59 [0]]
       /\ parkedQueue s' = [].
Proof.
  split_and!; try reflexivity.
  eexists. split; [vm_compute; reflexivity|]. by split_and!.
Qed.

Lemma ParkThread_last_candidate_witness :
  exists s',
    ParkThread (ticks_at 0) 255 (Some 0) three_cores = Ret tt s'
    /\ coreId (threads s' 0) = 2
    /\ parkedQueue s' = parkedQueue three_cores
    /\ exists c', cores s' !! 2 = Some c' /\ queue c' = 0 :: queue (mkCore 2 59 []).
Proof.
  apply (ParkThread_last_candidate (ticks_at 0) 255 three_cores 0
           (mkCore 0 59 [0; 3]) 2 (mkCore 2 59 [])).
  - intros i c H. destruct i as [|[|[|i]]]; simpl in H; by simplify_eq.
  - simpl. lia.
  - reflexivity.
  - reflexivity.
  - constructor.
  - reflexivity.
  - intros j c Hlt H. destruct j as [|[|[|j]]]; simpl in H; try lia; done.
Defined.

(** C2 fails as stated: thread 1, of strictly higher priority than the
    running thread 0, is inserted by another thread; it is put behind thread
    0 and the queue of core 0 is no longer sorted. *)
Lemma InsertThread_behind_running_thread_unsorted :
  queues_sorted running_40
  /\ exists s',
       InsertThread None 1 running_40 = Ret tt s'
       /\ cores s' = [mkCore 0 59 [0; 1]]
       /\ ~ queues_sorted s'.
Proof.
  split.
  - intros i c H. destruct i as [|i]; simpl in H; [|done].
    injection H as <-. repeat constructor.
  - eexists. split; [vm_compute; reflexivity|]. split; [reflexivity|].
    intros Hs. specialize (Hs 0 (mkCore 0 59 [0; 1]) eq_refl).
    apply StronglySorted_cons in Hs as [Hfront _].
    apply Forall_cons in Hfront as [Hle _].
    vm_compute in Hle. by apply Hle.
Qed.

Lemma queues_sorted_but_deferred_witness :
  leaves (run (ticks_at 0) 255 (OpInsertThread None 1)) running_40
    (sorted_but_deferred (OpInsertThread None 1))
  /\ forall caller t core,
       OpInsertThread None 1 = OpInsertThread caller t ->
       cores running_40 !! coreId (threads running_40 t) = Some core ->
       exists s' k,
         InsertThread caller t running_40 = Ret tt s'
         /\ k <= length (queue core)
         /\ cores s' = alter (with_queue (insert_at k t (queue core)))
                             (coreId (threads running_40 t)) (cores running_40)
         /\ forall u, u ∈ drop k (queue core) ->
                      (priority (threads running_40 t) < priority (threads running_40 u))%Z.
Proof.
  apply (queues_sorted_but_deferred (ticks_at 0) 255 (OpInsertThread None 1) running_40).
  intros i c H. destruct i as [|i]; simpl in H; [|done].
  injection H as <-. repeat constructor.
Defined.

Lemma LoadBalance_minimal_projection_witness :
  exists ws s1 o w,
    projected_waits (ticks_at 0) 1 (cores balanced_tie) balanced_tie = Ret ws s1
    /\ select_core (ticks_at 0) 1 (coreId (threads balanced_tie 1)) (cores balanced_tie)
         0 None 0 balanced_tie
       = Ret (Some o) s1
    /\ (forall j c, cores balanced_tie !! j = Some c ->
          (mask_test (affinityMask (threads balanced_tie 1)) (id c) = true
           <-> exists w', ws !! j = Some (Some w')))
    /\ ws !! o = Some (Some w)
    /\ (forall j w', ws !! j = Some (Some w') -> (w <= w')%Z)
    /\ match LoadBalance (ticks_at 0) (Some 1) 1 false balanced_tie with
       | Ret r sf => r = o /\ coreId (threads sf 1) = o
       | Throw e _ =>
           e = ExternalMigration /\ false = false /\ Some 1 <> Some 1
           /\ o <> coreId (threads balanced_tie 1)
       | Undef _ | Wait _ => False
       end
    /\ (forall wc,
          ws !! coreId (threads balanced_tie 1) = Some (Some wc) ->
          (forall j w', ws !! j = Some (Some w') -> (wc <= w')%Z) ->
          o = coreId (threads balanced_tie 1)
          /\ exists sf,
               LoadBalance (ticks_at 0) (Some 1) 1 false balanced_tie
               = Ret (coreId (threads balanced_tie 1)) sf
               /\ coreId (threads sf 1) = coreId (threads balanced_tie 1)
               /\ (false = false -> cores sf = cores balanced_tie)
               /\ parkedQueue sf = parkedQueue balanced_tie).
Proof.
  apply (LoadBalance_minimal_projection (ticks_at 0) balanced_tie (Some 1) 1 false
           (mkCore 0 59 [0; 1])).
  - intros i c H. destruct i as [|[|i]]; simpl in H; by simplify_eq.
  - reflexivity.
  - done.
  - simpl. lia.
  - simpl. lia.
Defined.

(** Scenario "load balance tie-breaks to current core": both cores project
    a wait of 100 ticks for thread 1 and it stays on core 0. *)
Example LoadBalance_tie_keeps_current_core :
  exists s1 sf,
    projected_waits (ticks_at 0) 1 (cores balanced_tie) balanced_tie
    = Ret [Some 100%Z; Some 100%Z] s1
    /\ LoadBalance (ticks_at 0) (Some 1) 1 false balanced_tie = Ret 0 sf
    /\ cores sf = cores balanced_tie
    /\ coreId (threads sf 1) = 0
    /\ trace sf = [LogLate 1 0].
Proof.
  eexists _, _. split; [vm_compute; reflexivity|].
  split; [vm_compute; reflexivity|]. by split_and!.
Qed.

(** Scenario "FIFO within band": threads 0, 1 and 2 of one priority are
    inserted from outside in this order; thread 0 rotates to the back of the
    band and thread 1 is woken. *)
Example FIFO_within_band :
  exists s',
    (InsertThread None 0 ;; InsertThread None 1 ;; InsertThread None 2)%sched idle_core
    = Ret tt s'
    /\ cores s' = [mkCore 0 59 [0; 1; 2]]
    /\ exists s'',
         Rotate (ticks_at 0) (Some 0) true s' = Ret tt s''
         /\ cores s'' = [mkCore 0 59 [1; 2; 0]]
         /\ trace s'' = trace s' ++ [notify_one 1].
Proof.
  eexists. split; [vm_compute; reflexivity|]. split; [reflexivity|].
  eexists. split; [vm_compute; reflexivity|]. by split.
Qed.

(** Scenario "higher-priority dethrone, external": thread 1 is put behind
    the running thread 0, which is sent [YieldSignal]; the [Rotate] of its
    signal handler then brings thread 1 to the front. *)
Example dethrone_by_another_thread :
  exists s',
    InsertThread None 1 running_40 = Ret tt s'
    /\ cores s' = [mkCore 0 59 [0; 1]]
    /\ trace s' = [SendSignal 0; notify_one 1]
    /\ exists s'',
         Rotate (ticks_at 0) (Some 0) false s' = Ret tt s''
         /\ cores s'' = [mkCore 0 59 [1; 0]].
Proof.
  eexists. split; [vm_compute; reflexivity|]. split; [reflexivity|].
  split; [reflexivity|].
  eexists. split; [vm_compute; reflexivity|]. reflexivity.
Qed.

(** Scenario "self-yield optimization": thread 1 inserts itself in front of
    the running thread 0, which gets [forceYield]; no signal is sent and the
    caller's [YieldPending] is set. *)
Example dethrone_by_the_thread_itself :
  exists s',
    InsertThread (Some 1) 1 running_40 = Ret tt s'
    /\ cores s' = [mkCore 0 59 [1; 0]]
    /\ forceYield (threads s' 0) = true
    /\ YieldPending s' 1 = true
    /\ trace s' = [].
Proof.
  eexists. split; [vm_compute; reflexivity|]. by split_and!.
Qed.

(** ** Instances of the further properties *)

Lemma coreId_out_of_range_witness :
  InsertThread None 0 stray_thread = Throw out_of_range stray_thread
  /\ RemoveThread (ticks_at 0) (Some 0) stray_thread = Throw out_of_range stray_thread
  /\ Rotate (ticks_at 0) (Some 0) false stray_thread = Throw out_of_range stray_thread
  /\ UpdatePriority 0 stray_thread = Throw out_of_range stray_thread
  /\ LoadBalance (ticks_at 0) None 0 false stray_thread = Throw out_of_range stray_thread
  /\ ParkThread (ticks_at 0) 255 (Some 0) stray_thread = Throw out_of_range stray_thread
  /\ TimedWaitSchedule (ticks_at 0) (Some 0) (fun s0 => s0) stray_thread = Throw out_of_range stray_thread
  /\ WaitSchedule (ticks_at 0) false (Some 0) false [] stray_thread = Throw out_of_range stray_thread
  /\ (parkedQueue stray_thread <> [] -> WakeParkedThread (Some 0) stray_thread = Throw out_of_range stray_thread).
Proof.
  apply (coreId_out_of_range (ticks_at 0) 255 false stray_thread 0 None false
           (fun s0 => s0) []).
  reflexivity.
Defined.

Lemma Rotate_round_robin_witness :
  exists s' band lower,
    [1] = band ++ lower
    /\ (forall u, u ∈ band -> priority (threads two_queued u) = priority (threads two_queued 0))
    /\ (forall u, u ∈ lower -> (priority (threads two_queued 0%nat) < priority (threads two_queued u))%Z)
    /\ Rotate (ticks_at 0) (Some 0) false two_queued = Ret tt s'
    /\ cores s' = alter (with_queue (band ++ 0 :: lower)) (coreId (threads two_queued 0)) (cores two_queued)
    /\ trace s' = trace two_queued
                  ++ match band with
                     | front :: _ => [notify_one front]
                     | [] => []
                     end
                  ++ (if false && isPreempted (threads two_queued 0)
                      then [timer_disarm 0] else []).
Proof.
  apply (Rotate_round_robin (ticks_at 0) two_queued 0 false (mkCore 0 59 [0; 1]) [1]).
  - reflexivity.
  - reflexivity.
  - repeat constructor; unfold prio_le; simpl; lia.
  - rewrite not_elem_of_cons. split; [lia|apply not_elem_of_nil].
Defined.


Lemma InsertThread_signals_witness :
  exists s' events,
    InsertThread None 1 running_40 = Ret tt s'
    /\ trace s' = trace running_40 ++ events
    /\ (None = Some 1 -> events = [])
    /\ forall e, e ∈ events ->
         (e = notify_one 1 /\ None <> Some 1)
         \/ exists front rest,
              e = SendSignal front
              /\ queue (mkCore 0 59 [0]) = front :: rest
              /\ None <> Some front
              /\ None <> Some 1
              /\ (priority (threads running_40 1%nat) < priority (threads running_40 front))%Z.
Proof.
  apply (InsertThread_signals running_40 None 1 (mkCore 0 59 [0])).
  reflexivity.
Defined.

Lemma InsertThread_adds_one_entry_witness :
  exists s' core',
    InsertThread None 2 two_queued = Ret tt s'
    /\ cores s' !! coreId (threads two_queued 2) = Some core'
    /\ id core' = id (mkCore 0 59 [0; 1])
    /\ preemptionPriority core' = preemptionPriority (mkCore 0 59 [0; 1])
    /\ queue core' ≡ₚ 2 :: queue (mkCore 0 59 [0; 1])
    /\ (2 ∉ queue (mkCore 0 59 [0; 1]) -> NoDup (queue (mkCore 0 59 [0; 1])) -> NoDup (queue core'))
    /\ (forall j, j <> coreId (threads two_queued 2) -> cores s' !! j = cores two_queued !! j)
    /\ parkedQueue s' = parkedQueue two_queued.
Proof.
  apply (InsertThread_adds_one_entry two_queued None 2 (mkCore 0 59 [0; 1])).
  reflexivity.
Defined.

Lemma RemoveThread_running_witness :
  exists s',
    RemoveThread (ticks_at 0) (Some 0) two_queued = Ret tt s'
    /\ cores s' = alter (with_queue [1]) (coreId (threads two_queued 0)) (cores two_queued)
    /\ trace s' = trace two_queued
         ++ match [1] with
            | successor :: _ => [notify_one successor]
            | [] => []
            end
         ++ (if isPreempted (threads two_queued 0) then [timer_disarm 0] else [])
    /\ averageTimeslice (threads s' 0)
       = (if decide (timesliceStart (threads two_queued 0) = 0%Z)
          then averageTimeslice (threads two_queued 0)
          else ewma (averageTimeslice (threads two_queued 0)) (u64 ((ticks_at 0) (tickReads two_queued)))
                 (timesliceStart (threads two_queued 0)))
    /\ isPreempted (threads s' 0) = false
    /\ YieldPending s' 0 = false.
Proof.
  apply (RemoveThread_running (ticks_at 0) two_queued 0 (mkCore 0 59 [0; 1]) [1]).
  - reflexivity.
  - reflexivity.
Defined.

Lemma RemoveThread_waiting_witness :
  exists s' rest',
    RemoveThread (ticks_at 0) (Some 1) two_queued = Ret tt s'
    /\ cores s' = alter (with_queue (0 :: rest')) (coreId (threads two_queued 1)) (cores two_queued)
    /\ [1] ≡ₚ 1 :: rest'
    /\ trace s' = trace two_queued ++ (if isPreempted (threads two_queued 1) then [timer_disarm 1] else [])
    /\ averageTimeslice (threads s' 1) = averageTimeslice (threads two_queued 1)
    /\ tickReads s' = tickReads two_queued.
Proof.
  apply (RemoveThread_waiting (ticks_at 0) two_queued 1 (mkCore 0 59 [0; 1]) 0 [1]).
  - reflexivity.
  - reflexivity.
  - lia.
  - by apply list_elem_of_singleton.
Defined.

Lemma RemoveThread_twice_witness :
  exists s1 s2 core1,
    RemoveThread (ticks_at 0) (Some 1) two_queued = Ret tt s1
    /\ cores s1 !! coreId (threads two_queued 1) = Some core1
    /\ (1 ∉ queue core1)
    /\ RemoveThread (ticks_at 0) (Some 1) s1 = Ret tt s2
    /\ cores s2 = cores s1
    /\ parkedQueue s2 = parkedQueue s1
    /\ trace s2 = trace s1.
Proof.
  apply (RemoveThread_twice (ticks_at 0) two_queued 1 (mkCore 0 59 [0; 1])).
  - reflexivity.
  - simpl. apply NoDup_cons. split.
    + rewrite not_elem_of_cons. split; [lia|apply not_elem_of_nil].
    + apply NoDup_singleton.
Defined.

Lemma UpdatePriority_keeps_front_witness :
  exists s' q',
    UpdatePriority 1 raised_waiter = Ret tt s'
    /\ cores s' = alter (with_queue q') (coreId (threads raised_waiter 1)) (cores raised_waiter)
    /\ q' ≡ₚ queue (mkCore 0 59 [0; 1; 2])
    /\ head q' = head (queue (mkCore 0 59 [0; 1; 2]))
    /\ parkedQueue s' = parkedQueue raised_waiter
    /\ same_static (threads raised_waiter) (threads s').
Proof.
  apply (UpdatePriority_keeps_front raised_waiter 1 (mkCore 0 59 [0; 1; 2])).
  reflexivity.
Defined.

Lemma UpdatePriority_resorts_witness :
  let p := priority (threads raised_waiter 1) in
  let disarmed := if isPreempted (threads raised_waiter 1)
                     && bool_decide (p <> preemptionPriority (mkCore 0 59 [0; 1; 2]))
                  then [timer_disarm 1] else [] in
  exists s' q',
    UpdatePriority 1 raised_waiter = Ret tt s'
    /\ cores s' = alter (with_queue q') (coreId (threads raised_waiter 1)) (cores raised_waiter)
    /\ queue_sorted (threads s') (tail q')
    /\ (((priority (threads raised_waiter 0%nat) <= p)%Z
         /\ queue_sorted (threads s') q'
         /\ trace s' = trace raised_waiter ++ disarmed)
        \/ ((p < priority (threads raised_waiter 0%nat))%Z
            /\ q' = 0 :: 1 :: erase (find 1 [1; 2]) [1; 2]
            /\ trace s' = trace raised_waiter ++ disarmed ++ [SendSignal 0]))
    /\ (isPreempted (threads s' 1) = true ->
        isPreempted (threads raised_waiter 1) = true /\ p = preemptionPriority (mkCore 0 59 [0; 1; 2])).
Proof.
  apply (UpdatePriority_resorts raised_waiter 1 (mkCore 0 59 [0; 1; 2]) 0 [1; 2]).
  - reflexivity.
  - reflexivity.
  - lia.
  - apply list_elem_of_here.
  - repeat constructor; unfold prio_le; simpl; lia.
Defined.

Lemma WakeParkedThread_declines_witness :
  WakeParkedThread (Some 0) two_queued_one_parked = Ret tt two_queued_one_parked.
Proof.
  apply (WakeParkedThread_declines two_queued_one_parked 0 (mkCore 0 59 [0; 1]) 2 [] 0 1 []).
  - reflexivity.
  - reflexivity.
  - reflexivity.
  - right. simpl. lia.
Defined.


Lemma LoadBalance_early_witness :
  exists sf,
    LoadBalance (ticks_at 0) (Some 0) 0 false steady_scheduler = Ret (coreId (threads steady_scheduler 0)) sf
    /\ coreId (threads sf 0) = coreId (threads steady_scheduler 0)
    /\ tickReads sf = tickReads steady_scheduler
    /\ parkedQueue sf = parkedQueue steady_scheduler
    /\ (false = false ->
        cores sf = cores steady_scheduler /\ threads sf = threads steady_scheduler
        /\ trace sf = trace steady_scheduler ++ [LogEarly 0 (id (mkCore 0 59 [0]))]).
Proof.
  apply (LoadBalance_early (ticks_at 0) steady_scheduler (Some 0) 0 false (mkCore 0 59 [0])).
  - reflexivity.
  - right. reflexivity.
Defined.

Lemma LoadBalance_empty_mask_witness :
  match LoadBalance (ticks_at 0) (Some 0) 0 false no_affinity with
  | Ret _ _ | Wait _ => False
  | Undef u => u = NullDeref /\ (false = true \/ (Some 0) = Some 0)
  | Throw e s' =>
      e = ExternalMigration /\ s' = no_affinity /\ false = false /\ (Some 0) <> Some 0
  end.
Proof.
  apply (LoadBalance_empty_mask (ticks_at 0) no_affinity (Some 0) 0 false (mkCore 0 59 [0])).
  - reflexivity.
  - simpl. discriminate.
  - reflexivity.
Defined.


Lemma LoadBalance_refuses_witness :
  LoadBalance (ticks_at 0) (Some 3) 0 false three_cores = Throw ExternalMigration three_cores
  /\ cores three_cores = cores three_cores /\ threads three_cores = threads three_cores /\ parkedQueue three_cores = parkedQueue three_cores
  /\ trace three_cores = trace three_cores /\ YieldPending three_cores = YieldPending three_cores.
Proof.
  apply (LoadBalance_refuses (ticks_at 0) three_cores three_cores (Some 3) 0
           (mkCore 0 59 [0; 3]) 1).
  - reflexivity.
  - simpl. discriminate.
  - simpl. lia.
  - reflexivity.
  - simpl. lia.
  - intros H. by injection H.
Defined.

Lemma TimedWaitSchedule_scheduled_witness :
  let s1 := (fun s0 => s0) two_queued in
  let preempted := bool_decide (priority (threads s1 0) = preemptionPriority (mkCore 0 59 [0; 1])) in
  exists s',
    TimedWaitSchedule (ticks_at 0) (Some 0) (fun s0 => s0) two_queued = Ret true s'
    /\ WaitSchedule (ticks_at 0) false (Some 0) true ((fun s0 => s0) :: []) two_queued
       = Ret tt s'
    /\ cores s' = cores s1
    /\ parkedQueue s' = parkedQueue s1
    /\ YieldPending s' = YieldPending s1
    /\ tickReads s' = S (tickReads s1)
    /\ trace s' = trace s1 ++ (if preempted then [timer_arm 0] else [])
    /\ timesliceStart (threads s' 0) = u64 ((ticks_at 0) (tickReads s1))
    /\ isPreempted (threads s' 0) = preempted || isPreempted (threads s1 0)
    /\ averageTimeslice (threads s' 0) = averageTimeslice (threads s1 0)
    /\ coreId (threads s' 0) = coreId (threads s1 0)
    /\ same_static (threads s1) (threads s')
    /\ (forall u, u <> 0 -> threads s' u = threads s1 u).
Proof.
  apply (TimedWaitSchedule_scheduled (ticks_at 0) false two_queued 0 (mkCore 0 59 [0; 1])
           (fun s0 => s0) true []).
  - reflexivity.
  - intros core' H. simpl in H. by simplify_eq.
  - reflexivity.
Defined.


Lemma SignalHandler_hands_over_witness :
  exists s2 k,
    SignalHandler (ticks_at 0) false true 0 true (@nil (SchedulerState -> SchedulerState)) two_queued
    = WaitSchedule (ticks_at 0) false (Some 0) true (@nil (SchedulerState -> SchedulerState)) s2
    /\ ((@nil (SchedulerState -> SchedulerState)) = [] ->
        SignalHandler (ticks_at 0) false true 0 true (@nil (SchedulerState -> SchedulerState)) two_queued
        = Wait s2)
    /\ cores s2 = alter (with_queue (1 :: take k [] ++ 0 :: drop k []))
                    (coreId (threads two_queued 0)) (cores two_queued)
    /\ trace s2 = trace two_queued ++ [notify_one 1]
    /\ YieldPending s2 0 = false
    /\ isPreempted (threads s2 0) = false
    /\ forceYield (threads s2 0) = false
    /\ coreId (threads s2 0) = coreId (threads two_queued 0)
    /\ parkedQueue s2 = parkedQueue two_queued.
Proof.
  apply (SignalHandler_hands_over (ticks_at 0) false true two_queued 0 1
           (mkCore 0 59 [0; 1]) [] []).
  - reflexivity.
  - reflexivity.
  - lia.
  - reflexivity.
Defined.


Lemma projected_wait_running_thread_witness :
  exists w,
    projected_wait (ticks_at 1050) 0 (mkCore 0 59 [0]) steady_scheduler = Ret w (set_tickReads (S (tickReads steady_scheduler)) steady_scheduler)
    /\ w = Z.min (u64 (averageTimeslice (threads steady_scheduler 0)
                       - u64 (u64 ((ticks_at 1050) (tickReads steady_scheduler))
                              - timesliceStart (threads steady_scheduler 0)))) 1
    /\ (0 <= w <= 1)%Z.
Proof.
  apply (projected_wait_running_thread (ticks_at 1050) steady_scheduler 0
           (mkCore 0 59 [0]) 0 []).
  - reflexivity.
  - simpl. lia.
  - intros u Hu. by apply elem_of_nil in Hu.
Defined.
